(** * Log Pose: the session manager, the terminal WebSocket endpoint, the
    branch-name validator and the path-safe file surface, embedded in Rocq.

    JavaScript strings are sequences of UTF-16 code units; every operation
    of the program on strings ([length], [slice], [startsWith], [includes],
    [split], ...) works on code units, so a string is a [list N] here.
    Node's [path] and [fs] modules and the PTY library are the platform the
    program runs on; the parts of them the program calls are modelled in
    [NodePath], [Utf8] and [NodeFs]. *)

From Stdlib Require Import List NArith ZArith QArith Lia Bool Arith.
From Stdlib Require Ascii String DecimalString.
Import ListNotations.
Import String.StringSyntax.
Close Scope Q_scope.
Delimit Scope string_scope with string.

(* ================================================================== *)
(** * Definitions *)
(* ================================================================== *)

(** ** JavaScript strings *)

Module Js.

Definition jsstring := list N.

(** A literal: every character of an ASCII literal is one code unit. *)
Definition js (s : String.string) : jsstring :=
  map Ascii.N_of_ascii (String.list_ascii_of_string s).
Arguments js s%_string.

Fixpoint eqb (a b : jsstring) : bool :=
  match a, b with
  | [], [] => true
  | x :: a', y :: b' => N.eqb x y && eqb a' b'
  | _, _ => false
  end.

(** [s.startsWith(p)] *)
Fixpoint startsWith (p s : jsstring) : bool :=
  match p, s with
  | [], _ => true
  | x :: p', y :: s' => N.eqb x y && startsWith p' s'
  | _ :: _, [] => false
  end.

(** [s.endsWith(p)] *)
Definition endsWith (p s : jsstring) : bool :=
  startsWith (rev p) (rev s).

(** [s.includes(p)] *)
Fixpoint includes (p s : jsstring) : bool :=
  startsWith p s ||
  match s with
  | [] => false
  | _ :: s' => includes p s'
  end.

(** [s.split(sep)] for a one-unit separator: the pieces between separators,
    empty pieces kept, so the result is never empty. *)
Fixpoint split (sep : N) (s : jsstring) : list jsstring :=
  match s with
  | [] => [[]]
  | c :: s' =>
      if N.eqb c sep then [] :: split sep s'
      else match split sep s' with
           | [] => [[c]]
           | seg :: segs => (c :: seg) :: segs
           end
  end.

(** [parts.join(sep)] *)
Fixpoint join (sep : jsstring) (parts : list jsstring) : jsstring :=
  match parts with
  | [] => []
  | [p] => p
  | p :: ps => p ++ sep ++ join sep ps
  end.

(** [s.slice(-n)] for [n > 0]: the last [n] units, the whole string when it
    is shorter. *)
Definition slice_last (n : nat) (s : jsstring) : jsstring :=
  skipn (length s - n) s.

(** [s.slice(0, -1)] *)
Definition slice_drop_last (s : jsstring) : jsstring :=
  firstn (length s - 1) s.

(** Decimal rendering of an integer, as template literals do for integral
    numbers. *)
Definition show_nat (n : nat) : jsstring :=
  js (DecimalString.NilZero.string_of_uint (Nat.to_uint n)).

Definition show_Z (z : Z) : jsstring :=
  js (DecimalString.NilZero.string_of_int (Z.to_int z)).

(** Code units the program tests for. *)
Definition SLASH : N := 47.
Definition DOT : N := 46.
Definition BACKSLASH : N := 92.

(** The class [\s] of JavaScript regular expressions. *)
Definition is_regex_space (c : N) : bool :=
  existsb (N.eqb c)
    [9; 10; 11; 12; 13; 32; 160; 5760; 8232; 8233; 8239; 8287; 12288; 65279]%N
  || (N.leb 8192 c && N.leb c 8202).

End Js.
Import Js.

(** ** services/worktree.ts: branch names *)

Module Worktree.

(** The class [[~^:\\\*\[\]\s]] of the validator. *)
Definition invalid_branch_char (c : N) : bool :=
  existsb (N.eqb c) [126; 94; 58; 92; 42; 91; 93]%N || is_regex_space c.

(** [validateBranchName], the version that admits namespaced branches. *)
Definition validateBranchName (branch : jsstring) : bool :=
  if Nat.eqb (length branch) 0 then false
  else if includes (js "..") branch || includes [BACKSLASH] branch then false
  else if existsb invalid_branch_char branch then false
  else if startsWith (js "-") branch then false
  else if Js.eqb branch (js "@") || includes (js "@{") branch then false
  else
    forallb
      (fun segment =>
         negb (Nat.eqb (length segment) 0)
         && negb (startsWith (js ".") segment || endsWith (js ".") segment))
      (split SLASH branch).

(** The earlier [validateBranchName] of the same service, which refuses
    every slash and has no per-segment rule. *)
Definition validateBranchName_flat (branch : jsstring) : bool :=
  if Nat.eqb (length branch) 0 then false
  else if includes (js "..") branch || includes (js "/") branch
          || includes [BACKSLASH] branch then false
  else if existsb invalid_branch_char branch then false
  else if startsWith (js "-") branch then false
  else if Js.eqb branch (js "@") || includes (js "@{") branch then false
  else true.

End Worktree.

(** ** utils/config.ts: the configuration values the core reads *)

(** A number of the configuration.  The two session limits are read with
    [z.coerce.number()], which lets through every number but NaN: fractions,
    negative numbers and the two infinities too.  The time limit and the
    size limit are followed for whole numbers only. *)
Inductive number :=
| Finite (q : Q)
| PlusInfinity
| MinusInfinity.

(** [n >= x], for a count [n]. *)
Definition count_geb (n : nat) (x : number) : bool :=
  match x with
  | Finite q => Qle_bool q (inject_Z (Z.of_nat n))
  | PlusInfinity => false
  | MinusInfinity => true
  end.

(** The digits after the point, at most [fuel] of them. *)
Fixpoint fraction_digits (fuel : nat) (r d : Z) : jsstring :=
  match fuel with
  | O => []
  | S fuel' =>
      if Z.eqb r 0 then []
      else (48 + Z.to_N (r * 10 / d))%N
             :: fraction_digits fuel' ((r * 10) mod d) d
  end.

(** A number in a template literal: the digits of a whole number, or those
    of a number with a short decimal expansion, as 2.5.  The exponent forms
    of very large and very small numbers are not spelt out. *)
Definition show_number (x : number) : jsstring :=
  match x with
  | Finite q =>
      let n := Z.abs (Qnum q) in
      let d := Zpos (Qden q) in
      (if Z.ltb (Qnum q) 0 then js "-" else [])
      ++ show_Z (n / d)
      ++ (if Z.eqb (n mod d) 0 then []
          else DOT :: fraction_digits 24 (n mod d) d)
  | PlusInfinity => js "Infinity"
  | MinusInfinity => js "-Infinity"
  end.

Record Config := mkConfig {
  MAX_SESSIONS_PER_USER : number;
  MAX_TOTAL_SESSIONS : number;
  DISCONNECTED_TTL_MINUTES : Z;
  MAX_FILE_SIZE_BYTES : Z;
  CLAUDE_PATH : jsstring
}.

(** The defaults of [configSchema]. *)
Definition default_config : Config :=
  {| MAX_SESSIONS_PER_USER := Finite (inject_Z 3);
     MAX_TOTAL_SESSIONS := Finite (inject_Z 20);
     DISCONNECTED_TTL_MINUTES := 20;
     MAX_FILE_SIZE_BYTES := 2000000;
     CLAUDE_PATH := js "claude" |}.

(** A function either returns or throws an [Error] with a message. *)
Inductive result (A : Type) : Type :=
| Ok (a : A)
| Throw (message : jsstring).
Arguments Ok {A} a.
Arguments Throw {A} message.

(** ** services/claude-session.ts: the session manager *)

Module SessionManager.

Definition REPLAY_BUFFER_SIZE : nat := 128 * 1024.

Inductive SessionState := starting | running | exited.

Record ClaudeSession := mkSession {
  session_id : jsstring;
  userEmail : jsstring;
  repoId : jsstring;
  repoPath : jsstring;
  session_name : jsstring;
  state : SessionState;
  createdAt : Z;
  lastActivityAt : Z;
  exitCode : option Z
}.

Inductive ServerMessage :=
| MsgOutput (data : jsstring)
| MsgStatus (st : SessionState) (message sessionId sessionName : option jsstring)
| MsgPong
| MsgReplay (data : jsstring)
| MsgError (message : jsstring).

(** [SessionEntry].  The PTY is the index of its process in [procs], the
    timeout the index of its timer in [timers]; a client is known by its
    id, and [clients] keeps the insertion order of the [Set]. *)
Record SessionEntry := mkEntry {
  session : ClaudeSession;
  pty : option nat;
  outputBuffer : jsstring;
  clients : list jsstring;
  disconnectedAt : option Z;
  cleanupTimeout : option nat
}.

(** A process made by [pty.spawn].  Its [onData] and [onExit] handlers
    close over the entry it was spawned for, [pty_entry]. *)
Record PtyProc := mkProc {
  pty_file : jsstring;
  pty_args : list jsstring;
  pty_cols : Q;
  pty_rows : Q;
  pty_cwd : jsstring;
  pty_entry : nat;
  pty_written : list jsstring;
  pty_killed : bool;
  pty_exited : bool
}.

(** A timer made by [setTimeout(() => this.cleanupSession(sessionId), ...)]. *)
Record Timer := mkTimer {
  timer_sessionId : jsstring;
  timer_due : Z;
  timer_cleared : bool;
  timer_fired : bool
}.

(** The manager and what it acts on.  Entries are objects shared between
    the [sessions] map and the handlers of their processes: they live in
    [heap] and are referred to by index.  [sent] logs every call of a
    client's [send], in order. *)
Record World := mkWorld {
  heap : list SessionEntry;
  sessions : list (jsstring * nat);
  userRepoSessions : list (jsstring * list jsstring);
  procs : list PtyProc;
  timers : list Timer;
  sent : list (jsstring * ServerMessage);
  clock : Z
}.

Definition empty_world : World :=
  {| heap := []; sessions := []; userRepoSessions := [];
     procs := []; timers := []; sent := []; clock := 0 |}.

(** *** Maps and sets with string keys, in insertion order *)

Fixpoint map_get {V} (k : jsstring) (m : list (jsstring * V)) : option V :=
  match m with
  | [] => None
  | (k', v) :: m' => if Js.eqb k k' then Some v else map_get k m'
  end.

Fixpoint map_set {V} (k : jsstring) (v : V) (m : list (jsstring * V))
  : list (jsstring * V) :=
  match m with
  | [] => [(k, v)]
  | (k', v') :: m' =>
      if Js.eqb k k' then (k', v) :: m' else (k', v') :: map_set k v m'
  end.

Definition map_delete {V} (k : jsstring) (m : list (jsstring * V))
  : list (jsstring * V) :=
  filter (fun kv => negb (Js.eqb k (fst kv))) m.

Definition set_has (x : jsstring) (s : list jsstring) : bool :=
  existsb (Js.eqb x) s.

Definition set_add (x : jsstring) (s : list jsstring) : list jsstring :=
  if set_has x s then s else s ++ [x].

Definition set_delete (x : jsstring) (s : list jsstring) : list jsstring :=
  filter (fun y => negb (Js.eqb x y)) s.

(** Removes the first element that satisfies [f], as a loop that deletes
    and then breaks. *)
Fixpoint delete_first (f : jsstring -> bool) (s : list jsstring)
  : list jsstring :=
  match s with
  | [] => []
  | y :: s' => if f y then s' else y :: delete_first f s'
  end.

Fixpoint list_update {A} (n : nat) (f : A -> A) (l : list A) : list A :=
  match l, n with
  | [], _ => []
  | x :: l', O => f x :: l'
  | x :: l', S n' => x :: list_update n' f l'
  end.

(** *** Field updates *)

Definition set_state (st : SessionState) (s : ClaudeSession) : ClaudeSession :=
  mkSession (session_id s) (userEmail s) (repoId s) (repoPath s)
    (session_name s) st (createdAt s) (lastActivityAt s) (exitCode s).

Definition set_exitCode (c : option Z) (s : ClaudeSession) : ClaudeSession :=
  mkSession (session_id s) (userEmail s) (repoId s) (repoPath s)
    (session_name s) (state s) (createdAt s) (lastActivityAt s) c.

Definition set_lastActivityAt (t : Z) (s : ClaudeSession) : ClaudeSession :=
  mkSession (session_id s) (userEmail s) (repoId s) (repoPath s)
    (session_name s) (state s) (createdAt s) t (exitCode s).

Definition set_name (n : jsstring) (s : ClaudeSession) : ClaudeSession :=
  mkSession (session_id s) (userEmail s) (repoId s) (repoPath s)
    n (state s) (createdAt s) (lastActivityAt s) (exitCode s).

Definition upd_session (f : ClaudeSession -> ClaudeSession) (e : SessionEntry)
  : SessionEntry :=
  mkEntry (f (session e)) (pty e) (outputBuffer e) (clients e)
    (disconnectedAt e) (cleanupTimeout e).

Definition set_pty (p : option nat) (e : SessionEntry) : SessionEntry :=
  mkEntry (session e) p (outputBuffer e) (clients e)
    (disconnectedAt e) (cleanupTimeout e).

Definition set_outputBuffer (b : jsstring) (e : SessionEntry) : SessionEntry :=
  mkEntry (session e) (pty e) b (clients e)
    (disconnectedAt e) (cleanupTimeout e).

Definition set_clients (c : list jsstring) (e : SessionEntry) : SessionEntry :=
  mkEntry (session e) (pty e) (outputBuffer e) c
    (disconnectedAt e) (cleanupTimeout e).

Definition set_disconnectedAt (d : option Z) (e : SessionEntry) : SessionEntry :=
  mkEntry (session e) (pty e) (outputBuffer e) (clients e)
    d (cleanupTimeout e).

Definition set_cleanupTimeout (t : option nat) (e : SessionEntry)
  : SessionEntry :=
  mkEntry (session e) (pty e) (outputBuffer e) (clients e)
    (disconnectedAt e) t.

Definition with_heap (h : list SessionEntry) (w : World) : World :=
  mkWorld h (sessions w) (userRepoSessions w) (procs w) (timers w) (sent w)
    (clock w).

Definition with_sessions (s : list (jsstring * nat)) (w : World) : World :=
  mkWorld (heap w) s (userRepoSessions w) (procs w) (timers w) (sent w)
    (clock w).

Definition with_userRepoSessions (u : list (jsstring * list jsstring))
    (w : World) : World :=
  mkWorld (heap w) (sessions w) u (procs w) (timers w) (sent w) (clock w).

Definition with_procs (p : list PtyProc) (w : World) : World :=
  mkWorld (heap w) (sessions w) (userRepoSessions w) p (timers w) (sent w)
    (clock w).

Definition with_timers (t : list Timer) (w : World) : World :=
  mkWorld (heap w) (sessions w) (userRepoSessions w) (procs w) t (sent w)
    (clock w).

Definition with_sent (s : list (jsstring * ServerMessage)) (w : World)
  : World :=
  mkWorld (heap w) (sessions w) (userRepoSessions w) (procs w) (timers w) s
    (clock w).

Definition with_clock (t : Z) (w : World) : World :=
  mkWorld (heap w) (sessions w) (userRepoSessions w) (procs w) (timers w)
    (sent w) t.

Definition upd_entry (r : nat) (f : SessionEntry -> SessionEntry) (w : World)
  : World :=
  with_heap (list_update r f (heap w)) w.

Definition upd_proc (pid : nat) (f : PtyProc -> PtyProc) (w : World) : World :=
  with_procs (list_update pid f (procs w)) w.

Definition upd_timer (t : nat) (f : Timer -> Timer) (w : World) : World :=
  with_timers (list_update t f (timers w)) w.

(** [for (const client of entry.clients) client.send(message)] *)
Definition broadcast (cs : list jsstring) (msg : ServerMessage) (w : World)
  : World :=
  with_sent (sent w ++ map (fun c => (c, msg)) cs) w.

(** [pty.kill()], [pty.write(data)], [pty.resize(cols, rows)], [clearTimeout] *)
Definition pty_kill (pid : nat) : World -> World :=
  upd_proc pid (fun p =>
    mkProc (pty_file p) (pty_args p) (pty_cols p) (pty_rows p) (pty_cwd p)
      (pty_entry p) (pty_written p) true (pty_exited p)).

Definition pty_write (pid : nat) (data : jsstring) : World -> World :=
  upd_proc pid (fun p =>
    mkProc (pty_file p) (pty_args p) (pty_cols p) (pty_rows p) (pty_cwd p)
      (pty_entry p) (pty_written p ++ [data]) (pty_killed p) (pty_exited p)).

Definition pty_resize (pid : nat) (cols rows : Q) : World -> World :=
  upd_proc pid (fun p =>
    mkProc (pty_file p) (pty_args p) cols rows (pty_cwd p)
      (pty_entry p) (pty_written p) (pty_killed p) (pty_exited p)).

Definition pty_mark_exited (pid : nat) : World -> World :=
  upd_proc pid (fun p =>
    mkProc (pty_file p) (pty_args p) (pty_cols p) (pty_rows p) (pty_cwd p)
      (pty_entry p) (pty_written p) (pty_killed p) true).

Definition clearTimeout (t : nat) : World -> World :=
  upd_timer t (fun x =>
    mkTimer (timer_sessionId x) (timer_due x) true (timer_fired x)).

Definition timer_pending (t : Timer) : bool :=
  negb (timer_cleared t) && negb (timer_fired t).

(** [this.sessions.get(sessionId)], with the entry the reference denotes. *)
Definition getEntry (sessionId : jsstring) (w : World)
  : option (nat * SessionEntry) :=
  match map_get sessionId (sessions w) with
  | None => None
  | Some r =>
      match nth_error (heap w) r with
      | None => None
      | Some e => Some (r, e)
      end
  end.

(** The entries of [this.sessions.values()], in order. *)
Definition session_entries (w : World) : list SessionEntry :=
  flat_map (fun kv => match nth_error (heap w) (snd kv) with
                      | Some e => [e]
                      | None => []
                      end) (sessions w).

Definition getUserRepoKey (email repo : jsstring) : jsstring :=
  email ++ js ":" ++ repo.

Definition generateTabName (existingSessions : list jsstring) : jsstring :=
  js "Session " ++ show_nat (length existingSessions + 1).

Definition getUserSessionCount (email : jsstring) (w : World) : nat :=
  length (filter (fun e => Js.eqb (userEmail (session e)) email)
            (session_entries w)).

(** *** The replay buffer part of the [onData] handler *)

Definition append_replay (buffer data : jsstring) : jsstring :=
  let b := buffer ++ data in
  if Nat.ltb REPLAY_BUFFER_SIZE (length b)
  then slice_last REPLAY_BUFFER_SIZE b
  else b.

(** *** Spawning *)

(** What [pty.spawn] does: it returns a process or throws. *)
Inductive SpawnOutcome :=
| SpawnReturns
| SpawnThrows (message : jsstring).

Definition DEFAULT_COLS : Q := 120 # 1.
Definition DEFAULT_ROWS : Q := 30 # 1.

Definition or_default (d : Q) (x : option Q) : Q :=
  match x with Some v => v | None => d end.

(** [spawnClaude(entry, cols = 120, rows = 30)]; [r] refers to [entry]. *)
Definition spawnClaude (cfg : Config) (spawn : SpawnOutcome) (r : nat)
    (cols rows : option Q) (w : World) : result unit * World :=
  match nth_error (heap w) r with
  | None => (Throw [], w)
  | Some entry =>
      match spawn with
      | SpawnThrows message =>
          (Throw message,
           upd_entry r
             (upd_session (fun s => set_exitCode (Some 1%Z) (set_state exited s)))
             w)
      | SpawnReturns =>
          let pid := length (procs w) in
          let ptyProcess :=
            {| pty_file := js "/bin/bash";
               pty_args := [js "-c"; js "exec " ++ CLAUDE_PATH cfg];
               pty_cols := or_default DEFAULT_COLS cols;
               pty_rows := or_default DEFAULT_ROWS rows;
               pty_cwd := repoPath (session entry);
               pty_entry := r;
               pty_written := [];
               pty_killed := false;
               pty_exited := false |} in
          let w1 := with_procs (procs w ++ [ptyProcess]) w in
          let w2 :=
            upd_entry r
              (fun e => upd_session (set_state running) (set_pty (Some pid) e))
              w1 in
          (Ok tt,
           broadcast (clients entry) (MsgStatus running None None None) w2)
      end
  end.

(** The [onData] handler of the process [pid]. *)
Definition onData (pid : nat) (data : jsstring) (w : World) : World :=
  match nth_error (procs w) pid with
  | None => w
  | Some p =>
      let r := pty_entry p in
      match nth_error (heap w) r with
      | None => w
      | Some entry =>
          let w1 :=
            upd_entry r
              (fun e => set_outputBuffer (append_replay (outputBuffer e) data) e)
              w in
          let w2 := broadcast (clients entry) (MsgOutput data) w1 in
          upd_entry r (upd_session (set_lastActivityAt (clock w))) w2
      end
  end.

Definition exit_message (code : Z) (signal : Z) : jsstring :=
  js "Claude exited with code " ++ show_Z code
  ++ (if Z.eqb signal 0 then []
      else js " (signal: " ++ show_Z signal ++ js ")").

(** The [onExit] handler of the process [pid]. *)
Definition onExit (pid : nat) (code signal : Z) (w : World) : World :=
  match nth_error (procs w) pid with
  | None => w
  | Some p =>
      let r := pty_entry p in
      match nth_error (heap w) r with
      | None => w
      | Some entry =>
          let w1 :=
            upd_entry r
              (fun e =>
                 set_pty None
                   (upd_session
                      (fun s => set_exitCode (Some code) (set_state exited s))
                      e))
              w in
          broadcast (clients entry)
            (MsgStatus exited (Some (exit_message code signal)) None None) w1
      end
  end.

(** *** The operations of [ClaudeSessionManager] *)

(** [createSession].  [sessionId] is what [generateSessionId] returns and
    [spawn] what [pty.spawn] does in this call. *)
Definition createSession (cfg : Config) (sessionId : jsstring)
    (spawn : SpawnOutcome)
    (email repo path : jsstring) (name : option jsstring)
    (cols rows : option Q) (w : World) : result ClaudeSession * World :=
  let userSessionCount := getUserSessionCount email w in
  if count_geb userSessionCount (MAX_SESSIONS_PER_USER cfg) then
    (Throw (js "Maximum sessions per user reached ("
            ++ show_number (MAX_SESSIONS_PER_USER cfg) ++ js ")"), w)
  else if count_geb (length (sessions w)) (MAX_TOTAL_SESSIONS cfg) then
    (Throw (js "Server at maximum capacity"), w)
  else
    let userRepoKey := getUserRepoKey email repo in
    let existingSessionIds :=
      match map_get userRepoKey (userRepoSessions w) with
      | Some ids => ids
      | None => []
      end in
    let tabName :=
      match name with
      | Some (c :: n) => c :: n
      | _ => generateTabName existingSessionIds
      end in
    let created :=
      {| session_id := sessionId; userEmail := email; repoId := repo;
         repoPath := path; session_name := tabName; state := starting;
         createdAt := clock w; lastActivityAt := clock w;
         exitCode := None |} in
    let entry :=
      {| session := created; pty := None; outputBuffer := [];
         clients := []; disconnectedAt := None; cleanupTimeout := None |} in
    let r := length (heap w) in
    let w1 := with_heap (heap w ++ [entry]) w in
    let w2 := with_sessions (map_set sessionId r (sessions w1)) w1 in
    let w3 :=
      with_userRepoSessions
        (map_set userRepoKey (set_add sessionId existingSessionIds)
           (userRepoSessions w2)) w2 in
    match spawnClaude cfg spawn r cols rows w3 with
    | (Throw message, w4) => (Throw message, w4)
    | (Ok _, w4) =>
        (Ok match nth_error (heap w4) r with
            | Some e => session e
            | None => created
            end, w4)
    end.

Definition getSession (sessionId : jsstring) (w : World)
  : option ClaudeSession :=
  match getEntry sessionId w with
  | Some (_, e) => Some (session e)
  | None => None
  end.

Record TabInfo := mkTab {
  tab_id : jsstring;
  tab_name : jsstring;
  tab_state : SessionState;
  tab_createdAt : Z
}.

(** A stable sort by creation time: tabs of one creation time keep the
    order they are pushed in. *)
Fixpoint insert_tab (t : TabInfo) (l : list TabInfo) : list TabInfo :=
  match l with
  | [] => [t]
  | x :: l' =>
      if Z.leb (tab_createdAt t) (tab_createdAt x) then t :: x :: l'
      else x :: insert_tab t l'
  end.

Definition sort_tabs (l : list TabInfo) : list TabInfo :=
  fold_right insert_tab [] l.

Definition listSessions (email repo : jsstring) (w : World) : list TabInfo :=
  match map_get (getUserRepoKey email repo) (userRepoSessions w) with
  | None => []
  | Some sessionIds =>
      sort_tabs
        (flat_map
           (fun sessionId =>
              match getEntry sessionId w with
              | Some (_, e) =>
                  [mkTab (session_id (session e)) (session_name (session e))
                     (state (session e)) (createdAt (session e))]
              | None => []
              end)
           sessionIds)
  end.

Definition renameSession (sessionId newName : jsstring) (w : World)
  : bool * World :=
  match getEntry sessionId w with
  | None => (false, w)
  | Some (r, _) => (true, upd_entry r (upd_session (set_name newName)) w)
  end.

Definition attachClient (sessionId client : jsstring) (w : World)
  : option (ClaudeSession * jsstring) * World :=
  match getEntry sessionId w with
  | None => (None, w)
  | Some (r, entry) =>
      let w1 :=
        match cleanupTimeout entry with
        | Some t => upd_entry r (set_cleanupTimeout None) (clearTimeout t w)
        | None => w
        end in
      let w2 := upd_entry r (set_disconnectedAt None) w1 in
      let w3 := upd_entry r (fun e => set_clients (set_add client (clients e)) e) w2 in
      let w4 := upd_entry r (upd_session (set_lastActivityAt (clock w))) w3 in
      (match nth_error (heap w4) r with
       | Some e => Some (session e, outputBuffer e)
       | None => None
       end, w4)
  end.

Definition ttl_ms (cfg : Config) : Z :=
  (DISCONNECTED_TTL_MINUTES cfg * 60 * 1000)%Z.

(** The delay [setTimeout] arms: a delay above 2147483647 ms or below 1 ms
    is replaced by 1 ms. *)
Definition TIMEOUT_MAX : Z := 2147483647.

Definition setTimeout_delay (ms : Z) : Z :=
  if Z.leb 1 ms && Z.leb ms TIMEOUT_MAX then ms else 1%Z.

Definition detachClient (cfg : Config) (sessionId clientId : jsstring)
    (w : World) : World :=
  match getEntry sessionId w with
  | None => w
  | Some (r, entry) =>
      let remaining := delete_first (Js.eqb clientId) (clients entry) in
      let w1 := upd_entry r (set_clients remaining) w in
      if Nat.eqb (length remaining) 0 then
        let t := length (timers w1) in
        let w2 := upd_entry r (set_disconnectedAt (Some (clock w))) w1 in
        let w3 :=
          with_timers
            (timers w2
             ++ [mkTimer sessionId (clock w + setTimeout_delay (ttl_ms cfg))
                   false false])
            w2 in
        upd_entry r (set_cleanupTimeout (Some t)) w3
      else w1
  end.

Definition sendInput (sessionId data : jsstring) (w : World) : bool * World :=
  match getEntry sessionId w with
  | None => (false, w)
  | Some (r, entry) =>
      match pty entry with
      | None => (false, w)
      | Some pid =>
          (true,
           upd_entry r (upd_session (set_lastActivityAt (clock w)))
             (pty_write pid data w))
      end
  end.

Definition resize (sessionId : jsstring) (cols rows : Q) (w : World)
  : bool * World :=
  match getEntry sessionId w with
  | None => (false, w)
  | Some (r, entry) =>
      match pty entry with
      | None => (false, w)
      | Some pid => (true, pty_resize pid cols rows w)
      end
  end.

Definition restartSession (cfg : Config) (spawn : SpawnOutcome)
    (sessionId : jsstring) (w : World)
  : result (option ClaudeSession) * World :=
  match getEntry sessionId w with
  | None => (Ok None, w)
  | Some (r, entry) =>
      let w1 :=
        match pty entry with
        | Some pid => upd_entry r (set_pty None) (pty_kill pid w)
        | None => w
        end in
      let w2 := upd_entry r (set_outputBuffer []) w1 in
      match spawnClaude cfg spawn r None None w2 with
      | (Throw message, w3) => (Throw message, w3)
      | (Ok _, w3) =>
          (Ok match nth_error (heap w3) r with
              | Some e => Some (session e)
              | None => None
              end, w3)
      end
  end.

Definition cleanupSession (sessionId : jsstring) (w : World) : bool * World :=
  match getEntry sessionId w with
  | None => (false, w)
  | Some (r, entry) =>
      let w1 := match pty entry with
                | Some pid => pty_kill pid w
                | None => w
                end in
      let w2 := match cleanupTimeout entry with
                | Some t => clearTimeout t w1
                | None => w1
                end in
      let w3 :=
        broadcast (clients entry)
          (MsgStatus exited (Some (js "Session terminated")) None None) w2 in
      let userRepoKey :=
        getUserRepoKey (userEmail (session entry)) (repoId (session entry)) in
      let w4 :=
        match map_get userRepoKey (userRepoSessions w3) with
        | None => w3
        | Some userSessions =>
            let userSessions' := set_delete sessionId userSessions in
            if Nat.eqb (length userSessions') 0 then
              with_userRepoSessions
                (map_delete userRepoKey (userRepoSessions w3)) w3
            else
              with_userRepoSessions
                (map_set userRepoKey userSessions' (userRepoSessions w3)) w3
        end in
      (true, with_sessions (map_delete sessionId (sessions w4)) w4)
  end.

Definition terminateSession (sessionId : jsstring) (w : World)
  : bool * World :=
  cleanupSession sessionId w.

(** [cleanupExpiredSessions]: the loop visits the sessions that are in the
    map when it gets to them. *)
Definition cleanupExpiredSessions (cfg : Config) (w : World) : World :=
  fold_left
    (fun w' kv =>
       match getEntry (fst kv) w' with
       | None => w'
       | Some (_, entry) =>
           match disconnectedAt entry with
           | Some d =>
               if Z.gtb (clock w - d) (ttl_ms cfg)
               then snd (cleanupSession (fst kv) w')
               else w'
           | None => w'
           end
       end)
    (sessions w) w.

Definition getUserSessions (email : jsstring) (w : World)
  : list ClaudeSession :=
  map session
    (filter (fun e => Js.eqb (userEmail (session e)) email)
       (session_entries w)).

(** *** What happens to a manager *)

Inductive event :=
| EvCreateSession (sessionId : jsstring) (spawn : SpawnOutcome)
    (email repo path : jsstring) (name : option jsstring)
    (cols rows : option Q)
| EvAttachClient (sessionId client : jsstring)
| EvDetachClient (sessionId clientId : jsstring)
| EvSendInput (sessionId data : jsstring)
| EvResize (sessionId : jsstring) (cols rows : Q)
| EvRestartSession (spawn : SpawnOutcome) (sessionId : jsstring)
| EvTerminateSession (sessionId : jsstring)
| EvRenameSession (sessionId newName : jsstring)
| EvPtyData (pid : nat) (data : jsstring)
| EvPtyExit (pid : nat) (code signal : Z)
| EvTimeout (t : nat)
| EvSweep
| EvTimePasses (ms : N).

(** A process emits data and exits only while it has not exited; a timer
    fires once, when due, unless cleared. *)
Definition apply_event (cfg : Config) (ev : event) (w : World) : World :=
  match ev with
  | EvCreateSession sessionId spawn email repo path name cols rows =>
      snd (createSession cfg sessionId spawn email repo path name cols rows w)
  | EvAttachClient sessionId client => snd (attachClient sessionId client w)
  | EvDetachClient sessionId clientId => detachClient cfg sessionId clientId w
  | EvSendInput sessionId data => snd (sendInput sessionId data w)
  | EvResize sessionId cols rows => snd (resize sessionId cols rows w)
  | EvRestartSession spawn sessionId =>
      snd (restartSession cfg spawn sessionId w)
  | EvTerminateSession sessionId => snd (terminateSession sessionId w)
  | EvRenameSession sessionId newName => snd (renameSession sessionId newName w)
  | EvPtyData pid data =>
      match nth_error (procs w) pid with
      | Some p => if pty_exited p then w else onData pid data w
      | None => w
      end
  | EvPtyExit pid code signal =>
      match nth_error (procs w) pid with
      | Some p =>
          if pty_exited p then w
          else onExit pid code signal (pty_mark_exited pid w)
      | None => w
      end
  | EvTimeout t =>
      match nth_error (timers w) t with
      | Some x =>
          if timer_pending x && Z.leb (timer_due x) (clock w) then
            snd (cleanupSession (timer_sessionId x)
                   (upd_timer t
                      (fun x => mkTimer (timer_sessionId x) (timer_due x)
                                  (timer_cleared x) true) w))
          else w
      | None => w
      end
  | EvSweep => cleanupExpiredSessions cfg w
  | EvTimePasses ms => with_clock (clock w + Z.of_N ms) w
  end.

Definition run (cfg : Config) (evs : list event) (w : World) : World :=
  fold_left (fun w' ev => apply_event cfg ev w') evs w.

End SessionManager.

(** ** routes/api.ts: [POST /api/sessions] *)

Module ApiRoutes.
Import SessionManager.

Inductive HttpReply :=
| ReplyOk (session : ClaudeSession)
| ReplyError (status : Z) (code message : jsstring)
| ReplyThrown (message : jsstring).

(** The handler, after the body is parsed and the repository resolved to
    [path]. *)
Definition post_api_sessions (cfg : Config) (sessionId : jsstring)
    (spawn : SpawnOutcome) (email repo path : jsstring)
    (name : option jsstring) (w : World) : HttpReply * World :=
  match createSession cfg sessionId spawn email repo path name None None w with
  | (Ok session, w') => (ReplyOk session, w')
  | (Throw message, w') =>
      if includes (js "Maximum sessions per user reached") message then
        (ReplyError 429 (js "MAX_SESSIONS_PER_USER") message, w')
      else if includes (js "Server at maximum capacity") message then
        (ReplyError 503 (js "SERVER_MAX_CAPACITY") message, w')
      else (ReplyThrown message, w')
  end.

End ApiRoutes.

(** ** Vocabulary of the properties *)

Module Invariants.
Import SessionManager.

(** The owner of the entry a reference denotes. *)
Definition email_of_ref (w : World) (r : nat) : option jsstring :=
  option_map (fun e => userEmail (session e)) (nth_error (heap w) r).

(** Every reference in the [sessions] map denotes an entry. *)
Definition refs_valid (w : World) : Prop :=
  Forall (fun kv => snd kv < length (heap w)) (sessions w).

(** [w'] has no session that [w] has not, and every entry has the owner it
    has in [w]. *)
Definition no_new_sessions (w w' : World) : Prop :=
  (exists keep, sessions w' = filter keep (sessions w))
  /\ length (heap w') = length (heap w)
  /\ forall r, email_of_ref w' r = email_of_ref w r.

Definition keeps_owner (f : SessionEntry -> SessionEntry) : Prop :=
  forall e, userEmail (session (f e)) = userEmail (session e).

(** The number of entries owned by [email] among the references [refs]. *)
Definition owned (email : jsstring) (w : World) (refs : list nat) : nat :=
  length (filter (fun r => match email_of_ref w r with
                           | Some u => Js.eqb u email
                           | None => false
                           end) refs).

(** The sessions of the [sessions] map whose entry has the owner [email]. *)
Definition sessions_owned_by (email : jsstring) (w : World) : nat :=
  owned email w (map snd (sessions w)).

(** [n <= x], for a count [n]. *)
Definition count_leb (n : nat) (x : number) : bool :=
  match x with
  | Finite q => Qle_bool (inject_Z (Z.of_nat n)) q
  | PlusInfinity => true
  | MinusInfinity => false
  end.

(** A limit that is a count: 0, 1, 2 and so on. *)
Definition is_count (x : number) : bool :=
  match x with
  | Finite q =>
      Qeq_bool q (inject_Z (Qnum q / Zpos (Qden q)))
      && Qle_bool (inject_Z 0) q
  | _ => false
  end.

(** A count that a limit has let grow one by one: it is zero, or the count
    before the last addition had not reached the limit. *)
Definition admitted (cap : number) (n : nat) : Prop :=
  n = 0 \/ count_geb (pred n) cap = false.

(** What the two limits make of the sessions of one user, counted by the
    owners of the entries in [sessions], and of [sessions.size]. *)
Definition within_caps (cfg : Config) (w : World) : Prop :=
  (forall email,
      admitted (MAX_SESSIONS_PER_USER cfg) (sessions_owned_by email w))
  /\ admitted (MAX_TOTAL_SESSIONS cfg) (length (sessions w)).

End Invariants.

(** ** routes/ws.ts: the terminal WebSocket *)

Module WsRoutes.
Import SessionManager.

(** What [JSON.parse] returns. *)
#[local] Unset Elimination Schemes.
Inductive json :=
| JNull
| JBool (b : bool)
| JNumber (q : Q)
| JString (s : jsstring)
| JArray (items : list json)
| JObject (fields : list (jsstring * json)).
#[local] Set Elimination Schemes.

Inductive ClientMessage :=
| CAttach (sessionId : option jsstring) (cols rows : option Q)
    (branch : option jsstring)
| CInput (data : jsstring)
| CResize (cols rows : Q)
| CPing
| CRestart.

(** [z.number().min(lo).max(hi)] *)
Definition z_number (lo hi : Q) (v : json) : option Q :=
  match v with
  | JNumber q => if Qle_bool lo q && Qle_bool q hi then Some q else None
  | _ => None
  end.

(** [z.string().min(lo).max(hi)] *)
Definition z_string (lo hi : N) (v : json) : option jsstring :=
  match v with
  | JString s =>
      if N.leb lo (N.of_nat (length s)) && N.leb (N.of_nat (length s)) hi
      then Some s else None
  | _ => None
  end.

(** [z.string()] *)
Definition z_any_string (v : json) : option jsstring :=
  match v with
  | JString s => Some s
  | _ => None
  end.

(** [schema.optional()] on a field: an absent key is accepted. *)
Definition z_optional {A} (schema : json -> option A) (field : option json)
  : option (option A) :=
  match field with
  | None => Some None
  | Some v =>
      match schema v with
      | Some a => Some (Some a)
      | None => None
      end
  end.

Definition z_required {A} (schema : json -> option A) (field : option json)
  : option A :=
  match field with
  | None => None
  | Some v => schema v
  end.

(** [clientMessageSchema.parse]: [None] when it throws. *)
Definition clientMessageSchema_parse (v : json) : option ClientMessage :=
  match v with
  | JObject fields =>
      match map_get (js "type") fields with
      | Some (JString t) =>
          if Js.eqb t (js "attach") then
            match z_optional z_any_string (map_get (js "sessionId") fields),
                  z_optional (z_number (1 # 1) (500 # 1))
                    (map_get (js "cols") fields),
                  z_optional (z_number (1 # 1) (200 # 1))
                    (map_get (js "rows") fields),
                  z_optional (z_string 1 100) (map_get (js "branch") fields)
            with
            | Some sessionId, Some cols, Some rows, Some branch =>
                Some (CAttach sessionId cols rows branch)
            | _, _, _, _ => None
            end
          else if Js.eqb t (js "input") then
            match z_required (z_string 0 65536) (map_get (js "data") fields) with
            | Some data => Some (CInput data)
            | None => None
            end
          else if Js.eqb t (js "resize") then
            match z_required (z_number (1 # 1) (500 # 1))
                    (map_get (js "cols") fields),
                  z_required (z_number (1 # 1) (200 # 1))
                    (map_get (js "rows") fields)
            with
            | Some cols, Some rows => Some (CResize cols rows)
            | _, _ => None
            end
          else if Js.eqb t (js "ping") then Some CPing
          else if Js.eqb t (js "restart") then Some CRestart
          else None
      | _ => None
      end
  | _ => None
  end.

(** [clientMessageSchema.parse(JSON.parse(text))]; a frame is given by what
    [JSON.parse] makes of its text, [None] when that throws. *)
Definition parse_frame (frame : option json) : option ClientMessage :=
  match frame with
  | None => None
  | Some v => clientMessageSchema_parse v
  end.

(** The variables of one connection. *)
Record Conn := mkConn {
  clientId : jsstring;
  user_email : jsstring;
  conn_repoId : jsstring;
  conn_repoPath : jsstring;
  currentSessionId : option jsstring;
  isAlive : bool
}.

Definition set_currentSessionId (s : option jsstring) (c : Conn) : Conn :=
  mkConn (clientId c) (user_email c) (conn_repoId c) (conn_repoPath c) s
    (isAlive c).

Definition set_isAlive (b : bool) (c : Conn) : Conn :=
  mkConn (clientId c) (user_email c) (conn_repoId c) (conn_repoPath c)
    (currentSessionId c) b.

(** What a handler does to its socket. *)
Inductive SocketAction :=
| Send (message : ServerMessage)
| Close (code : Z) (reason : jsstring).

Definition or_message (message fallback : jsstring) : jsstring :=
  match message with
  | [] => fallback
  | _ => message
  end.

(** The [socket.on('message')] handler.  [sessionId] and [spawn] are what
    [generateSessionId] and [pty.spawn] do if the handler gets to them.
    The calls of the audit and analytics loggers, and the buffer of typed
    input that only feeds them, are left out. *)
Definition on_message (cfg : Config) (sessionId : jsstring)
    (spawn : SpawnOutcome) (frame : option json) (c0 : Conn) (w : World)
  : list SocketAction * Conn * World :=
  let c := set_isAlive true c0 in
  match parse_frame frame with
  | None => ([Send (MsgError (js "Invalid message format"))], c, w)
  | Some (CAttach requested cols rows branch) =>
      let found :=
        match requested with
        | Some (u :: rest) =>
            match getSession (u :: rest) w with
            | None => inl (js "Session not found")
            | Some existingSession =>
                if negb (Js.eqb (userEmail existingSession) (user_email c))
                   || negb (Js.eqb (repoId existingSession) (conn_repoId c))
                then inl (js "Session access denied")
                else inr (Ok existingSession, w)
            end
        | _ =>
            inr (createSession cfg sessionId spawn (user_email c)
                   (conn_repoId c) (conn_repoPath c) None cols rows w)
        end in
      match found with
      | inl message => ([Send (MsgError message)], c, w)
      | inr (Throw message, w1) =>
          ([Send (MsgError (or_message message (js "Failed to create session")))],
           c, w1)
      | inr (Ok session, w1) =>
          let c1 := set_currentSessionId (Some (session_id session)) c in
          match attachClient (session_id session) (clientId c) w1 with
          | (Some (attached, replay), w2) =>
              (Send (MsgStatus (state attached) None
                       (Some (session_id attached))
                       (Some (session_name attached)))
               :: match replay with
                  | [] => []
                  | _ => [Send (MsgReplay replay)]
                  end,
               c1, w2)
          | (None, w2) =>
              ([Send (MsgError (js "Failed to attach to session"))], c1, w2)
          end
      end
  | Some (CInput data) =>
      match currentSessionId c with
      | None => ([Send (MsgError (js "Not attached to session"))], c, w)
      | Some current =>
          match sendInput current data w with
          | (true, w1) => ([], c, w1)
          | (false, w1) => ([Send (MsgError (js "Session not running"))], c, w1)
          end
      end
  | Some (CResize cols rows) =>
      match currentSessionId c with
      | None => ([], c, w)
      | Some current => ([], c, snd (resize current cols rows w))
      end
  | Some CPing => ([Send MsgPong], c, w)
  | Some CRestart =>
      match currentSessionId c with
      | None => ([Send (MsgError (js "Not attached to session"))], c, w)
      | Some current =>
          match restartSession cfg spawn current w with
          | (Ok (Some session), w1) =>
              ([Send (MsgStatus (state session)
                        (Some (js "Session restarted")) None None)], c, w1)
          | (Ok None, w1) =>
              ([Send (MsgError (js "Failed to restart session"))], c, w1)
          | (Throw message, w1) =>
              ([Send (MsgError
                        (or_message message (js "Failed to restart session")))],
               c, w1)
          end
      end
  end.

(** The [socket.on('close')] handler. *)
Definition on_close (cfg : Config) (c : Conn) (w : World) : World :=
  match currentSessionId c with
  | Some current => detachClient cfg current (clientId c) w
  | None => w
  end.

(** One tick of the keep-alive interval. *)
Definition on_heartbeat (c : Conn) : list SocketAction * Conn :=
  if isAlive c then ([Send MsgPong], set_isAlive false c)
  else ([Close 4002 (js "Ping timeout")], c).

End WsRoutes.

(** ** Worked situations *)

Module Scenario.
Import SessionManager WsRoutes.

Definition user : jsstring := js "u@x".
Definition repo : jsstring := js "r/demo".
Definition repo_path : jsstring := js "/r/demo".

(** One session, created for an 80 by 24 terminal. *)
Definition created : result ClaudeSession * World :=
  createSession default_config (js "s1") SpawnReturns user repo repo_path
    None (Some (80 # 1)%Q) (Some (24 # 1)%Q) empty_world.

Definition w_created : World := snd created.

(** The client "c1" attaches to it. *)
Definition w_attached : World :=
  snd (attachClient (js "s1") (js "c1") w_created).

(** Its process and its entry. *)
Definition demo_proc : PtyProc :=
  nth 0 (procs w_attached)
    (mkProc [] [] (0 # 1)%Q (0 # 1)%Q [] 0 [] false false).

Definition demo_entry : SessionEntry :=
  nth 0 (heap w_attached)
    (mkEntry (mkSession [] [] [] [] [] exited 0 0 None) None [] [] None None).

(** A configuration whose limit of sessions per user is 2.5. *)
Definition fractional_config : Config :=
  {| MAX_SESSIONS_PER_USER := Finite (5 # 2);
     MAX_TOTAL_SESSIONS := Finite (inject_Z 20);
     DISCONNECTED_TTL_MINUTES := 20;
     MAX_FILE_SIZE_BYTES := 2000000;
     CLAUDE_PATH := js "claude" |}.

(** Four sessions asked for by one user, one after the other. *)
Definition four_requests : list event :=
  [EvCreateSession (js "s1") SpawnReturns user repo repo_path None None None;
   EvCreateSession (js "s2") SpawnReturns user repo repo_path None None None;
   EvCreateSession (js "s3") SpawnReturns user repo repo_path None None None;
   EvCreateSession (js "s4") SpawnReturns user repo repo_path None None None].

(** A connection that has not attached. *)
Definition fresh_conn : Conn :=
  {| clientId := js "c1"; user_email := user; conn_repoId := repo;
     conn_repoPath := repo_path; currentSessionId := None; isAlive := true |}.

Definition resize_frame : option json :=
  Some (JObject [(js "type", JString (js "resize"));
                 (js "cols", JNumber (80 # 1)%Q);
                 (js "rows", JNumber (24 # 1)%Q)]).

End Scenario.

(** ** Node's [path] module, POSIX flavour *)

Module NodePath.

Definition is_slash (c : N) : bool := N.eqb c SLASH.

Fixpoint drop_while (f : N -> bool) (s : jsstring) : jsstring :=
  match s with
  | [] => []
  | c :: s' => if f c then drop_while f s' else s
  end.

Fixpoint take_while (f : N -> bool) (s : jsstring) : jsstring :=
  match s with
  | [] => []
  | c :: s' => if f c then c :: take_while f s' else []
  end.

(** [path.isAbsolute] *)
Definition isAbsolute (path : jsstring) : bool :=
  match path with
  | c :: _ => is_slash c
  | [] => false
  end.

(** One segment of [normalizeString]; [res] is the result so far, last
    segment first. *)
Definition normalize_step (allowAboveRoot : bool) (res : list jsstring)
    (segment : jsstring) : list jsstring :=
  if Js.eqb segment [] || Js.eqb segment (js ".") then res
  else if Js.eqb segment (js "..") then
    match res with
    | top :: rest =>
        if Js.eqb top (js "..")
        then (if allowAboveRoot then segment :: res else res)
        else rest
    | [] => if allowAboveRoot then [segment] else []
    end
  else segment :: res.

Definition normalize_segments (allowAboveRoot : bool) (path : jsstring)
  : list jsstring :=
  rev (fold_left (normalize_step allowAboveRoot) (split SLASH path) []).

Definition normalizeString (path : jsstring) (allowAboveRoot : bool)
  : jsstring :=
  Js.join [SLASH] (normalize_segments allowAboveRoot path).

(** [path.normalize] *)
Definition normalize (path : jsstring) : jsstring :=
  match path with
  | [] => js "."
  | _ =>
      let absolute := isAbsolute path in
      let trailingSeparator := endsWith [SLASH] path in
      match normalizeString path (negb absolute) with
      | [] =>
          if absolute then js "/"
          else if trailingSeparator then js "./" else js "."
      | p =>
          (if absolute then [SLASH] else [])
          ++ p ++ (if trailingSeparator then [SLASH] else [])
      end
  end.

(** [path.join(a, b)] *)
Definition join (a b : jsstring) : jsstring :=
  match a, b with
  | [], [] => js "."
  | [], _ => normalize b
  | _, [] => normalize a
  | _, _ => normalize (a ++ [SLASH] ++ b)
  end.

(** [path.basename(path)]: the last segment, trailing separators apart. *)
Definition basename (path : jsstring) : jsstring :=
  rev (take_while (fun c => negb (is_slash c))
         (drop_while is_slash (rev path))).

(** [path.dirname(path)].  The scan runs from the end down to index 1. *)
Definition dirname (path : jsstring) : jsstring :=
  match path with
  | [] => js "."
  | c :: rest =>
      match drop_while (fun c => negb (is_slash c))
              (drop_while is_slash (rev rest)) with
      | [] => if is_slash c then js "/" else js "."
      | _ :: before =>
          match before with
          | [] => if is_slash c then js "//" else [c]
          | _ => c :: rev before
          end
      end
  end.

(** [path.extname(path)]: from the last dot of the basename, unless that
    dot is its first character or the basename is "..". *)
Definition extname (path : jsstring) : jsstring :=
  let b := basename path in
  let is_dot := fun c => N.eqb c DOT in
  match drop_while (fun c => negb (is_dot c)) (rev b) with
  | [] => []
  | _ :: before =>
      match before with
      | [] => []
      | _ =>
          if Js.eqb b (js "..") then []
          else DOT :: rev (take_while (fun c => negb (is_dot c)) (rev b))
      end
  end.

End NodePath.

(** ** UTF-8, as [Buffer] and [fs] encode and decode strings *)

Module Utf8.

Definition REPLACEMENT : N := 65533.

Definition in_range (lo hi c : N) : bool := N.leb lo c && N.leb c hi.

Definition is_high_surrogate (c : N) : bool := in_range 55296 56319 c.
Definition is_low_surrogate (c : N) : bool := in_range 56320 57343 c.

(** A string every surrogate of which is in a pair, made of 16-bit units:
    what [isWellFormed] tests. *)
Fixpoint well_formed (s : jsstring) : bool :=
  match s with
  | [] => true
  | c :: s' =>
      if is_high_surrogate c then
        match s' with
        | d :: s'' => is_low_surrogate d && well_formed s''
        | [] => false
        end
      else negb (is_low_surrogate c) && N.ltb c 65536 && well_formed s'
  end.

(** The bytes of a string; a surrogate without its pair becomes U+FFFD. *)
Fixpoint encode (s : jsstring) : list N :=
  match s with
  | [] => []
  | c :: s' =>
      if N.ltb c 128 then c :: encode s'
      else if N.ltb c 2048 then
        (192 + c / 64)%N :: (128 + c mod 64)%N :: encode s'
      else if is_high_surrogate c then
        match s' with
        | d :: s'' =>
            if is_low_surrogate d then
              let cp := (65536 + (c - 55296) * 1024 + (d - 56320))%N in
              (240 + cp / 262144)%N :: (128 + (cp / 4096) mod 64)%N
              :: (128 + (cp / 64) mod 64)%N :: (128 + cp mod 64)%N
              :: encode s''
            else 239%N :: 191%N :: 189%N :: encode s'
        | [] => [239; 191; 189]%N
        end
      else if is_low_surrogate c then 239%N :: 191%N :: 189%N :: encode s'
      else
        (224 + c / 4096)%N :: (128 + (c / 64) mod 64)%N
        :: (128 + c mod 64)%N :: encode s'
  end.

(** [Buffer.byteLength(s, 'utf-8')] *)
Definition byteLength (s : jsstring) : nat := length (encode s).

Definition is_continuation (b : N) : bool := in_range 128 191 b.

(** The code units of a code point. *)
Definition units_of_code_point (cp : N) : jsstring :=
  if N.ltb cp 65536 then [cp]
  else [(55296 + (cp - 65536) / 1024)%N; (56320 + (cp - 65536) mod 1024)%N].

(** The string of a byte sequence; every maximal ill-formed part becomes
    one U+FFFD, and the byte that ended it is read again. *)
Fixpoint decode (bs : list N) : jsstring :=
  match bs with
  | [] => []
  | b :: r =>
      if N.ltb b 128 then b :: decode r
      else if in_range 194 223 b then
        match r with
        | b1 :: r1 =>
            if is_continuation b1
            then ((b - 192) * 64 + (b1 - 128))%N :: decode r1
            else REPLACEMENT :: decode r
        | [] => [REPLACEMENT]
        end
      else if in_range 224 239 b then
        match r with
        | b1 :: r1 =>
            if in_range (if N.eqb b 224 then 160 else 128)
                 (if N.eqb b 237 then 159 else 191) b1
            then
              match r1 with
              | b2 :: r2 =>
                  if is_continuation b2
                  then ((b - 224) * 4096 + (b1 - 128) * 64 + (b2 - 128))%N
                       :: decode r2
                  else REPLACEMENT :: decode r1
              | [] => [REPLACEMENT]
              end
            else REPLACEMENT :: decode r
        | [] => [REPLACEMENT]
        end
      else if in_range 240 244 b then
        match r with
        | b1 :: r1 =>
            if in_range (if N.eqb b 240 then 144 else 128)
                 (if N.eqb b 244 then 143 else 191) b1
            then
              match r1 with
              | b2 :: r2 =>
                  if is_continuation b2 then
                    match r2 with
                    | b3 :: r3 =>
                        if is_continuation b3
                        then units_of_code_point
                               ((b - 240) * 262144 + (b1 - 128) * 4096
                                + (b2 - 128) * 64 + (b3 - 128))%N
                             ++ decode r3
                        else REPLACEMENT :: decode r2
                    | [] => [REPLACEMENT]
                    end
                  else REPLACEMENT :: decode r1
              | [] => [REPLACEMENT]
              end
            else REPLACEMENT :: decode r
        | [] => [REPLACEMENT]
        end
      else REPLACEMENT :: decode r
  end.

End Utf8.

(** ** Node's [fs] module over a tree of files, directories and symlinks *)

Module NodeFs.

Inductive node :=
| File (content : list N)
| Dir
| Symlink (target : jsstring).

(** A canonical path: the names from the root down. *)
Definition path := list jsstring.

Fixpoint path_eqb (a b : path) : bool :=
  match a, b with
  | [], [] => true
  | x :: a', y :: b' => Js.eqb x y && path_eqb a' b'
  | _, _ => false
  end.

(** The tree: what is at each path.  The root is a directory. *)
Definition fs := list (path * node).

Fixpoint lookup (F : fs) (p : path) : option node :=
  match F with
  | [] => None
  | (q, n) :: F' => if path_eqb p q then Some n else lookup F' p
  end.

Fixpoint set_node (F : fs) (p : path) (n : node) : fs :=
  match F with
  | [] => [(p, n)]
  | (q, m) :: F' =>
      if path_eqb p q then (q, n) :: F' else (q, m) :: set_node F' p n
  end.

Inductive errno := ENOENT | ENOTDIR | ELOOP | EISDIR | EEXIST.

Definition errno_name (e : errno) : jsstring :=
  match e with
  | ENOENT => js "ENOENT"
  | ENOTDIR => js "ENOTDIR"
  | ELOOP => js "ELOOP"
  | EISDIR => js "EISDIR"
  | EEXIST => js "EEXIST"
  end.

(** The names of a path string; a trailing separator asks for a directory,
    as a final "." does. *)
Definition components (p : jsstring) : list jsstring :=
  let names := filter (fun s => negb (Js.eqb s [])) (split SLASH p) in
  match names with
  | [] => []
  | _ => names ++ (if endsWith [SLASH] p then [js "."] else [])
  end.

(** Where a walk ends: at a file or directory, at a name that is missing
    in an existing directory (with the names still to walk), or in an
    error. *)
Inductive walked :=
| Found (p : path) (n : node)
| Missing (parent : path) (name : jsstring) (rest : list jsstring)
| Failed (e : errno).

(** Path resolution from the directory [cur], following every symbolic
    link, at most [budget] of them. *)
Fixpoint walk (budget : nat) (F : fs) (cur : path) (names : list jsstring)
  {struct budget} : walked :=
  (fix go (cur : path) (names : list jsstring) {struct names} : walked :=
     match names with
     | [] => Found cur Dir
     | c :: rest =>
         if Js.eqb c (js ".") then go cur rest
         else if Js.eqb c (js "..") then go (removelast cur) rest
         else
           match lookup F (cur ++ [c]) with
           | None => Missing cur c rest
           | Some Dir => go (cur ++ [c]) rest
           | Some (File content) =>
               match rest with
               | [] => Found (cur ++ [c]) (File content)
               | _ => Failed ENOTDIR
               end
           | Some (Symlink target) =>
               match budget with
               | O => Failed ELOOP
               | S budget' =>
                   walk budget' F
                     (if NodePath.isAbsolute target then [] else cur)
                     (components target ++ rest)
               end
           end
     end) cur names.

Definition MAXSYMLINKS : nat := 40.

(** Resolution of a path string; a relative one starts at the root, the
    working directory of the process. *)
Definition resolve (F : fs) (p : jsstring) : walked :=
  walk MAXSYMLINKS F [] (components p).

Definition render (p : path) : jsstring :=
  SLASH :: Js.join [SLASH] p.

(** [fs.realpath] *)
Definition realpath (F : fs) (p : jsstring) : jsstring + errno :=
  match resolve F p with
  | Found q _ => inl (render q)
  | Missing _ _ _ => inr ENOENT
  | Failed e => inr e
  end.

Record Stats := mkStats {
  isFile : bool;
  isDirectory : bool;
  size : Z
}.

Definition DIRECTORY_SIZE : Z := 4096.

(** [fs.stat] *)
Definition stat (F : fs) (p : jsstring) : Stats + errno :=
  match resolve F p with
  | Found _ (File content) =>
      inl (mkStats true false (Z.of_nat (length content)))
  | Found _ _ => inl (mkStats false true DIRECTORY_SIZE)
  | Missing _ _ _ => inr ENOENT
  | Failed e => inr e
  end.

(** [fs.readFile(p, 'utf-8')] *)
Definition readFile (F : fs) (p : jsstring) : jsstring + errno :=
  match resolve F p with
  | Found _ (File content) => inl (Utf8.decode content)
  | Found _ _ => inr EISDIR
  | Missing _ _ _ => inr ENOENT
  | Failed e => inr e
  end.

(** [fs.writeFile(p, data, 'utf-8')]: the file is made if only its name is
    missing. *)
Definition writeFile (F : fs) (p : jsstring) (data : jsstring) : fs + errno :=
  match resolve F p with
  | Found q (File _) => inl (set_node F q (File (Utf8.encode data)))
  | Found _ _ => inr EISDIR
  | Missing parent name [] =>
      inl (set_node F (parent ++ [name]) (File (Utf8.encode data)))
  | Missing _ _ _ => inr ENOENT
  | Failed e => inr e
  end.

(** The directories [mkdir] makes below an existing one. *)
Fixpoint make_dirs (F : fs) (cur : path) (names : list jsstring) : fs :=
  match names with
  | [] => F
  | c :: rest =>
      if Js.eqb c (js ".") then make_dirs F cur rest
      else if Js.eqb c (js "..") then make_dirs F (removelast cur) rest
      else make_dirs (set_node F (cur ++ [c]) Dir) (cur ++ [c]) rest
  end.

(** [fs.mkdir(p, { recursive: true })] *)
Definition mkdir_recursive (F : fs) (p : jsstring) : fs + errno :=
  match resolve F p with
  | Found _ (File _) => inr EEXIST
  | Found _ _ => inl F
  | Missing parent name rest => inl (make_dirs F parent (name :: rest))
  | Failed e => inr e
  end.

End NodeFs.

(** ** utils/path-safety.ts and services/file.ts *)

Module FileService.
Import NodeFs.

Inductive error :=
| PathSecurityError (message : jsstring)
| SystemError (code : errno)
| Error (message : jsstring).

Inductive outcome (A : Type) : Type :=
| Return (a : A)
| Raise (e : error).
Arguments Return {A} a.
Arguments Raise {A} e.

(** [validateRelativePath]: [None] when it returns. *)
Definition validateRelativePath (relativePath : jsstring) : option error :=
  match relativePath with
  | [] => Some (PathSecurityError (js "Path cannot be empty"))
  | _ =>
      if NodePath.isAbsolute relativePath then
        Some (PathSecurityError (js "Absolute paths are not allowed"))
      else
        let normalized := NodePath.normalize relativePath in
        if startsWith (js "..") normalized
           || includes (js "/..") normalized
           || includes (BACKSLASH :: js "..") normalized
        then Some (PathSecurityError (js "Path traversal (..) is not allowed"))
        else if startsWith (js "/") normalized
                || startsWith [BACKSLASH] normalized
        then Some (PathSecurityError (js "Path cannot start with a separator"))
        else None
  end.

(** [resolveFilePath] *)
Definition resolveFilePath (F : fs) (repoPath relativePath : jsstring)
  : outcome jsstring :=
  match validateRelativePath relativePath with
  | Some e => Raise e
  | None =>
      let candidatePath := NodePath.join repoPath relativePath in
      let resolved :=
        match realpath F candidatePath with
        | inl realPath => Return realPath
        | inr ENOENT =>
            let parentDir := NodePath.dirname candidatePath in
            match realpath F parentDir with
            | inl realParent =>
                Return (NodePath.join realParent
                          (NodePath.basename candidatePath))
            | inr _ =>
                Raise (PathSecurityError
                         (js "Path does not exist: " ++ relativePath))
            end
        | inr code => Raise (SystemError code)
        end in
      match resolved with
      | Raise e => Raise e
      | Return realPath =>
          let normalizedRepo := NodePath.normalize repoPath in
          let normalizedReal := NodePath.normalize realPath in
          if negb (startsWith normalizedRepo normalizedReal) then
            Raise (PathSecurityError
                     (js "Path escapes repository boundary (symlink detected)"))
          else Return realPath
      end
  end.

Definition BINARY_EXTENSIONS : list jsstring :=
  [js ".png"; js ".jpg"; js ".jpeg"; js ".gif"; js ".ico"; js ".webp";
   js ".bmp"; js ".tiff";
   js ".mp3"; js ".mp4"; js ".wav"; js ".ogg"; js ".webm"; js ".avi";
   js ".mov";
   js ".zip"; js ".tar"; js ".gz"; js ".rar"; js ".7z";
   js ".pdf"; js ".doc"; js ".docx"; js ".xls"; js ".xlsx"; js ".ppt";
   js ".pptx";
   js ".exe"; js ".dll"; js ".so"; js ".dylib";
   js ".woff"; js ".woff2"; js ".ttf"; js ".eot"; js ".otf";
   js ".sqlite"; js ".db"].

(** [toLowerCase], on what can become a member of [BINARY_EXTENSIONS]: the
    letters A to Z, and the Kelvin sign, the one other character whose
    lower case is an ASCII letter; lower-casing any other character gives
    no ASCII character. *)
Definition toLowerCase (s : jsstring) : jsstring :=
  map (fun c => if N.leb 65 c && N.leb c 90 then (c + 32)%N
                else if N.eqb c 8490 then 107%N else c) s.

Definition is_binary (relativePath : jsstring) : bool :=
  existsb (Js.eqb (toLowerCase (NodePath.extname relativePath)))
    BINARY_EXTENSIONS.

Record FileResponse := mkFileResponse {
  response_path : jsstring;
  content : jsstring
}.

Record FileWriteResponse := mkFileWriteResponse {
  ok : bool;
  bytesWritten : Z
}.

(** [readFile] of the service. *)
Definition readFile (cfg : Config) (F : fs) (repoPath relativePath : jsstring)
  : outcome FileResponse :=
  match resolveFilePath F repoPath relativePath with
  | Raise e => Raise e
  | Return filePath =>
      if is_binary relativePath then
        Raise (PathSecurityError
                 (js "Binary files are not supported: " ++ relativePath))
      else
        match stat F filePath with
        | inr ENOENT =>
            Raise (PathSecurityError (js "File not found: " ++ relativePath))
        | inr code => Raise (SystemError code)
        | inl stats =>
            if Z.gtb (size stats) (MAX_FILE_SIZE_BYTES cfg) then
              Raise (PathSecurityError
                       (js "File too large: " ++ show_Z (size stats)
                        ++ js " bytes (max: "
                        ++ show_Z (MAX_FILE_SIZE_BYTES cfg) ++ js ")"))
            else if negb (isFile stats) then
              Raise (PathSecurityError (js "Not a file: " ++ relativePath))
            else
              match NodeFs.readFile F filePath with
              | inl text => Return (mkFileResponse relativePath text)
              | inr ENOENT =>
                  Raise (PathSecurityError
                           (js "File not found: " ++ relativePath))
              | inr code => Raise (SystemError code)
              end
        end
  end.

(** [writeFile] of the service, with the tree it leaves. *)
Definition writeFile (cfg : Config) (F : fs)
    (repoPath relativePath text : jsstring)
  : outcome FileWriteResponse * fs :=
  let contentBytes := Z.of_nat (Utf8.byteLength text) in
  if Z.gtb contentBytes (MAX_FILE_SIZE_BYTES cfg) then
    (Raise (PathSecurityError
              (js "Content too large: " ++ show_Z contentBytes
               ++ js " bytes (max: " ++ show_Z (MAX_FILE_SIZE_BYTES cfg)
               ++ js ")")), F)
  else
    match resolveFilePath F repoPath relativePath with
    | Raise e => (Raise e, F)
    | Return filePath =>
        let parentDir := NodePath.dirname filePath in
        match mkdir_recursive F parentDir with
        | inr code =>
            (Raise (Error (js "Failed to write file: " ++ errno_name code)), F)
        | inl F1 =>
            match NodeFs.writeFile F1 filePath text with
            | inr code =>
                (Raise (Error (js "Failed to write file: " ++ errno_name code)),
                 F1)
            | inl F2 => (Return (mkFileWriteResponse true contentBytes), F2)
            end
        end
    end.

End FileService.

(** ** Worked situations on a tree *)

Module FsScenario.
Import NodeFs FileService.

(** A repository at /r/demo. *)
Definition plain_tree : fs :=
  [([js "r"], Dir); ([js "r"; js "demo"], Dir)].

(** The repository /r/demo with a link to its sibling /r/demo-secret. *)
Definition sibling_tree : fs :=
  [([js "r"], Dir);
   ([js "r"; js "demo"], Dir);
   ([js "r"; js "demo-secret"], Dir);
   ([js "r"; js "demo-secret"; js "passwd"], File (Utf8.encode (js "secret")));
   ([js "r"; js "demo"; js "evil"], Symlink (js "/r/demo-secret"))].

(** The repository /r/demo with a link out of /r altogether. *)
Definition escape_tree : fs :=
  [([js "r"], Dir);
   ([js "r"; js "demo"], Dir);
   ([js "etc"], Dir);
   ([js "etc"; js "passwd"], File (Utf8.encode (js "root")));
   ([js "r"; js "demo"; js "evil"], Symlink (js "/etc"))].

(** The repository /r/demo with a link "out" to a file that does not
    exist, outside the repository. *)
Definition dangling_tree : fs :=
  [([js "r"], Dir);
   ([js "r"; js "demo"], Dir);
   ([js "tmp"], Dir);
   ([js "r"; js "demo"; js "out"], Symlink (js "/tmp/leak.txt"))].

Definition after_write (F : fs) (p text : jsstring) : fs :=
  snd (writeFile default_config F (js "/r/demo") p text).

End FsScenario.

(** ** Vocabulary of the properties of the tree *)

Module FsInvariants.
Import NodeFs.

(** A name as a path string can hold it: not empty, no separator. *)
Definition name_ok (x : jsstring) : bool :=
  negb (Js.eqb x []) && negb (existsb NodePath.is_slash x).

(** A name that can be the name of a file: also neither "." nor "..". *)
Definition proper_name (x : jsstring) : bool :=
  name_ok x && negb (Js.eqb x (js ".")) && negb (Js.eqb x (js "..")).

(** A canonical directory path: proper names, each step a directory. *)
Definition dir_chain (F : fs) (p : path) : Prop :=
  Forall (fun x => proper_name x = true) p
  /\ forall q x rest, p = q ++ x :: rest -> lookup F (q ++ [x]) = Some Dir.

(** What a walk that starts in a canonical directory ends in. *)
Definition walk_result_ok (F : fs) (r : walked) : Prop :=
  match r with
  | Found p Dir => dir_chain F p
  | Found p (File content) =>
      exists q x,
        p = q ++ [x] /\ dir_chain F q /\ proper_name x = true
        /\ lookup F p = Some (File content)
  | Found _ (Symlink _) => False
  | Missing parent name _ =>
      dir_chain F parent /\ proper_name name = true
      /\ lookup F (parent ++ [name]) = None
  | Failed e => e = ENOTDIR \/ e = ELOOP
  end.

End FsInvariants.


(** ** routes/api.ts: the routes that delete and rename a session *)

Module SessionRoutes.
Import SessionManager WsRoutes.




End SessionRoutes.

(** ** Vocabulary of the properties of sessions *)

Module SessionNotions.
Import SessionManager.


(** A session the sweep finds expired at the time [now]. *)
Definition expired (cfg : Config) (now : Z) (e : SessionEntry) : bool :=
  match disconnectedAt e with
  | Some d => Z.gtb (now - d) (ttl_ms cfg)
  | None => false
  end.

(** One turn of the loop of [cleanupExpiredSessions]. *)
Definition sweep_step (cfg : Config) (now : Z) (w' : World)
    (kv : jsstring * nat) : World :=
  match getEntry (fst kv) w' with
  | None => w'
  | Some (_, entry) =>
      match disconnectedAt entry with
      | Some d =>
          if Z.gtb (now - d) (ttl_ms cfg)
          then snd (cleanupSession (fst kv) w')
          else w'
      | None => w'
      end
  end.

(** The id a session carries is the key it is stored under. *)
Definition ids_agree (w : World) : Prop :=
  forall sessionId r e,
    getEntry sessionId w = Some (r, e) -> session_id (session e) = sessionId.

(** The key of [userRepoSessions] an entry belongs under. *)
Definition key_of (e : SessionEntry) : jsstring :=
  getUserRepoKey (userEmail (session e)) (repoId (session e)).

(** What the two indexes know of an entry. *)
Definition identity_of (e : SessionEntry) : jsstring * jsstring * jsstring :=
  (session_id (session e), userEmail (session e), repoId (session e)).

Definition keeps_identity (f : SessionEntry -> SessionEntry) : Prop :=
  forall e, identity_of (f e) = identity_of e.

(** [w'] has the indexes of [w], and every entry is the session it was. *)
Definition same_index (w w' : World) : Prop :=
  sessions w' = sessions w
  /\ userRepoSessions w' = userRepoSessions w
  /\ length (heap w') = length (heap w)
  /\ forall r, option_map identity_of (nth_error (heap w') r)
               = option_map identity_of (nth_error (heap w) r).

(** The two indexes agree: every id listed under a key is a session of
    that key, and every session carries its id and is listed under its
    key. *)
Definition index_consistent (w : World) : Prop :=
  Invariants.refs_valid w
  /\ (forall key ids sessionId,
         map_get key (userRepoSessions w) = Some ids -> In sessionId ids ->
         exists r e, getEntry sessionId w = Some (r, e) /\ key_of e = key)
  /\ (forall sessionId r e,
         getEntry sessionId w = Some (r, e) ->
         session_id (session e) = sessionId
         /\ exists ids, map_get (key_of e) (userRepoSessions w) = Some ids
                        /\ In sessionId ids).

(** Every session is created under an id that no session has then, as the
    ids [generateSessionId] makes are taken to be. *)
Fixpoint fresh_ids (cfg : Config) (evs : list event) (w : World) : Prop :=
  match evs with
  | [] => True
  | ev :: evs' =>
      match ev with
      | EvCreateSession sessionId _ _ _ _ _ _ _ =>
          map_get sessionId (sessions w) = None
      | _ => True
      end
      /\ fresh_ids cfg evs' (apply_event cfg ev w)
  end.

Definition COLON : N := 58.

(** The tab [listSessions] shows for an entry. *)
Definition tab_of (e : SessionEntry) : TabInfo :=
  mkTab (session_id (session e)) (session_name (session e))
    (state (session e)) (createdAt (session e)).

(** Two sessions of one user and repository, the first of them ended. *)
Definition tabs_history : list event :=
  [EvCreateSession (js "s1") SpawnReturns (js "u@x") (js "r/demo")
     (js "/r/demo") None None None;
   EvCreateSession (js "s2") SpawnReturns (js "u@x") (js "r/demo")
     (js "/r/demo") None None None;
   EvTerminateSession (js "s1")].

(** A frame that asks to attach to the session [sessionId]. *)
Definition attach_frame (sessionId : jsstring) : option WsRoutes.json :=
  Some (WsRoutes.JObject [(js "type", WsRoutes.JString (js "attach"));
                          (js "sessionId", WsRoutes.JString sessionId)]).

(** The connection of another user on the same repository. *)
Definition foreign_conn : WsRoutes.Conn :=
  {| WsRoutes.clientId := js "c9"; WsRoutes.user_email := js "eve@x";
     WsRoutes.conn_repoId := Scenario.repo;
     WsRoutes.conn_repoPath := Scenario.repo_path;
     WsRoutes.currentSessionId := None; WsRoutes.isAlive := true |}.

End SessionNotions.

(** ** utils/path-safety.ts: the other helpers *)

Module PathSafety.
Import NodePath FileService.

(** [resolveRepoPath], with [config.REPO_ROOTS] as [roots]. *)
Definition resolveRepoPath (roots : list jsstring) (repoId : jsstring)
  : outcome jsstring :=
  match validateRelativePath repoId with
  | Some e => Raise e
  | None =>
      (fix loop (roots : list jsstring) : outcome jsstring :=
         match roots with
         | [] =>
             Raise (PathSecurityError (js "Repository not found: " ++ repoId))
         | root :: rest =>
             let candidate := join root repoId in
             let normalizedCandidate := normalize candidate in
             let normalizedRoot := normalize root in
             if startsWith normalizedRoot normalizedCandidate
             then Return normalizedCandidate
             else loop rest
         end) roots
  end.

(** The class of [sanitizeFilename]: the characters < > : / \ | ? *, the
    double quote, and the control characters 0 to 31. *)
Definition dangerous_char (c : N) : bool :=
  existsb (N.eqb c) [60; 62; 58; 34; 47; 92; 124; 63; 42]%N || N.leb c 31.

(** [sanitizeFilename]: every character of that class is taken out. *)
Definition sanitizeFilename (filename : jsstring) : jsstring :=
  filter (fun c => negb (dangerous_char c)) filename.

End PathSafety.

(** ** services/worktree.ts: users, branches and worktree paths *)

Module WorktreeService.
Import Worktree NodePath.

Definition WORKTREES_DIR : jsstring := js ".worktrees".

Definition HYPHEN : N := 45.
Definition AT : N := 64.

(** The class [[a-z0-9]]. *)
Definition is_lower_alnum (c : N) : bool :=
  (N.leb 97 c && N.leb c 122) || (N.leb 48 c && N.leb c 57).

(** [s.replace(/[^a-z0-9]/g, '-')] *)
Definition replace_non_alnum (s : jsstring) : jsstring :=
  map (fun c => if is_lower_alnum c then c else HYPHEN) s.

(** [s.replace(/-+/g, '-')]: of a run of hyphens the last one stays. *)
Fixpoint collapse_hyphens (s : jsstring) : jsstring :=
  match s with
  | [] => []
  | c :: s' =>
      if N.eqb c HYPHEN then
        match s' with
        | d :: _ =>
            if N.eqb d HYPHEN then collapse_hyphens s'
            else c :: collapse_hyphens s'
        | [] => [c]
        end
      else c :: collapse_hyphens s'
  end.

(** [s.replace(/^-|-$/g, '')]: a hyphen at the start goes, and one at the
    end of what is left. *)
Definition strip_edge_hyphens (s : jsstring) : jsstring :=
  let s1 := match s with
            | c :: s' => if N.eqb c HYPHEN then s' else s
            | [] => []
            end in
  match rev s1 with
  | c :: r => if N.eqb c HYPHEN then rev r else s1
  | [] => []
  end.

(** Every code unit is an ASCII character; on such strings
    [FileService.toLowerCase] is [toLowerCase] exactly. *)
Definition is_ascii (s : jsstring) : bool :=
  forallb (fun c => N.ltb c 128) s.

(** [getShortUserId] *)
Definition getShortUserId (email : jsstring) : jsstring :=
  let lower := FileService.toLowerCase email in
  let localPart :=
    match split AT lower with
    | (c :: part) :: _ => c :: part
    | _ => lower
    end in
  strip_edge_hyphens (collapse_hyphens (replace_non_alnum localPart)).

(** [createUserBranchName] *)
Definition createUserBranchName (userEmail baseBranch : jsstring)
  : jsstring :=
  js "logpose/" ++ getShortUserId userEmail ++ js "/" ++ baseBranch.

(** [path.join(...paths)]: the arguments that are not empty, joined by
    separators and normalized. *)
Definition join_all (paths : list jsstring) : jsstring :=
  match filter (fun p => negb (Js.eqb p [])) paths with
  | [] => js "."
  | parts => normalize (Js.join [SLASH] parts)
  end.

(** [getWorktreePath] *)
Definition getWorktreePath (repoPath userEmail branch : jsstring)
  : jsstring :=
  join_all [repoPath; WORKTREES_DIR; getShortUserId userEmail; branch].

(** [getUserWorktreesBasePath] *)
Definition getUserWorktreesBasePath (repoPath userEmail : jsstring)
  : jsstring :=
  join_all [repoPath; WORKTREES_DIR; getShortUserId userEmail].

(** [worktreeExists] *)
Definition worktreeExists (F : NodeFs.fs) (repoPath userEmail branch : jsstring)
  : bool :=
  match NodeFs.stat F (getWorktreePath repoPath userEmail branch) with
  | inl stats => NodeFs.isDirectory stats
  | inr _ => false
  end.

(** [array.indexOf(x)], [None] for -1. *)
Fixpoint indexOf (x : jsstring) (l : list jsstring) : option nat :=
  match l with
  | [] => None
  | y :: l' =>
      if Js.eqb y x then Some 0
      else match indexOf x l' with
           | Some n => Some (S n)
           | None => None
           end
  end.

(** The repository path [cleanupWorktree] computes from a worktree path
    and runs git in; [None] when it runs no git command. *)
Definition cleanupWorktree_repoPath (worktreePath : jsstring)
  : option jsstring :=
  let pathParts := split SLASH worktreePath in
  match indexOf WORKTREES_DIR pathParts with
  | Some (S n) => Some (join_all (firstn (S n) pathParts))
  | _ => None
  end.

End WorktreeService.

(** ** Vocabulary of the properties of worktrees *)

Module WorktreeNotions.
Import WorktreeService.

(** The shape of a short user id: lower-case letters, digits and single
    hyphens, with no hyphen at either end. *)
Definition id_shaped (s : jsstring) : Prop :=
  Forall (fun c => is_lower_alnum c = true \/ c = HYPHEN) s
  /\ includes (js "--") s = false
  /\ startsWith (js "-") s = false
  /\ endsWith (js "-") s = false.

End WorktreeNotions.

(** ** More of Node's [fs]: removing a file *)

Module NodeFsUnlink.
Import NodeFs.

Definition remove_node (F : fs) (p : path) : fs :=
  filter (fun qn => negb (path_eqb p (fst qn))) F.

(** [fs.unlink]: the names before the last are resolved, the last one is
    not followed; a directory is not removed. *)
Definition unlink (F : fs) (p : jsstring) : fs + errno :=
  match rev (components p) with
  | [] => inr EISDIR
  | name :: before =>
      if Js.eqb name (js ".") || Js.eqb name (js "..") then
        match resolve F p with
        | Found _ _ => inr EISDIR
        | Missing _ _ _ => inr ENOENT
        | Failed e => inr e
        end
      else
        match walk MAXSYMLINKS F [] (rev before) with
        | Found dir Dir =>
            match lookup F (dir ++ [name]) with
            | None => inr ENOENT
            | Some Dir => inr EISDIR
            | Some _ => inl (remove_node F (dir ++ [name]))
            end
        | Found _ _ => inr ENOTDIR
        | Missing _ _ _ => inr ENOENT
        | Failed e => inr e
        end
  end.

End NodeFsUnlink.

(** ** services/file.ts: [fileExists] and [deleteFile] *)

Module FileOps.
Import NodeFs NodeFsUnlink FileService.

(** [fileExists] *)
Definition fileExists (F : fs) (repoPath relativePath : jsstring) : bool :=
  match resolveFilePath F repoPath relativePath with
  | Raise _ => false
  | Return filePath =>
      match stat F filePath with
      | inl stats => isFile stats
      | inr _ => false
      end
  end.

(** [deleteFile], with the tree it leaves. *)
Definition deleteFile (F : fs) (repoPath relativePath : jsstring)
  : outcome unit * fs :=
  match resolveFilePath F repoPath relativePath with
  | Raise e => (Raise e, F)
  | Return filePath =>
      match stat F filePath with
      | inr ENOENT =>
          (Raise (PathSecurityError (js "File not found: " ++ relativePath)),
           F)
      | inr code => (Raise (SystemError code), F)
      | inl stats =>
          if negb (isFile stats) then
            (Raise (PathSecurityError (js "Not a file: " ++ relativePath)), F)
          else
            match unlink F filePath with
            | inl F' => (Return tt, F')
            | inr ENOENT =>
                (Raise (PathSecurityError
                          (js "File not found: " ++ relativePath)), F)
            | inr code => (Raise (SystemError code), F)
            end
      end
  end.

End FileOps.

(** ** More worked situations on a tree *)

Module FsCases.
Import NodeFs FileService.

(** The repository /r/demo with a file and a link to it. *)
Definition linked_tree : fs :=
  [([js "r"], Dir);
   ([js "r"; js "demo"], Dir);
   ([js "r"; js "demo"; js "a.txt"], File (Utf8.encode (js "hello")));
   ([js "r"; js "demo"; js "ln"], Symlink (js "a.txt"))].

End FsCases.

(** ** services/repo.ts: from a repository id to its directory *)

Module RepoService.
Import NodePath NodeFs.

(** [resolveRepoId], with [config.REPO_ROOTS] as [roots]; [None] is null.
    A path that leaves its root ends the search, a path that does not
    exist or is not a directory passes to the next root. *)
Definition resolveRepoId (roots : list jsstring) (F : fs) (repoId : jsstring)
  : option jsstring :=
  match split SLASH repoId with
  | rootName :: (first :: others) =>
      let repoName := Js.join [SLASH] (first :: others) in
      (fix search (roots : list jsstring) : option jsstring :=
         match roots with
         | [] => None
         | root :: more =>
             if Js.eqb (basename root) rootName then
               let repoPath := join root repoName in
               match realpath F repoPath with
               | inl realPath =>
                   match realpath F root with
                   | inl normalizedRoot =>
                       if negb (startsWith normalizedRoot realPath) then None
                       else
                         match stat F realPath with
                         | inl stats =>
                             if isDirectory stats then Some realPath
                             else search more
                         | inr _ => search more
                         end
                   | inr _ => search more
                   end
               | inr _ => search more
               end
             else search more
         end) roots
  | _ => None
  end.

(** [getRepoPath] of the API routes: the directory, or a 404 reply. *)
Definition getRepoPath (roots : list jsstring) (F : fs) (repoId : jsstring)
  : jsstring + jsstring :=
  match resolveRepoId roots F repoId with
  | Some repoPath => inl repoPath
  | None => inr (js "Repository not found: " ++ repoId)
  end.

End RepoService.

Module RepoCases.
Import NodeFs.

(** A root /srv/repos with one repository, beside a directory whose name
    extends the root's. *)
Definition roots : list jsstring := [js "/srv/repos"].

Definition served_tree : fs :=
  [([js "srv"], Dir);
   ([js "srv"; js "repos"], Dir);
   ([js "srv"; js "repos"; js "app"], Dir);
   ([js "srv"; js "repos-private"], Dir);
   ([js "srv"; js "repos-private"; js "vault"], Dir)].

End RepoCases.

(** ** services/git.ts: what is handed to git *)

Module GitService.
Import NodePath.

(** The class [a-f0-9] under the flag [i]. *)
Definition is_hex (c : N) : bool :=
  (N.leb 48 c && N.leb c 57) || (N.leb 97 c && N.leb c 102)
  || (N.leb 65 c && N.leb c 70).

(** The test of a commit hash: seven to forty hexadecimal digits. *)
Definition is_commit_hash (commitHash : jsstring) : bool :=
  Nat.leb 7 (length commitHash) && Nat.leb (length commitHash) 40
  && forallb is_hex commitHash.

(** [getDiff]: the options it gives [git.diff], none for the whole diff. *)
Definition getDiff (filePath : option jsstring) : result (list jsstring) :=
  match filePath with
  | Some (c :: p) =>
      if includes (js "..") (c :: p) || startsWith (js "/") (c :: p)
      then Throw (js "Invalid file path")
      else Ok [js "--"; c :: p]
  | _ => Ok []
  end.

(** [getFileAtCommit]: the argument of [git.show]. *)
Definition getFileAtCommit (commitHash filePath : jsstring)
  : result (list jsstring) :=
  if negb (is_commit_hash commitHash) then Throw (js "Invalid commit hash")
  else if includes (js "..") filePath || startsWith (js "/") filePath
  then Throw (js "Invalid file path")
  else Ok [commitHash ++ js ":" ++ filePath].

End GitService.

Module GitNotions.

(** A string with no two dots in a row and no backslash. *)
Definition plain (s : jsstring) : Prop :=
  includes (js "..") s = false /\ existsb (N.eqb BACKSLASH) s = false.

(** The segments [path.normalize] keeps when none of them is "..". *)
Definition kept (s : jsstring) : bool :=
  negb (Js.eqb s [] || Js.eqb s (js ".")).

End GitNotions.
(* ================================================================== *)
(** * Theorems *)
(* ================================================================== *)

Module BranchNames.
Import Worktree.

(** C3. [validateBranchName] accepts "main", "feature/x" and
    "claude/user/main", and rejects "", "-x", "a..b", "@", "a@{1}", "a/./b",
    "a//b", ".hidden", "x " and "x*". *)
Theorem validateBranchName_vectors :
  map validateBranchName
      [js "main"; js "feature/x"; js "claude/user/main"]
    = [true; true; true]
  /\ map validateBranchName
       [js ""; js "-x"; js "a..b"; js "@"; js "a@{1}"; js "a/./b";
        js "a//b"; js ".hidden"; js "x "; js "x*"]
     = [false; false; false; false; false; false; false; false; false; false].
Proof. split; vm_compute; reflexivity. Qed.

(** The earlier validator of the service differs: it refuses every name
    with a slash and lets a leading dot through. *)
Lemma validateBranchName_flat_vectors :
  map validateBranchName_flat
      [js "main"; js "feature/x"; js "claude/user/main"; js ".hidden"]
    = [true; false; false; true].
Proof. vm_compute; reflexivity. Qed.

End BranchNames.

(** ** Facts about strings and lists *)

Module JsFacts.

Lemma eqb_refl (a : jsstring) : Js.eqb a a = true.
Proof.
  induction a as [|x a IH]; simpl; [reflexivity|].
  now rewrite N.eqb_refl, IH.
Qed.

Lemma eqb_eq (a b : jsstring) : Js.eqb a b = true <-> a = b.
Proof.
  revert b; induction a as [|x a IH]; intros [|y b]; simpl;
    try (split; [discriminate || reflexivity | discriminate || reflexivity]).
  rewrite andb_true_iff, N.eqb_eq, IH.
  split; [intros [-> ->]; reflexivity | intros H; inversion H; auto].
Qed.

Lemma eqb_neq (a b : jsstring) : Js.eqb a b = false <-> a <> b.
Proof.
  rewrite <- eqb_eq. destruct (Js.eqb a b); split; congruence.
Qed.

Lemma eqb_sym (a b : jsstring) : Js.eqb a b = Js.eqb b a.
Proof.
  destruct (Js.eqb a b) eqn:E.
  - apply eqb_eq in E. subst. now rewrite eqb_refl.
  - apply eqb_neq in E. symmetry. apply eqb_neq. congruence.
Qed.

Lemma startsWith_app (p s : jsstring) : startsWith p (p ++ s) = true.
Proof.
  induction p as [|x p IH]; simpl; [reflexivity|].
  now rewrite N.eqb_refl, IH.
Qed.

Lemma startsWith_spec (p s : jsstring) :
  startsWith p s = true <-> exists t, s = p ++ t.
Proof.
  revert s; induction p as [|x p IH]; intros s; simpl.
  - split; [exists s; reflexivity | reflexivity].
  - destruct s as [|y s].
    + split; [discriminate | intros [t H]; discriminate].
    + rewrite andb_true_iff, N.eqb_eq, IH. split.
      * intros [-> [t ->]]. now exists t.
      * intros [t H]. inversion H. split; [reflexivity | now exists t].
Qed.

Lemma includes_prefix (p s : jsstring) : includes p (p ++ s) = true.
Proof.
  destruct (p ++ s) eqn:E; simpl; rewrite <- E, startsWith_app; reflexivity.
Qed.

Lemma includes_spec (p s : jsstring) :
  includes p s = true <-> exists a b, s = a ++ p ++ b.
Proof.
  induction s as [|y s IH]; simpl.
  - rewrite orb_false_r, startsWith_spec. split.
    + intros [t H]. exists [], t. exact H.
    + intros [a [b H]]. destruct a; [now exists b|discriminate].
  - rewrite orb_true_iff, startsWith_spec, IH. split.
    + intros [[t H] | [a [b H]]].
      * exists [], t. exact H.
      * exists (y :: a), b. now rewrite H.
    + intros [[|x a] [b H]].
      * left. now exists b.
      * right. inversion H. now exists a, b.
Qed.

Lemma slice_last_length (n : nat) (s : jsstring) :
  length (slice_last n s) = Nat.min n (length s).
Proof. unfold slice_last. rewrite length_skipn. lia. Qed.

Lemma slice_last_short (n : nat) (s : jsstring) :
  length s <= n -> slice_last n s = s.
Proof.
  intros H. unfold slice_last. replace (length s - n) with 0 by lia.
  reflexivity.
Qed.

Lemma slice_last_suffix (n : nat) (s : jsstring) :
  exists dropped, s = dropped ++ slice_last n s.
Proof.
  exists (firstn (length s - n) s). unfold slice_last.
  now rewrite firstn_skipn.
Qed.

(** Truncating, appending and truncating again keeps what truncating the
    whole output keeps. *)
Lemma slice_last_app_slice (n : nat) (a d : jsstring) :
  slice_last n (slice_last n a ++ d) = slice_last n (a ++ d).
Proof.
  destruct (Nat.le_gt_cases (length a) n) as [Hle | Hgt].
  - now rewrite (slice_last_short n a Hle).
  - pose proof (slice_last_length n a) as Hl.
    destruct (slice_last_suffix n a) as [a1 Ha].
    assert (H1 : length a1 = length a - n).
    { apply (f_equal (@length N)) in Ha. rewrite length_app in Ha. lia. }
    rewrite Ha at 2. rewrite <- app_assoc.
    set (a2 := slice_last n a) in *.
    unfold slice_last. rewrite !length_app.
    rewrite (skipn_app (length a1 + (length a2 + length d) - n) a1).
    rewrite (skipn_all2 a1) by lia. simpl. f_equal. lia.
Qed.

End JsFacts.

(** ** The replay buffer *)

Module ReplayBuffer.
Import SessionManager JsFacts.

Lemma append_replay_slice (buffer data : jsstring) :
  append_replay buffer data = slice_last REPLAY_BUFFER_SIZE (buffer ++ data).
Proof.
  unfold append_replay. generalize REPLAY_BUFFER_SIZE as n. intros n.
  destruct (Nat.ltb n (length (buffer ++ data))) eqn:E; [reflexivity|].
  apply Nat.ltb_ge in E. symmetry. now apply slice_last_short.
Qed.

Lemma append_replay_bounded (buffer data : jsstring) :
  length (append_replay buffer data) <= REPLAY_BUFFER_SIZE.
Proof. rewrite append_replay_slice, slice_last_length. lia. Qed.

(** The buffer after a sequence of chunks, from an empty buffer. *)
Lemma fold_append_replay (chunks : list jsstring) (emitted : jsstring) :
  fold_left append_replay chunks (slice_last REPLAY_BUFFER_SIZE emitted)
  = slice_last REPLAY_BUFFER_SIZE (emitted ++ concat chunks).
Proof.
  revert emitted; induction chunks as [|d chunks IH]; intros emitted; simpl.
  - now rewrite app_nil_r.
  - rewrite append_replay_slice, slice_last_app_slice, IH.
    now rewrite <- app_assoc.
Qed.

End ReplayBuffer.

(** ** Updates of the heap *)

Module WorldFacts.
Import SessionManager.

Lemma list_update_length {A} (n : nat) (f : A -> A) (l : list A) :
  length (list_update n f l) = length l.
Proof.
  revert n; induction l as [|x l IH]; intros [|n]; simpl; auto.
Qed.

Lemma nth_error_list_update_eq {A} (n : nat) (f : A -> A) (l : list A) :
  nth_error (list_update n f l) n = option_map f (nth_error l n).
Proof.
  revert n; induction l as [|x l IH]; intros [|n]; simpl; auto.
Qed.

Lemma nth_error_list_update_neq {A} (n m : nat) (f : A -> A) (l : list A) :
  n <> m -> nth_error (list_update n f l) m = nth_error l m.
Proof.
  revert n m; induction l as [|x l IH]; intros [|n] [|m] H; simpl; auto.
  congruence.
Qed.

Lemma nth_error_list_update {A} (n m : nat) (f : A -> A) (l : list A) :
  nth_error (list_update n f l) m
  = if Nat.eqb n m then option_map f (nth_error l m) else nth_error l m.
Proof.
  destruct (Nat.eqb n m) eqn:E.
  - apply Nat.eqb_eq in E. subst. apply nth_error_list_update_eq.
  - apply Nat.eqb_neq in E. now apply nth_error_list_update_neq.
Qed.

Lemma onData_entry (pid : nat) (data : jsstring) (w : World) p e :
  nth_error (procs w) pid = Some p ->
  nth_error (heap w) (pty_entry p) = Some e ->
  procs (onData pid data w) = procs w
  /\ exists e',
       nth_error (heap (onData pid data w)) (pty_entry p) = Some e'
       /\ outputBuffer e' = append_replay (outputBuffer e) data
       /\ clients e' = clients e.
Proof.
  intros Hp He. unfold onData. rewrite Hp, He. simpl.
  split; [reflexivity|].
  rewrite !nth_error_list_update_eq, He. simpl.
  eexists. split; [reflexivity|]. split; reflexivity.
Qed.

End WorldFacts.

Module ReplayBufferInvariant.
Import SessionManager JsFacts WorldFacts ReplayBuffer.

Lemma onData_fold (pid : nat) (chunks : list jsstring) :
  forall (w : World) p e,
    nth_error (procs w) pid = Some p ->
    nth_error (heap w) (pty_entry p) = Some e ->
    exists e',
      nth_error (heap (fold_left (fun w' d => onData pid d w') chunks w))
        (pty_entry p) = Some e'
      /\ outputBuffer e' = fold_left append_replay chunks (outputBuffer e).
Proof.
  induction chunks as [|d chunks IH]; intros w p e Hp He; simpl.
  - now exists e.
  - destruct (onData_entry pid d w p e Hp He) as [Hprocs [e1 [He1 [Hb _]]]].
    rewrite <- Hprocs in Hp.
    destruct (IH _ p e1 Hp He1) as [e' [He' Hb']].
    exists e'. split; [exact He'|]. now rewrite Hb', Hb.
Qed.

(** C4. For every session and every sequence of output chunks its PTY
    emits, starting from the empty buffer of a new or restarted session,
    the replay buffer after the appends is at most 128 KiB long and is the
    most recent suffix of the concatenation of the chunks. *)
Theorem replay_buffer_is_bounded_suffix
    (w : World) (pid : nat) (p : PtyProc) (e : SessionEntry)
    (chunks : list jsstring) :
  nth_error (procs w) pid = Some p ->
  nth_error (heap w) (pty_entry p) = Some e ->
  outputBuffer e = [] ->
  exists e',
    nth_error (heap (fold_left (fun w' d => onData pid d w') chunks w))
      (pty_entry p) = Some e'
    /\ length (outputBuffer e') <= 128 * 1024
    /\ outputBuffer e' = slice_last (128 * 1024) (concat chunks)
    /\ exists dropped, concat chunks = dropped ++ outputBuffer e'.
Proof.
  intros Hp He Hempty.
  destruct (onData_fold pid chunks w p e Hp He) as [e' [He' Hb]].
  exists e'. split; [exact He'|].
  rewrite Hempty in Hb.
  change (@nil N) with (slice_last REPLAY_BUFFER_SIZE []) in Hb.
  rewrite fold_append_replay in Hb. simpl in Hb.
  change (128 * 1024) with REPLAY_BUFFER_SIZE.
  rewrite Hb. split; [|split].
  - rewrite slice_last_length. lia.
  - reflexivity.
  - apply slice_last_suffix.
Qed.

End ReplayBufferInvariant.

(** ** The capacity bounds *)

Module Capacity.
Import SessionManager ApiRoutes Invariants JsFacts WorldFacts.

Lemma filter_true {A} (l : list A) : filter (fun _ => true) l = l.
Proof. induction l as [|x l IH]; simpl; congruence. Qed.

Lemma filter_filter {A} (f g : A -> bool) (l : list A) :
  filter f (filter g l) = filter (fun x => g x && f x) l.
Proof.
  induction l as [|x l IH]; simpl; [reflexivity|].
  destruct (g x); simpl; [destruct (f x)|]; simpl; congruence.
Qed.

Lemma no_new_refl (w : World) : no_new_sessions w w.
Proof.
  split; [|split]; try reflexivity.
  exists (fun _ => true). symmetry. apply filter_true.
Qed.

Lemma no_new_trans (w1 w2 w3 : World) :
  no_new_sessions w1 w2 -> no_new_sessions w2 w3 -> no_new_sessions w1 w3.
Proof.
  intros [[f Hf] [Hl He]] [[g Hg] [Hl' He']]. split; [|split].
  - exists (fun x => f x && g x). now rewrite Hg, Hf, filter_filter.
  - congruence.
  - intros r. now rewrite He', He.
Qed.

(** A step that leaves [sessions] and [heap] alone. *)
Lemma no_new_outside (w w1 w2 : World) :
  no_new_sessions w w1 ->
  sessions w2 = sessions w1 -> heap w2 = heap w1 ->
  no_new_sessions w w2.
Proof.
  intros H Hs Hh. apply (no_new_trans _ _ _ H).
  split; [|split].
  - exists (fun _ => true). now rewrite filter_true.
  - now rewrite Hh.
  - intros r. unfold email_of_ref. now rewrite Hh.
Qed.

Lemma no_new_upd_entry (w w1 : World) (r : nat) f :
  keeps_owner f ->
  no_new_sessions w w1 ->
  no_new_sessions w (upd_entry r f w1).
Proof.
  intros Hf H. apply (no_new_trans _ _ _ H).
  split; [|split].
  - exists (fun _ => true). simpl. now rewrite filter_true.
  - simpl. apply list_update_length.
  - intros r'. unfold email_of_ref. simpl.
    rewrite nth_error_list_update.
    destruct (Nat.eqb r r'); [|reflexivity].
    destruct (nth_error (heap w1) r'); simpl; [|reflexivity].
    now rewrite Hf.
Qed.

Lemma no_new_delete (w w1 : World) (k : jsstring) :
  no_new_sessions w w1 ->
  no_new_sessions w (with_sessions (map_delete k (sessions w1)) w1).
Proof.
  intros H. apply (no_new_trans _ _ _ H).
  split; [|split]; try reflexivity.
  eexists. reflexivity.
Qed.

Lemma no_new_with_procs (w w1 : World) p :
  no_new_sessions w w1 -> no_new_sessions w (with_procs p w1).
Proof. intros H. now apply (no_new_outside w w1). Qed.

Lemma no_new_with_timers (w w1 : World) t :
  no_new_sessions w w1 -> no_new_sessions w (with_timers t w1).
Proof. intros H. now apply (no_new_outside w w1). Qed.

Lemma no_new_with_sent (w w1 : World) s :
  no_new_sessions w w1 -> no_new_sessions w (with_sent s w1).
Proof. intros H. now apply (no_new_outside w w1). Qed.

Lemma no_new_with_clock (w w1 : World) t :
  no_new_sessions w w1 -> no_new_sessions w (with_clock t w1).
Proof. intros H. now apply (no_new_outside w w1). Qed.

Lemma no_new_with_userRepoSessions (w w1 : World) u :
  no_new_sessions w w1 -> no_new_sessions w (with_userRepoSessions u w1).
Proof. intros H. now apply (no_new_outside w w1). Qed.

Create HintDb owners.
#[local] Hint Extern 1 (keeps_owner _) => (intros ?; reflexivity) : owners.
#[local] Hint Resolve no_new_refl no_new_upd_entry no_new_delete
  no_new_with_procs no_new_with_timers no_new_with_sent no_new_with_clock
  no_new_with_userRepoSessions : owners.
#[local] Hint Unfold broadcast pty_kill pty_write pty_resize pty_mark_exited
  clearTimeout upd_proc upd_timer : owners.

Ltac owners := autounfold with owners; eauto 20 with owners.

Lemma spawnClaude_no_new cfg spawn r cols rows (w0 w : World) :
  no_new_sessions w0 w ->
  no_new_sessions w0 (snd (spawnClaude cfg spawn r cols rows w)).
Proof.
  intros H. unfold spawnClaude.
  destruct (nth_error (heap w) r); [|exact H].
  destruct spawn; simpl; owners.
Qed.

Lemma onData_no_new pid data (w0 w : World) :
  no_new_sessions w0 w -> no_new_sessions w0 (onData pid data w).
Proof.
  intros H. unfold onData.
  destruct (nth_error (procs w) pid); [|exact H].
  destruct (nth_error (heap w) _); [|exact H].
  owners.
Qed.

Lemma onExit_no_new pid code signal (w0 w : World) :
  no_new_sessions w0 w -> no_new_sessions w0 (onExit pid code signal w).
Proof.
  intros H. unfold onExit.
  destruct (nth_error (procs w) pid); [|exact H].
  destruct (nth_error (heap w) _); [|exact H].
  owners.
Qed.

Lemma attachClient_no_new sessionId client (w0 w : World) :
  no_new_sessions w0 w ->
  no_new_sessions w0 (snd (attachClient sessionId client w)).
Proof.
  intros H. unfold attachClient.
  destruct (getEntry sessionId w) as [[r entry]|]; [|exact H].
  simpl. destruct (cleanupTimeout entry); owners.
Qed.

Lemma detachClient_no_new cfg sessionId clientId (w0 w : World) :
  no_new_sessions w0 w ->
  no_new_sessions w0 (detachClient cfg sessionId clientId w).
Proof.
  intros H. unfold detachClient.
  destruct (getEntry sessionId w) as [[r entry]|]; [|exact H].
  destruct (Nat.eqb _ 0); owners.
Qed.

Lemma sendInput_no_new sessionId data (w0 w : World) :
  no_new_sessions w0 w ->
  no_new_sessions w0 (snd (sendInput sessionId data w)).
Proof.
  intros H. unfold sendInput.
  destruct (getEntry sessionId w) as [[r entry]|]; [|exact H].
  destruct (pty entry); simpl; owners.
Qed.

Lemma resize_no_new sessionId cols rows (w0 w : World) :
  no_new_sessions w0 w ->
  no_new_sessions w0 (snd (resize sessionId cols rows w)).
Proof.
  intros H. unfold resize.
  destruct (getEntry sessionId w) as [[r entry]|]; [|exact H].
  destruct (pty entry); simpl; owners.
Qed.

Lemma renameSession_no_new sessionId newName (w0 w : World) :
  no_new_sessions w0 w ->
  no_new_sessions w0 (snd (renameSession sessionId newName w)).
Proof.
  intros H. unfold renameSession.
  destruct (getEntry sessionId w) as [[r entry]|]; simpl; owners.
Qed.

Lemma restartSession_no_new cfg spawn sessionId (w0 w : World) :
  no_new_sessions w0 w ->
  no_new_sessions w0 (snd (restartSession cfg spawn sessionId w)).
Proof.
  intros H. unfold restartSession.
  destruct (getEntry sessionId w) as [[r entry]|]; [|exact H].
  match goal with
  | |- context [spawnClaude ?c ?s ?r ?a ?b ?w'] =>
      pose proof (spawnClaude_no_new c s r a b w0 w') as Hs;
      destruct (spawnClaude c s r a b w') as [[u|m] w3]
  end; simpl in *; apply Hs; destruct (pty entry); owners.
Qed.

Lemma cleanupSession_no_new sessionId (w0 w : World) :
  no_new_sessions w0 w ->
  no_new_sessions w0 (snd (cleanupSession sessionId w)).
Proof.
  intros H. unfold cleanupSession.
  destruct (getEntry sessionId w) as [[r entry]|]; [|exact H].
  simpl. apply no_new_delete.
  match goal with
  | |- context [map_get ?k ?m] => destruct (map_get k m)
  end; [destruct (Nat.eqb _ 0)|];
    destruct (pty entry); destruct (cleanupTimeout entry); owners.
Qed.

Lemma cleanupExpiredSessions_no_new cfg (w0 w : World) :
  no_new_sessions w0 w ->
  no_new_sessions w0 (cleanupExpiredSessions cfg w).
Proof.
  intros H. unfold cleanupExpiredSessions.
  generalize (clock w) as now. intros now.
  generalize (sessions w) as l. intros l.
  revert w H. induction l as [|kv l IH]; intros w H; simpl; [exact H|].
  apply IH.
  destruct (getEntry (fst kv) w) as [[r entry]|]; [|exact H].
  destruct (disconnectedAt entry); [|exact H].
  destruct (Z.gtb _ _); [|exact H].
  now apply cleanupSession_no_new.
Qed.

Lemma count_owned (email : jsstring) (w : World) :
  getUserSessionCount email w = owned email w (map snd (sessions w)).
Proof.
  unfold getUserSessionCount, session_entries, owned, email_of_ref.
  induction (sessions w) as [|kv l IH]; simpl; [reflexivity|].
  rewrite filter_app, length_app, IH.
  destruct (nth_error (heap w) (snd kv)); simpl; [|reflexivity].
  destruct (Js.eqb _ email); reflexivity.
Qed.

Lemma owned_ext (email : jsstring) (w w' : World) (refs : list nat) :
  (forall r, In r refs -> email_of_ref w' r = email_of_ref w r) ->
  owned email w' refs = owned email w refs.
Proof.
  unfold owned. induction refs as [|r refs IH]; intros H; simpl; [reflexivity|].
  rewrite (H r) by now left.
  destruct (email_of_ref w r) as [u|];
    [destruct (Js.eqb u email)|]; simpl; rewrite IH; auto;
    intros; apply H; now right.
Qed.

Lemma owned_filter_le (email : jsstring) (w : World) keep
    (l : list (jsstring * nat)) :
  owned email w (map snd (filter keep l)) <= owned email w (map snd l).
Proof.
  unfold owned. induction l as [|kv l IH]; simpl; [lia|].
  destruct (keep kv); simpl;
    destruct (email_of_ref w (snd kv)) as [u|];
    try destruct (Js.eqb u email); simpl; lia.
Qed.

Lemma filter_length_le {A} (f : A -> bool) (l : list A) :
  length (filter f l) <= length l.
Proof. induction l as [|x l IH]; simpl; [lia|destruct (f x); simpl; lia]. Qed.

Lemma count_geb_mono (a b : nat) (x : number) :
  a <= b -> count_geb a x = true -> count_geb b x = true.
Proof.
  intros Hab. destruct x as [q| |]; simpl; auto.
  rewrite !Qle_bool_iff. intros H. eapply Qle_trans; [exact H|].
  rewrite <- Zle_Qle. lia.
Qed.

Lemma admitted_le (cap : number) (n n' : nat) :
  n' <= n -> admitted cap n -> admitted cap n'.
Proof.
  intros Hle [->|H]; [left; lia|].
  destruct n' as [|m]; [now left|]. right. simpl.
  destruct (count_geb m cap) eqn:E; [|reflexivity].
  rewrite (count_geb_mono m (pred n) cap) in H; [discriminate|lia|exact E].
Qed.

Lemma admitted_succ (cap : number) (n : nat) :
  count_geb n cap = false -> admitted cap (S n).
Proof. intros H. now right. Qed.

(** Under a limit that is a count, what the limit has let grow is at most
    the limit. *)
Lemma admitted_count (cap : number) (n : nat) :
  is_count cap = true -> admitted cap n -> count_leb n cap = true.
Proof.
  destruct cap as [q| |]; simpl; try discriminate.
  intros Hc Ha. apply andb_true_iff in Hc. destruct Hc as [Hq H0].
  apply Qeq_bool_iff in Hq. apply Qle_bool_iff in H0. apply Qle_bool_iff.
  destruct n as [|m]; [exact H0|].
  destruct Ha as [Ha|Ha]; [discriminate|]. simpl in Ha.
  assert (Hlt : ~ (q <= inject_Z (Z.of_nat m))%Q).
  { intros H. apply Qle_bool_iff in H. congruence. }
  rewrite Hq in Hlt |- *. rewrite <- Zle_Qle in Hlt |- *. lia.
Qed.

Lemma no_new_preserves cfg (w w' : World) :
  no_new_sessions w w' ->
  refs_valid w /\ within_caps cfg w ->
  refs_valid w' /\ within_caps cfg w'.
Proof.
  intros [[keep Hs] [Hl He]] [Hv [Hu Ht]]. split; [|split].
  - unfold refs_valid in *. rewrite Hs, Hl.
    rewrite Forall_forall in *. intros kv Hin.
    apply filter_In in Hin. now apply Hv.
  - intros email. specialize (Hu email). unfold sessions_owned_by in *.
    rewrite Hs. rewrite (owned_ext email w w') by (intros; apply He).
    eapply admitted_le; [apply owned_filter_le|exact Hu].
  - rewrite Hs. eapply admitted_le; [apply filter_length_le|exact Ht].
Qed.

(** What [sessions.set] does to the owners' counts. *)
Lemma map_set_length {V} k (v : V) m :
  length (map_set k v m) <= S (length m).
Proof.
  induction m as [|[k' v'] m IH]; simpl; [lia|].
  destruct (Js.eqb k k'); simpl; lia.
Qed.

Lemma map_set_Forall {V} (P : jsstring * V -> Prop) k (v : V) m :
  Forall P m -> (forall k', P (k', v)) -> Forall P (map_set k v m).
Proof.
  intros Hm Hv. induction m as [|[k' v'] m IH]; simpl.
  - constructor; [apply Hv|constructor].
  - inversion Hm; subst. destruct (Js.eqb k k'); constructor; auto.
Qed.

Lemma owned_map_set (email owner : jsstring) (w : World) k (r : nat)
    (m : list (jsstring * nat)) :
  email_of_ref w r = Some owner ->
  owned email w (map snd (map_set k r m))
  <= owned email w (map snd m) + (if Js.eqb owner email then 1 else 0).
Proof.
  intros Hr. unfold owned.
  induction m as [|[k' v'] m IH]; simpl.
  - rewrite Hr. destruct (Js.eqb owner email); simpl; lia.
  - destruct (Js.eqb k k'); simpl.
    + rewrite Hr.
      destruct (email_of_ref w v') as [u|]; try destruct (Js.eqb u email);
        destruct (Js.eqb owner email); simpl; lia.
    + destruct (email_of_ref w v') as [u|]; try destruct (Js.eqb u email);
        simpl; lia.
Qed.

Lemma createSession_preserves cfg sessionId spawn email repo path name
    cols rows (w : World) :
  refs_valid w /\ within_caps cfg w ->
  refs_valid (snd (createSession cfg sessionId spawn email repo path name cols rows w))
  /\ within_caps cfg
       (snd (createSession cfg sessionId spawn email repo path name cols rows w)).
Proof.
  intros [Hv [Hu Ht]]. unfold createSession.
  destruct (count_geb (getUserSessionCount email w) _) eqn:Eu;
    [simpl; split; [exact Hv|split; [exact Hu|exact Ht]]|].
  destruct (count_geb (length (sessions w)) _) eqn:Et;
    [simpl; split; [exact Hv|split; [exact Hu|exact Ht]]|].
  rewrite count_owned in Eu.
  match goal with
  | |- context [spawnClaude ?c ?s ?r ?a ?b ?w'] =>
      pose proof (spawnClaude_no_new c s r a b w' w' (no_new_refl w')) as Hs;
      set (w3 := w') in *;
      destruct (spawnClaude c s r a b w3) as [[u|m] w4]
  end; simpl in Hs |- *;
    apply (no_new_preserves cfg _ _ Hs); clear Hs w4.
  all: assert (Hold : forall r, r < length (heap w) ->
                        email_of_ref w3 r = email_of_ref w r)
    by (intros r Hr; unfold email_of_ref; subst w3; simpl;
        now rewrite nth_error_app1).
  all: assert (Hnew : email_of_ref w3 (length (heap w)) = Some email)
    by (unfold email_of_ref; subst w3; simpl;
        rewrite nth_error_app2, Nat.sub_diag by lia; reflexivity).
  all: split; [|split].
  all: try (unfold refs_valid; subst w3; simpl; rewrite length_app; simpl;
            apply map_set_Forall;
            [ eapply Forall_impl; [|exact Hv]; simpl; intros; lia
            | simpl; intros; lia ]).
  all: try (apply (admitted_le _ (S (length (sessions w))));
            [ subst w3; simpl; apply map_set_length
            | apply admitted_succ; exact Et ]).
  all: intros u'; unfold sessions_owned_by;
    replace (sessions w3) with (map_set sessionId (length (heap w)) (sessions w))
      by (subst w3; reflexivity);
    pose proof (owned_map_set u' email w3 sessionId _ (sessions w) Hnew) as Hle;
    rewrite (owned_ext u' w w3 (map snd (sessions w))) in Hle
      by (intros r Hin; apply Hold; unfold refs_valid in Hv;
          rewrite Forall_forall in Hv; apply in_map_iff in Hin;
          destruct Hin as [kv [<- Hin]]; now apply Hv);
    revert Hle; destruct (Js.eqb email u') eqn:E; intros Hle;
    [ apply eqb_eq in E; subst u';
      apply (admitted_le _ (S (owned email w (map snd (sessions w)))));
      [lia|apply admitted_succ; exact Eu]
    | apply (admitted_le _ (sessions_owned_by u' w));
      [unfold sessions_owned_by; lia|exact (Hu u')] ].
Qed.


Lemma apply_event_preserves cfg ev (w : World) :
  refs_valid w /\ within_caps cfg w ->
  refs_valid (apply_event cfg ev w) /\ within_caps cfg (apply_event cfg ev w).
Proof.
  intros H.
  destruct ev; simpl;
    try (apply createSession_preserves; exact H);
    try (apply (no_new_preserves cfg w); [|exact H]).
  - apply attachClient_no_new, no_new_refl.
  - apply detachClient_no_new, no_new_refl.
  - apply sendInput_no_new, no_new_refl.
  - apply resize_no_new, no_new_refl.
  - apply restartSession_no_new, no_new_refl.
  - apply cleanupSession_no_new, no_new_refl.
  - apply renameSession_no_new, no_new_refl.
  - destruct (nth_error (procs w) pid) as [p|]; [|apply no_new_refl].
    destruct (pty_exited p); [apply no_new_refl|].
    apply onData_no_new, no_new_refl.
  - destruct (nth_error (procs w) pid) as [p|]; [|apply no_new_refl].
    destruct (pty_exited p); [apply no_new_refl|].
    apply onExit_no_new. unfold pty_mark_exited, upd_proc.
    apply no_new_with_procs, no_new_refl.
  - destruct (nth_error (timers w) t) as [x|]; [|apply no_new_refl].
    destruct (timer_pending x && _); [|apply no_new_refl].
    apply cleanupSession_no_new. unfold upd_timer.
    apply no_new_with_timers, no_new_refl.
  - apply cleanupExpiredSessions_no_new, no_new_refl.
  - apply no_new_with_clock, no_new_refl.
Qed.

Lemma run_preserves cfg evs (w : World) :
  refs_valid w /\ within_caps cfg w ->
  refs_valid (run cfg evs w) /\ within_caps cfg (run cfg evs w).
Proof.
  unfold run. revert w. induction evs as [|ev evs IH]; intros w H; simpl.
  - exact H.
  - apply IH, apply_event_preserves, H.
Qed.

(** Whatever the two limits are, every count of a manager that started
    empty is one the limits have let grow. *)
Lemma run_within_caps cfg evs : within_caps cfg (run cfg evs empty_world).
Proof.
  apply run_preserves. split; [constructor|]. split; [intros email|]; now left.
Qed.

Lemma createSession_at_capacity cfg sessionId spawn email repo path name
    cols rows (w : World) :
  count_geb (sessions_owned_by email w) (MAX_SESSIONS_PER_USER cfg) = true
  \/ count_geb (length (sessions w)) (MAX_TOTAL_SESSIONS cfg) = true ->
  exists message,
    createSession cfg sessionId spawn email repo path name cols rows w
    = (Throw message, w).
Proof.
  intros H. unfold createSession. rewrite count_owned.
  fold (sessions_owned_by email w).
  destruct (count_geb (sessions_owned_by email w) _) eqn:Eu;
    [eexists; reflexivity|].
  destruct (count_geb (length (sessions w)) _) eqn:Et;
    [eexists; reflexivity|].
  destruct H; discriminate.
Qed.

(** C2, as the code has it.  When the two limits are counts, the sessions
    in the map whose entry is owned by any one user are never more than
    [MAX_SESSIONS_PER_USER] and the sessions in all never more than
    [MAX_TOTAL_SESSIONS], whatever happens to a manager that started empty;
    [createSession] called when the sessions of the user or the sessions in
    all have reached their limit throws and leaves the manager and the
    processes as they are; and [POST /api/sessions] answers 429 with code
    MAX_SESSIONS_PER_USER to the per-user breach and 503 with code
    SERVER_MAX_CAPACITY to the global one. *)
Theorem session_capacity (cfg : Config) :
  is_count (MAX_SESSIONS_PER_USER cfg) = true ->
  is_count (MAX_TOTAL_SESSIONS cfg) = true ->
  (forall evs,
      let w := run cfg evs empty_world in
      (forall email,
          count_leb (sessions_owned_by email w) (MAX_SESSIONS_PER_USER cfg)
          = true)
      /\ count_leb (length (sessions w)) (MAX_TOTAL_SESSIONS cfg) = true)
  /\ (forall sessionId spawn email repo path name cols rows w,
        count_geb (sessions_owned_by email w) (MAX_SESSIONS_PER_USER cfg)
        = true
        \/ count_geb (length (sessions w)) (MAX_TOTAL_SESSIONS cfg) = true ->
        exists message,
          createSession cfg sessionId spawn email repo path name cols rows w
          = (Throw message, w))
  /\ (forall sessionId spawn email repo path name w,
        count_geb (sessions_owned_by email w) (MAX_SESSIONS_PER_USER cfg)
        = true ->
        exists message,
          post_api_sessions cfg sessionId spawn email repo path name w
          = (ReplyError 429 (js "MAX_SESSIONS_PER_USER") message, w))
  /\ (forall sessionId spawn email repo path name w,
        count_geb (sessions_owned_by email w) (MAX_SESSIONS_PER_USER cfg)
        = false ->
        count_geb (length (sessions w)) (MAX_TOTAL_SESSIONS cfg) = true ->
        exists message,
          post_api_sessions cfg sessionId spawn email repo path name w
          = (ReplyError 503 (js "SERVER_MAX_CAPACITY") message, w)).
Proof.
  intros Hu Ht. split; [|split; [|split]].
  - intros evs w. destruct (run_within_caps cfg evs) as [Hau Hat].
    split; [intros email|]; now apply admitted_count.
  - intros. now apply createSession_at_capacity.
  - intros sessionId spawn email repo path name w H.
    unfold post_api_sessions, createSession. rewrite count_owned.
    fold (sessions_owned_by email w). rewrite H.
    change (js "Maximum sessions per user reached (")
      with (js "Maximum sessions per user reached" ++ js " (").
    rewrite <- app_assoc, includes_prefix. eexists. reflexivity.
  - intros sessionId spawn email repo path name w H1 H2.
    unfold post_api_sessions, createSession. rewrite count_owned.
    fold (sessions_owned_by email w). rewrite H1, H2.
    eexists. reflexivity.
Qed.

(** A limit of 2.5 sessions per user lets a user have three: the third is
    asked for when the user has two, and two has not reached 2.5.  The
    fourth is refused. *)
Lemma fractional_limit_is_exceeded :
  let w := run Scenario.fractional_config Scenario.four_requests
             empty_world in
  sessions_owned_by Scenario.user w = 3
  /\ count_leb (sessions_owned_by Scenario.user w)
       (MAX_SESSIONS_PER_USER Scenario.fractional_config) = false.
Proof. split; reflexivity. Qed.

End Capacity.
Module Lifecycle.
Import SessionManager Invariants JsFacts WorldFacts Scenario.

Lemma nth_error_snoc {A} (l : list A) (x : A) :
  nth_error (l ++ [x]) (length l) = Some x.
Proof. rewrite nth_error_app2, Nat.sub_diag by lia. reflexivity. Qed.

(** What [spawnClaude] does to the entry it is given. *)
Lemma spawnClaude_returns cfg r cols rows (w : World) entry :
  nth_error (heap w) r = Some entry ->
  exists w',
    spawnClaude cfg SpawnReturns r cols rows w = (Ok tt, w')
    /\ nth_error (heap w') r
       = Some (upd_session (set_state running)
                 (set_pty (Some (length (procs w))) entry))
    /\ procs w'
       = procs w
         ++ [mkProc (js "/bin/bash") [js "-c"; js "exec " ++ CLAUDE_PATH cfg]
               (or_default DEFAULT_COLS cols) (or_default DEFAULT_ROWS rows)
               (repoPath (session entry)) r [] false false]
    /\ sessions w' = sessions w
    /\ sent w'
       = sent w ++ map (fun c => (c, MsgStatus running None None None))
                     (clients entry).
Proof.
  intros He. unfold spawnClaude. rewrite He.
  eexists. split; [reflexivity|]. simpl.
  rewrite nth_error_list_update_eq, He. repeat split; reflexivity.
Qed.

Lemma spawnClaude_throws cfg message r cols rows (w : World) entry :
  nth_error (heap w) r = Some entry ->
  exists w',
    spawnClaude cfg (SpawnThrows message) r cols rows w = (Throw message, w')
    /\ nth_error (heap w') r
       = Some (upd_session
                 (fun s => set_exitCode (Some 1%Z) (set_state exited s)) entry)
    /\ procs w' = procs w.
Proof.
  intros He. unfold spawnClaude. rewrite He.
  eexists. split; [reflexivity|]. simpl.
  rewrite nth_error_list_update_eq, He. split; reflexivity.
Qed.

(** C5, as the code has it. A successful [createSession] means [pty.spawn]
    returned a process, and the session it hands to the caller is already
    'running': the session is made in 'starting' and [spawnClaude] sets it
    to 'running' as soon as [pty.spawn] returns, before [createSession]
    returns.  If [pty.spawn] throws, so does [createSession]. *)
Theorem createSession_returns_running
    cfg sessionId spawn email repo path name cols rows (w w' : World) s :
  createSession cfg sessionId spawn email repo path name cols rows w
    = (Ok s, w') ->
  spawn = SpawnReturns
  /\ state s = running
  /\ getSession sessionId w' = Some s
  /\ length (procs w') = S (length (procs w)).
Proof.
  unfold createSession.
  destruct (count_geb (getUserSessionCount email w) _); [discriminate|].
  destruct (count_geb (length (sessions w)) _); [discriminate|].
  match goal with
  | |- context [spawnClaude cfg spawn ?r cols rows ?w3] =>
      set (w3' := w3);
      assert (He : exists e, nth_error (heap w3') r = Some e
                             /\ state (session e) = starting)
        by (eexists; split; [apply nth_error_snoc|reflexivity]);
      assert (Hs : map_get sessionId (sessions w3') = Some r)
  end.
  { simpl. clear. induction (sessions w) as [|[k v] m IH]; simpl.
    - now rewrite eqb_refl.
    - destruct (Js.eqb sessionId k) eqn:E; simpl; rewrite E; auto. }
  destruct He as [e [He _]].
  destruct spawn as [|message].
  - destruct (spawnClaude_returns cfg _ cols rows w3' e He)
      as [w4 [-> [Hh [Hp [Hss _]]]]].
    rewrite Hh. intros H. inversion H; subst. clear H.
    split; [reflexivity|]. split; [reflexivity|]. split.
    + unfold getSession, getEntry. rewrite Hss, Hs, Hh. reflexivity.
    + rewrite Hp, length_app. simpl. lia.
  - destruct (spawnClaude_throws cfg message _ cols rows w3' e He)
      as [w4 [-> _]].
    discriminate.
Qed.

Lemma createSession_returns_running_witness :
  SpawnReturns = SpawnReturns
  /\ state (mkSession (js "s1") user repo repo_path (js "Session 1")
              running 0 0 None) = running
  /\ getSession (js "s1") w_created
     = Some (mkSession (js "s1") user repo repo_path (js "Session 1")
               running 0 0 None)
  /\ length (procs w_created) = S (length (procs empty_world)).
Proof.
  apply (createSession_returns_running default_config (js "s1") SpawnReturns
           user repo repo_path None (Some (80 # 1)%Q) (Some (24 # 1)%Q)
           empty_world w_created).
  reflexivity.
Defined.

(** C5 fails as stated: the session a successful [createSession] returns is
    not in 'starting'. *)
Lemma createSession_not_starting :
  exists s w',
    createSession default_config (js "s1") SpawnReturns user repo repo_path
      None (Some (80 # 1)%Q) (Some (24 # 1)%Q) empty_world = (Ok s, w')
    /\ state s <> starting.
Proof.
  eexists. eexists. split; [reflexivity|]. simpl. discriminate.
Qed.


Lemma getEntry_inv sessionId (w : World) r e :
  getEntry sessionId w = Some (r, e) ->
  map_get sessionId (sessions w) = Some r /\ nth_error (heap w) r = Some e.
Proof.
  unfold getEntry. destruct (map_get sessionId (sessions w)) as [r'|];
    [|discriminate].
  destruct (nth_error (heap w) r') as [e'|] eqn:E; [|discriminate].
  intros H. inversion H; subst. auto.
Qed.

(** C6, as the code has it. For a session with a PTY, [restartSession]
    kills that PTY, empties the replay buffer and spawns a new process in
    the same working directory, at the default size of 120 columns by 30
    rows; when [pty.spawn] returns, the session is 'running', and the
    client set is the one it was. *)
Theorem restartSession_respawns_at_default_size
    cfg sessionId (w : World) r entry pid p :
  getEntry sessionId w = Some (r, entry) ->
  pty entry = Some pid ->
  nth_error (procs w) pid = Some p ->
  exists w' e' p' pnew,
    restartSession cfg SpawnReturns sessionId w = (Ok (Some (session e')), w')
    /\ nth_error (procs w') pid = Some p' /\ pty_killed p' = true
    /\ nth_error (heap w') r = Some e'
    /\ outputBuffer e' = []
    /\ pty e' = Some (length (procs w))
    /\ nth_error (procs w') (length (procs w)) = Some pnew
    /\ pty_cwd pnew = repoPath (session entry)
    /\ pty_cols pnew = (120 # 1)%Q /\ pty_rows pnew = (30 # 1)%Q
    /\ state (session e') = running
    /\ clients e' = clients entry.
Proof.
  intros Hg Hpty Hp. destruct (getEntry_inv _ _ _ _ Hg) as [_ He].
  unfold restartSession. rewrite Hg, Hpty.
  match goal with
  | |- context [spawnClaude cfg SpawnReturns r None None ?w2] =>
      set (w2' := w2);
      assert (He2 : nth_error (heap w2') r
                    = Some (set_outputBuffer [] (set_pty None entry)))
        by (simpl; rewrite !nth_error_list_update_eq, He; reflexivity);
      assert (Hp2 : procs w2'
                    = list_update pid
                        (fun p => mkProc (pty_file p) (pty_args p) (pty_cols p)
                                    (pty_rows p) (pty_cwd p) (pty_entry p)
                                    (pty_written p) true (pty_exited p))
                        (procs w))
        by reflexivity
  end.
  destruct (spawnClaude_returns cfg r None None w2' _ He2)
    as [w3 [-> [Hh [Hpr _]]]].
  rewrite Hh. rewrite Hp2, list_update_length in *.
  assert (Hlt : pid < length (procs w)) by (apply nth_error_Some; congruence).
  do 4 eexists. split; [reflexivity|].
  split; [rewrite Hpr, nth_error_app1, nth_error_list_update_eq, Hp
            by (now rewrite list_update_length); reflexivity|].
  split; [reflexivity|]. split; [exact Hh|]. split; [reflexivity|].
  split; [reflexivity|].
  split; [rewrite Hpr, nth_error_app2, list_update_length, Nat.sub_diag
            by (rewrite list_update_length; lia); reflexivity|].
  repeat split; reflexivity.
Qed.

Lemma restartSession_respawns_at_default_size_witness :
  exists w' e' p' pnew,
    restartSession default_config SpawnReturns (js "s1") w_attached
      = (Ok (Some (session e')), w')
    /\ nth_error (procs w') 0 = Some p' /\ pty_killed p' = true
    /\ nth_error (heap w') 0 = Some e'
    /\ outputBuffer e' = []
    /\ pty e' = Some (length (procs w_attached))
    /\ nth_error (procs w') (length (procs w_attached)) = Some pnew
    /\ pty_cwd pnew = repoPath (session demo_entry)
    /\ pty_cols pnew = (120 # 1)%Q /\ pty_rows pnew = (30 # 1)%Q
    /\ state (session e') = running
    /\ clients e' = clients demo_entry.
Proof.
  apply (restartSession_respawns_at_default_size default_config (js "s1")
           w_attached 0 demo_entry 0 demo_proc); reflexivity.
Defined.

(** C6 fails as stated: a session created at 80 by 24 is respawned at 120
    by 30, and the restarted session is not in 'starting'. *)
Lemma restartSession_forgets_size_and_runs :
  exists s w' pold pnew,
    restartSession default_config SpawnReturns (js "s1") w_attached
      = (Ok (Some s), w')
    /\ nth_error (procs w_attached) 0 = Some pold
    /\ nth_error (procs w') 1 = Some pnew
    /\ pty_cols pold = (80 # 1)%Q /\ pty_rows pold = (24 # 1)%Q
    /\ ~ (pty_cols pnew == pty_cols pold)%Q
    /\ ~ (pty_rows pnew == pty_rows pold)%Q
    /\ state s <> starting.
Proof.
  do 4 eexists. split; [reflexivity|].
  split; [reflexivity|]. split; [reflexivity|].
  split; [reflexivity|]. split; [reflexivity|].
  split; [|split]; simpl; discriminate.
Qed.


(** Tabs that differ at most in name and state sort alike. *)
Lemma insert_tab_alike (t t' : TabInfo) (l l' : list TabInfo) :
  tab_id t = tab_id t' -> tab_createdAt t = tab_createdAt t' ->
  Forall2 (fun a b => tab_id a = tab_id b
                      /\ tab_createdAt a = tab_createdAt b) l l' ->
  Forall2 (fun a b => tab_id a = tab_id b
                      /\ tab_createdAt a = tab_createdAt b)
    (insert_tab t l) (insert_tab t' l').
Proof.
  intros Hi Hc H. induction H as [|x x' l l' [Hxi Hxc] H IH]; simpl.
  - constructor; auto.
  - rewrite Hc, Hxc. destruct (Z.leb _ _); repeat constructor; auto.
Qed.

Lemma sort_tabs_alike (l l' : list TabInfo) :
  Forall2 (fun a b => tab_id a = tab_id b
                      /\ tab_createdAt a = tab_createdAt b) l l' ->
  map tab_id (sort_tabs l) = map tab_id (sort_tabs l').
Proof.
  intros H.
  assert (H' : Forall2 (fun a b => tab_id a = tab_id b
                                   /\ tab_createdAt a = tab_createdAt b)
                 (sort_tabs l) (sort_tabs l')).
  { induction H as [|x x' l l' [Hi Hc] H IH]; simpl; [constructor|].
    now apply insert_tab_alike. }
  induction H' as [|x x' m m' [Hi _] _ IH]; simpl; congruence.
Qed.

Lemma Forall2_flat_map {A B} (R : B -> B -> Prop) (f g : A -> list B)
    (l : list A) :
  (forall a, Forall2 R (f a) (g a)) ->
  Forall2 R (flat_map f l) (flat_map g l).
Proof.
  intros H. induction l as [|a l IH]; simpl; [constructor|].
  apply Forall2_app; auto.
Qed.

(** C7, as the code has it. When the PTY of a session exits, the session
    enters 'exited', loses its PTY, and the exit status is sent to every
    attached client; the session is not removed: it stays in the [sessions]
    map, [getSession] and [listSessions] still return it, and it is there
    to be restarted until [cleanupSession] removes it. *)
Theorem pty_exit_marks_exited_and_keeps_session
    cfg (w : World) pid p e code signal :
  nth_error (procs w) pid = Some p ->
  pty_exited p = false ->
  nth_error (heap w) (pty_entry p) = Some e ->
  let w' := apply_event cfg (EvPtyExit pid code signal) w in
  (exists e',
      nth_error (heap w') (pty_entry p) = Some e'
      /\ state (session e') = exited
      /\ exitCode (session e') = Some code
      /\ pty e' = None
      /\ clients e' = clients e)
  /\ sent w'
     = sent w
       ++ map (fun c => (c, MsgStatus exited
                              (Some (exit_message code signal)) None None))
            (clients e)
  /\ sessions w' = sessions w
  /\ (forall sessionId,
         map_get sessionId (sessions w) = Some (pty_entry p) ->
         exists s, getSession sessionId w' = Some s /\ state s = exited)
  /\ (forall sessionId,
         getSession sessionId w' = None <-> getSession sessionId w = None)
  /\ (forall email repo,
         map tab_id (listSessions email repo w')
         = map tab_id (listSessions email repo w)).
Proof.
  intros Hp Hx He w'. subst w'. simpl. rewrite Hp, Hx.
  unfold onExit.
  assert (Hp' : exists p', nth_error (procs (pty_mark_exited pid w)) pid
                           = Some p' /\ pty_entry p' = pty_entry p).
  { simpl. rewrite nth_error_list_update_eq, Hp. simpl. eauto. }
  destruct Hp' as [p' [-> Hr]]. rewrite Hr.
  change (heap (pty_mark_exited pid w)) with (heap w). rewrite He.
  set (f := fun e0 => set_pty None
                        (upd_session
                           (fun s => set_exitCode (Some code)
                                       (set_state exited s)) e0)).
  assert (Hheap : forall r,
             nth_error (heap (broadcast (clients e)
                                (MsgStatus exited
                                   (Some (exit_message code signal)) None None)
                                (upd_entry (pty_entry p) f
                                   (pty_mark_exited pid w)))) r
             = if Nat.eqb (pty_entry p) r
               then option_map f (nth_error (heap w) r)
               else nth_error (heap w) r).
  { intros r. simpl. apply nth_error_list_update. }
  assert (Hget : forall sessionId,
             getEntry sessionId
               (broadcast (clients e)
                  (MsgStatus exited (Some (exit_message code signal)) None None)
                  (upd_entry (pty_entry p) f (pty_mark_exited pid w)))
             = match getEntry sessionId w with
               | Some (r, e0) =>
                   Some (r, if Nat.eqb (pty_entry p) r then f e0 else e0)
               | None => None
               end).
  { intros sessionId. unfold getEntry.
    change (sessions (broadcast _ _ _)) with (sessions w).
    destruct (map_get sessionId (sessions w)) as [r|]; [|reflexivity].
    rewrite Hheap.
    destruct (nth_error (heap w) r); simpl;
      destruct (Nat.eqb (pty_entry p) r); reflexivity. }
  split; [|split; [|split; [|split; [|split]]]].
  - exists (f e). rewrite Hheap, Nat.eqb_refl, He. repeat split; reflexivity.
  - reflexivity.
  - reflexivity.
  - intros sessionId Hm. unfold getSession. rewrite Hget.
    unfold getEntry. rewrite Hm, He, Nat.eqb_refl. eexists. split; reflexivity.
  - intros sessionId. unfold getSession. rewrite Hget.
    destruct (getEntry sessionId w) as [[r e0]|]; split; intros; congruence.
  - intros email repo. unfold listSessions.
    change (userRepoSessions (broadcast _ _ _)) with (userRepoSessions w).
    destruct (map_get _ (userRepoSessions w)) as [ids|]; [|reflexivity].
    apply sort_tabs_alike, Forall2_flat_map.
    intros sessionId. rewrite Hget.
    destruct (getEntry sessionId w) as [[r e0]|]; [|constructor].
    destruct (Nat.eqb (pty_entry p) r); repeat constructor.
Qed.

Lemma pty_exit_marks_exited_and_keeps_session_witness :
  let w' := apply_event default_config (EvPtyExit 0 0 0) w_attached in
  (exists e',
      nth_error (heap w') (pty_entry demo_proc) = Some e'
      /\ state (session e') = exited
      /\ exitCode (session e') = Some 0%Z
      /\ pty e' = None
      /\ clients e' = clients demo_entry)
  /\ sent w'
     = sent w_attached
       ++ map (fun c => (c, MsgStatus exited
                              (Some (exit_message 0 0)) None None))
            (clients demo_entry)
  /\ sessions w' = sessions w_attached
  /\ (forall sessionId,
         map_get sessionId (sessions w_attached) = Some (pty_entry demo_proc) ->
         exists s, getSession sessionId w' = Some s /\ state s = exited)
  /\ (forall sessionId,
         getSession sessionId w' = None
         <-> getSession sessionId w_attached = None)
  /\ (forall email repo,
         map tab_id (listSessions email repo w')
         = map tab_id (listSessions email repo w_attached)).
Proof.
  apply (pty_exit_marks_exited_and_keeps_session default_config w_attached 0
           demo_proc demo_entry 0 0); reflexivity.
Defined.

(** C7 fails as stated: after the PTY of the session "s1" exits, with the
    client "c1" attached, the session is still returned by [getSession]
    and listed by [listSessions]. *)
Lemma exited_session_is_still_indexed :
  let w' := apply_event default_config (EvPtyExit 0 0 0) w_attached in
  (exists s, getSession (js "s1") w' = Some s /\ state s = exited)
  /\ map tab_id (listSessions user repo w') = [js "s1"]
  /\ sent w'
     = [(js "c1", MsgStatus exited (Some (js "Claude exited with code 0"))
                    None None)].
Proof.
  split; [eexists; split; reflexivity|]. split; reflexivity.
Qed.

(** C9 fails on the code: the first [detachClient] of the only client arms
    one reap timer; the second, a second later, sets [disconnectedAt] anew
    and arms a second timer without clearing the first. *)
Lemma detachClient_twice_is_not_once :
  let once := run default_config
                [EvDetachClient (js "s1") (js "c1"); EvTimePasses 1000]
                w_attached in
  let twice := run default_config
                 [EvDetachClient (js "s1") (js "c1"); EvTimePasses 1000;
                  EvDetachClient (js "s1") (js "c1")]
                 w_attached in
  option_map clients (nth_error (heap once) 0) = Some []
  /\ option_map clients (nth_error (heap twice) 0) = Some []
  /\ option_map disconnectedAt (nth_error (heap once) 0) = Some (Some 0%Z)
  /\ option_map disconnectedAt (nth_error (heap twice) 0) = Some (Some 1000%Z)
  /\ length (filter timer_pending (timers once)) = 1
  /\ length (filter timer_pending (timers twice)) = 2.
Proof. repeat split; reflexivity. Qed.

(** The timer the second [detachClient] orphans can no longer be cleared:
    after a client attaches again it still fires and removes the session. *)
Lemma orphaned_timer_reaps_attached_session :
  let w' := run default_config
              [EvDetachClient (js "s1") (js "c1");
               EvDetachClient (js "s1") (js "c1");
               EvAttachClient (js "s1") (js "c2");
               EvTimePasses 1200000;
               EvTimeout 0]
              w_attached in
  getSession (js "s1") w_attached <> None
  /\ option_map clients
       (nth_error (heap (run default_config
                           [EvDetachClient (js "s1") (js "c1");
                            EvDetachClient (js "s1") (js "c1");
                            EvAttachClient (js "s1") (js "c2")]
                           w_attached)) 0) = Some [js "c2"]
  /\ getSession (js "s1") w' = None.
Proof. split; [discriminate|]. split; reflexivity. Qed.

End Lifecycle.

Module Terminal.
Import SessionManager WsRoutes Scenario.

(** C8, as the code has it. A frame that does not parse draws exactly one
    error frame, "Invalid message format", and nothing else: the socket is
    not closed and neither the connection nor the manager changes.  From a
    client that has not attached, an input or a restart frame draws the one
    error frame "Not attached to session"; a resize frame is dropped
    without any answer. *)
Theorem ws_malformed_and_unattached_frames
    cfg sessionId spawn (frame : option json) (c : Conn) (w : World) :
  (parse_frame frame = None ->
   on_message cfg sessionId spawn frame c w
   = ([Send (MsgError (js "Invalid message format"))], set_isAlive true c, w))
  /\ (currentSessionId c = None ->
      (exists data, parse_frame frame = Some (CInput data))
      \/ parse_frame frame = Some CRestart ->
      on_message cfg sessionId spawn frame c w
      = ([Send (MsgError (js "Not attached to session"))],
         set_isAlive true c, w))
  /\ (currentSessionId c = None ->
      (exists cols rows, parse_frame frame = Some (CResize cols rows)) ->
      on_message cfg sessionId spawn frame c w = ([], set_isAlive true c, w)).
Proof.
  unfold on_message. split; [|split].
  - intros ->. reflexivity.
  - intros Hc [[data ->] | ->]; simpl; rewrite Hc; reflexivity.
  - intros Hc [cols [rows ->]]. simpl. rewrite Hc. reflexivity.
Qed.

Lemma ws_malformed_and_unattached_frames_witness :
  on_message default_config (js "s2") SpawnReturns
    (Some (JObject [(js "type", JString (js "resize"))])) fresh_conn w_created
  = ([Send (MsgError (js "Invalid message format"))],
     set_isAlive true fresh_conn, w_created)
  /\ on_message default_config (js "s2") SpawnReturns
       (Some (JObject [(js "type", JString (js "restart"))]))
       fresh_conn w_created
     = ([Send (MsgError (js "Not attached to session"))],
        set_isAlive true fresh_conn, w_created)
  /\ on_message default_config (js "s2") SpawnReturns resize_frame
       fresh_conn w_created
     = ([], set_isAlive true fresh_conn, w_created).
Proof.
  split; [|split].
  - apply (ws_malformed_and_unattached_frames default_config (js "s2")
             SpawnReturns _ fresh_conn w_created).
    reflexivity.
  - apply (ws_malformed_and_unattached_frames default_config (js "s2")
             SpawnReturns _ fresh_conn w_created);
      [reflexivity | right; reflexivity].
  - apply (ws_malformed_and_unattached_frames default_config (js "s2")
             SpawnReturns _ fresh_conn w_created);
      [reflexivity | do 2 eexists; reflexivity].
Defined.

(** C8 fails as stated: a well-formed resize frame from a client that has
    not attached draws no frame at all. *)
Lemma unattached_resize_gets_no_error :
  parse_frame resize_frame = Some (CResize (80 # 1)%Q (24 # 1)%Q)
  /\ currentSessionId fresh_conn = None
  /\ fst (fst (on_message default_config (js "s2") SpawnReturns resize_frame
                 fresh_conn w_created)) = [].
Proof. repeat split; reflexivity. Qed.

End Terminal.

Module Witnesses.
Import SessionManager ApiRoutes Invariants Scenario Capacity
  ReplayBufferInvariant.

Lemma session_capacity_witness :
  let w := run default_config four_requests empty_world in
  (forall email,
      count_leb (sessions_owned_by email w)
        (MAX_SESSIONS_PER_USER default_config) = true)
  /\ count_leb (length (sessions w)) (MAX_TOTAL_SESSIONS default_config)
     = true.
Proof.
  exact (proj1 (session_capacity default_config eq_refl eq_refl)
           four_requests).
Defined.

Lemma replay_buffer_is_bounded_suffix_witness :
  exists e',
    nth_error
      (heap (fold_left (fun w' d => onData 0 d w') [js "ab"; js "c"]
               w_attached))
      (pty_entry demo_proc) = Some e'
    /\ length (outputBuffer e') <= 128 * 1024
    /\ outputBuffer e' = slice_last (128 * 1024) (concat [js "ab"; js "c"])
    /\ exists dropped, concat [js "ab"; js "c"] = dropped ++ outputBuffer e'.
Proof.
  apply (replay_buffer_is_bounded_suffix w_attached 0 demo_proc demo_entry
           [js "ab"; js "c"]); reflexivity.
Defined.

End Witnesses.
Module PathSafetyProps.
Import NodePath NodeFs FileService FsScenario JsFacts.

(** The first piece of a split string starts it; every later piece follows
    a separator. *)
Lemma split_head_prefix (sep : N) (s : jsstring) :
  startsWith (hd [] (split sep s)) s = true.
Proof.
  induction s as [|c s IH]; simpl; [reflexivity|].
  destruct (N.eqb c sep); [reflexivity|].
  destruct (split sep s) as [|seg segs]; simpl in *;
    now rewrite N.eqb_refl.
Qed.

Lemma includes_cons (p : jsstring) (c : N) (s : jsstring) :
  includes p s = true -> includes p (c :: s) = true.
Proof. intros H. simpl. rewrite H. apply orb_true_r. Qed.

Lemma split_tail_after_sep (sep : N) (seg s : jsstring) :
  In seg (tl (split sep s)) -> includes (sep :: seg) s = true.
Proof.
  induction s as [|c s IH]; simpl; [tauto|].
  destruct (N.eqb c sep) eqn:E.
  - apply N.eqb_eq in E. subst c. simpl. intros Hin. rewrite N.eqb_refl.
    destruct (split sep s) as [|seg0 segs] eqn:Es; [destruct Hin|].
    destruct Hin as [<- | Hin].
    + pose proof (split_head_prefix sep s) as Hp. rewrite Es in Hp.
      simpl in Hp. rewrite Hp. reflexivity.
    + assert (H : includes (sep :: seg) s = true)
        by (apply IH; exact Hin).
      rewrite H. apply orb_true_r.
  - destruct (split sep s) as [|seg0 segs] eqn:Es; simpl; [tauto|].
    intros Hin. rewrite (IH Hin). apply orb_true_r.
Qed.

Lemma split_In_cases (sep : N) (seg s : jsstring) :
  In seg (split sep s) ->
  startsWith seg s = true \/ includes (sep :: seg) s = true.
Proof.
  intros Hin.
  pose proof (split_head_prefix sep s) as Hp.
  destruct (split sep s) as [|seg0 segs] eqn:Es; [destruct Hin|].
  destruct Hin as [<- | Hin].
  - left. exact Hp.
  - right. apply split_tail_after_sep. now rewrite Es.
Qed.

(** The lexical part of path safety: an empty path, an absolute path, a
    path whose normal form has a ".." segment or starts with a separator
    is refused by [validateRelativePath]. *)
Lemma validateRelativePath_refuses (p : jsstring) :
  p = []
  \/ isAbsolute p = true
  \/ In (js "..") (split SLASH (normalize p))
  \/ startsWith (js "/") (normalize p) = true ->
  exists message, validateRelativePath p = Some (PathSecurityError message).
Proof.
  intros H. unfold validateRelativePath.
  destruct p as [|c p]; [eexists; reflexivity|].
  destruct (isAbsolute (c :: p)); [eexists; reflexivity|].
  destruct H as [H | [H | [H | H]]]; try discriminate.
  - apply split_In_cases in H. destruct H as [H | H].
    + rewrite H. eexists. reflexivity.
    + change (SLASH :: js "..") with (js "/..") in H. rewrite H.
      rewrite orb_true_r. eexists. reflexivity.
  - rewrite H. match goal with
    | |- context [if ?b then _ else _] => destruct b
    end; eexists; reflexivity.
Qed.

(** What [validateRelativePath] refuses, [resolveFilePath] and [readFile]
    refuse with the same error, whatever the tree. *)
Lemma readFile_refuses_unsafe_path cfg (F : fs) (repo p : jsstring) e :
  validateRelativePath p = Some e ->
  resolveFilePath F repo p = Raise e /\ readFile cfg F repo p = Raise e.
Proof.
  intros H. unfold readFile, resolveFilePath. rewrite H. split; reflexivity.
Qed.

(** What the boundary check of [resolveFilePath] ensures: the path it
    returns has the repository path as a prefix of its characters. *)
Lemma resolveFilePath_prefix (F : fs) (repo p q : jsstring) :
  resolveFilePath F repo p = Return q ->
  startsWith (normalize repo) (normalize q) = true.
Proof.
  unfold resolveFilePath.
  destruct (validateRelativePath p); [discriminate|].
  destruct (realpath F (join repo p)) as [rp | [| | | |]]; try discriminate.
  - destruct (startsWith (normalize repo) (normalize rp)) eqn:E;
      simpl; [|discriminate].
    intros H. inversion H; subst. exact E.
  - destruct (realpath F (dirname (join repo p))) as [rp | code];
      [|discriminate].
    destruct (startsWith (normalize repo) (normalize _)) eqn:E;
      simpl; [|discriminate].
    intros H. inversion H; subst. exact E.
Qed.

(** One name list is under another when it extends it name by name. *)
Lemma sibling_is_not_under_repo :
  NodeFs.resolve sibling_tree (js "/r/demo/evil/passwd")
  = Found [js "r"; js "demo-secret"; js "passwd"]
      (File (Utf8.encode (js "secret")))
  /\ NodeFs.resolve sibling_tree (js "/r/demo")
     = Found [js "r"; js "demo"] Dir
  /\ firstn 2 [js "r"; js "demo-secret"; js "passwd"] <> [js "r"; js "demo"].
Proof. repeat split; try reflexivity. discriminate. Qed.

(** C1 fails on the code: in a repository /r/demo that holds a symbolic
    link "evil" to the sibling directory /r/demo-secret, the real path of
    "evil/passwd" is /r/demo-secret/passwd, outside the repository, and
    [readFile] returns the contents of that file; [resolveFilePath] compares
    the characters of the paths and "/r/demo-secret/passwd" starts with
    "/r/demo". *)
Theorem readFile_follows_link_to_sibling :
  realpath sibling_tree (js "/r/demo/evil/passwd")
    = inl (js "/r/demo-secret/passwd")
  /\ realpath sibling_tree (js "/r/demo") = inl (js "/r/demo")
  /\ resolveFilePath sibling_tree (js "/r/demo") (js "evil/passwd")
     = Return (js "/r/demo-secret/passwd")
  /\ readFile default_config sibling_tree (js "/r/demo") (js "evil/passwd")
     = Return (mkFileResponse (js "evil/passwd") (js "secret")).
Proof. repeat split; reflexivity. Qed.

(** A link that leaves the prefix is caught. *)
Lemma readFile_refuses_link_to_etc :
  readFile default_config escape_tree (js "/r/demo") (js "evil/passwd")
  = Raise (PathSecurityError
             (js "Path escapes repository boundary (symlink detected)")).
Proof. reflexivity. Qed.

End PathSafetyProps.
Module Utf8Facts.
Import Utf8.

Local Open Scope N_scope.

(** Division and remainder by a constant, for [lia]. *)
Ltac ndm x k :=
  let H1 := fresh in
  let H2 := fresh in
  pose proof (N.div_mod x k ltac:(discriminate)) as H1;
  pose proof (N.mod_lt x k ltac:(discriminate)) as H2;
  generalize dependent (N.div x k);
  generalize dependent (N.modulo x k); intros.

Lemma in_range_spec (lo hi c : N) :
  in_range lo hi c = true <-> lo <= c <= hi.
Proof. unfold in_range. rewrite andb_true_iff, !N.leb_le. tauto. Qed.

Lemma in_range_false (lo hi c : N) :
  in_range lo hi c = false <-> c < lo \/ hi < c.
Proof.
  unfold in_range. rewrite andb_false_iff, !N.leb_gt. tauto.
Qed.

(** Decides the test the decoder is at. *)
Ltac decide_test :=
  cbv iota;
  match goal with
  | |- (if N.ltb ?a ?b then _ else _) = _ =>
      first [ rewrite (proj2 (N.ltb_lt a b)) by lia
            | rewrite (proj2 (N.ltb_ge a b)) by lia ]
  | |- (if in_range ?lo ?hi ?c then _ else _) = _ =>
      first [ rewrite (proj2 (in_range_spec lo hi c)) by lia
            | rewrite (proj2 (in_range_false lo hi c)) by lia ]
  end.

Lemma decode_one (b : N) (r : list N) :
  b < 128 -> decode (b :: r) = b :: decode r.
Proof. intros H. cbn [decode]. now decide_test. Qed.

Lemma decode_two (b b1 : N) (r : list N) :
  194 <= b <= 223 -> 128 <= b1 <= 191 ->
  decode (b :: b1 :: r) = ((b - 192) * 64 + (b1 - 128)) :: decode r.
Proof.
  intros Hb H1. cbn [decode]. unfold is_continuation.
  repeat decide_test. reflexivity.
Qed.

Lemma decode_three (b b1 b2 : N) (r : list N) :
  224 <= b <= 239 -> 128 <= b1 <= 191 -> 128 <= b2 <= 191 ->
  (b = 224 -> 160 <= b1) -> (b = 237 -> b1 <= 159) ->
  decode (b :: b1 :: b2 :: r)
  = ((b - 224) * 4096 + (b1 - 128) * 64 + (b2 - 128)) :: decode r.
Proof.
  intros Hb H1 H2 Hlo Hhi. cbn [decode]. unfold is_continuation.
  destruct (N.eqb_spec b 224) as [E1|E1];
    destruct (N.eqb_spec b 237) as [E2|E2];
    try specialize (Hlo E1); try specialize (Hhi E2);
    try (exfalso; lia);
    repeat decide_test; reflexivity.
Qed.

Lemma decode_four (b b1 b2 b3 : N) (r : list N) :
  240 <= b <= 244 -> 128 <= b1 <= 191 -> 128 <= b2 <= 191 ->
  128 <= b3 <= 191 ->
  (b = 240 -> 144 <= b1) -> (b = 244 -> b1 <= 143) ->
  decode (b :: b1 :: b2 :: b3 :: r)
  = units_of_code_point
      ((b - 240) * 262144 + (b1 - 128) * 4096 + (b2 - 128) * 64 + (b3 - 128))
    ++ decode r.
Proof.
  intros Hb H1 H2 H3 Hlo Hhi. cbn [decode]. unfold is_continuation.
  destruct (N.eqb_spec b 240) as [E1|E1];
    destruct (N.eqb_spec b 244) as [E2|E2];
    try specialize (Hlo E1); try specialize (Hhi E2);
    try (exfalso; lia);
    repeat decide_test; reflexivity.
Qed.

Lemma two_bytes (c : N) :
  128 <= c < 2048 ->
  194 <= 192 + c / 64 <= 223 /\ 128 <= 128 + c mod 64 <= 191
  /\ (192 + c / 64 - 192) * 64 + (128 + c mod 64 - 128) = c.
Proof. intros H. ndm c 64. lia. Qed.

Lemma div_4096 (x : N) : x / 4096 = x / 64 / 64.
Proof. now rewrite N.Div0.div_div. Qed.

Lemma div_262144 (x : N) : x / 262144 = x / 64 / 64 / 64.
Proof. now rewrite !N.Div0.div_div. Qed.

Lemma three_bytes (c : N) :
  2048 <= c < 65536 -> c < 55296 \/ 57343 < c ->
  224 <= 224 + c / 4096 <= 239
  /\ 128 <= 128 + (c / 64) mod 64 <= 191
  /\ 128 <= 128 + c mod 64 <= 191
  /\ (224 + c / 4096 = 224 -> 160 <= 128 + (c / 64) mod 64)
  /\ (224 + c / 4096 = 237 -> 128 + (c / 64) mod 64 <= 159)
  /\ (224 + c / 4096 - 224) * 4096 + (128 + (c / 64) mod 64 - 128) * 64
     + (128 + c mod 64 - 128) = c.
Proof.
  intros H Hs. rewrite !div_4096. ndm (c / 64) 64. ndm c 64. lia.
Qed.

Lemma four_bytes (c d cp : N) :
  55296 <= c <= 56319 -> 56320 <= d <= 57343 ->
  cp = 65536 + (c - 55296) * 1024 + (d - 56320) ->
  240 <= 240 + cp / 262144 <= 244
  /\ 128 <= 128 + (cp / 4096) mod 64 <= 191
  /\ 128 <= 128 + (cp / 64) mod 64 <= 191
  /\ 128 <= 128 + cp mod 64 <= 191
  /\ (240 + cp / 262144 = 240 -> 144 <= 128 + (cp / 4096) mod 64)
  /\ (240 + cp / 262144 = 244 -> 128 + (cp / 4096) mod 64 <= 143)
  /\ (240 + cp / 262144 - 240) * 262144
     + (128 + (cp / 4096) mod 64 - 128) * 4096
     + (128 + (cp / 64) mod 64 - 128) * 64 + (128 + cp mod 64 - 128) = cp
  /\ 65536 <= cp
  /\ 55296 + (cp - 65536) / 1024 = c
  /\ 56320 + (cp - 65536) mod 1024 = d.
Proof.
  intros Hc Hd Hcp.
  assert (Hr : 65536 <= cp < 1114112) by lia.
  assert (Hoff : cp - 65536 = (c - 55296) * 1024 + (d - 56320)) by lia.
  clear Hcp.
  assert (H1 : 55296 + (cp - 65536) / 1024 = c
               /\ 56320 + (cp - 65536) mod 1024 = d)
    by (ndm (cp - 65536) 1024; lia).
  clear Hoff Hc Hd. destruct H1 as [H1 H2].
  rewrite !div_262144, !div_4096.
  generalize dependent ((cp - 65536) / 1024).
  generalize dependent ((cp - 65536) mod 1024). intros.
  ndm (cp / 64 / 64) 64. ndm (cp / 64) 64. ndm cp 64. lia.
Qed.

(** Decoding the bytes of a well-formed string gives the string back. *)
Lemma decode_encode_bounded (n : nat) :
  forall s : jsstring,
    (length s <= n)%nat -> well_formed s = true -> decode (encode s) = s.
Proof.
  induction n as [|n IH]; intros s Hlen Hwf.
  - destruct s; [reflexivity|simpl in Hlen; lia].
  - destruct s as [|c s]; [reflexivity|].
    cbn [length] in Hlen. cbn [well_formed encode] in *.
    destruct (N.ltb_spec c 128) as [H1|H1].
    { assert (Hs : is_high_surrogate c = false)
        by (apply in_range_false; lia).
      rewrite Hs in Hwf. apply andb_true_iff in Hwf. destruct Hwf as [_ Hwf].
      rewrite decode_one by lia. f_equal. apply IH; [lia|exact Hwf]. }
    destruct (N.ltb_spec c 2048) as [H2|H2].
    { assert (Hs : is_high_surrogate c = false)
        by (apply in_range_false; lia).
      rewrite Hs in Hwf. apply andb_true_iff in Hwf. destruct Hwf as [_ Hwf].
      destruct (two_bytes c) as [Ha [Hb Hv]]; [lia|].
      rewrite decode_two by assumption. rewrite Hv.
      f_equal. apply IH; [lia|exact Hwf]. }
    destruct (is_high_surrogate c) eqn:Hs.
    { apply in_range_spec in Hs.
      destruct s as [|d s]; [discriminate|].
      apply andb_true_iff in Hwf. destruct Hwf as [Hd Hwf]. rewrite Hd.
      apply in_range_spec in Hd. cbn [length] in Hlen.
      destruct (four_bytes c d _ Hs Hd eq_refl)
        as [Ha [Hb [Hc [He [Hlo [Hhi [Hv [Hge [Hu1 Hu2]]]]]]]]].
      set (cp := 65536 + (c - 55296) * 1024 + (d - 56320)) in *.
      rewrite decode_four by assumption. rewrite Hv.
      unfold units_of_code_point.
      rewrite (proj2 (N.ltb_ge cp 65536)) by exact Hge.
      rewrite Hu1, Hu2. cbn [app]. do 2 f_equal.
      apply IH; [lia|exact Hwf]. }
    apply in_range_false in Hs.
    apply andb_true_iff in Hwf. destruct Hwf as [Hc Hwf].
    apply andb_true_iff in Hc. destruct Hc as [Hl Hr].
    apply negb_true_iff in Hl. rewrite Hl.
    apply in_range_false in Hl. apply N.ltb_lt in Hr.
    destruct (three_bytes c) as [Ha [Hb [Hc [Hlo [Hhi Hv]]]]]; [lia|lia|].
    rewrite decode_three by assumption. rewrite Hv.
    f_equal. apply IH; [lia|exact Hwf].
Qed.

Lemma decode_encode (s : jsstring) :
  well_formed s = true -> decode (encode s) = s.
Proof. apply (decode_encode_bounded (length s)). lia. Qed.

End Utf8Facts.
Module FsFacts.
Import NodePath NodeFs FsInvariants JsFacts.

Lemma path_eqb_eq (a b : path) : path_eqb a b = true <-> a = b.
Proof.
  revert b; induction a as [|x a IH]; intros [|y b]; simpl;
    try (split; [discriminate || reflexivity | discriminate || reflexivity]).
  rewrite andb_true_iff, eqb_eq, IH.
  split; [intros [-> ->]; reflexivity | intros H; inversion H; auto].
Qed.

Lemma path_eqb_refl (a : path) : path_eqb a a = true.
Proof. now apply path_eqb_eq. Qed.

Lemma path_eqb_neq (a b : path) : path_eqb a b = false <-> a <> b.
Proof.
  rewrite <- path_eqb_eq. destruct (path_eqb a b); split; congruence.
Qed.

Lemma lookup_set_node (F : fs) (p q : path) (n : node) :
  lookup (set_node F p n) q = if path_eqb q p then Some n else lookup F q.
Proof.
  induction F as [|[k m] F IH]; simpl.
  - reflexivity.
  - destruct (path_eqb p k) eqn:Epk; simpl.
    + apply path_eqb_eq in Epk. subst k.
      destruct (path_eqb q p); reflexivity.
    + destruct (path_eqb q k) eqn:Eqk.
      * apply path_eqb_eq in Eqk. subst k.
        assert (E : path_eqb q p = false)
          by (apply path_eqb_neq; apply path_eqb_neq in Epk; congruence).
        now rewrite E.
      * exact IH.
Qed.

(** The walk, one name at a time. *)
Lemma walk_nil (n : nat) (F : fs) (cur : path) :
  walk n F cur [] = Found cur Dir.
Proof. destruct n; reflexivity. Qed.

Lemma walk_cons (n : nat) (F : fs) (cur : path) (c : jsstring)
    (rest : list jsstring) :
  walk n F cur (c :: rest)
  = if Js.eqb c (js ".") then walk n F cur rest
    else if Js.eqb c (js "..") then walk n F (removelast cur) rest
    else
      match lookup F (cur ++ [c]) with
      | None => Missing cur c rest
      | Some Dir => walk n F (cur ++ [c]) rest
      | Some (File content) =>
          match rest with
          | [] => Found (cur ++ [c]) (File content)
          | _ => Failed ENOTDIR
          end
      | Some (Symlink target) =>
          match n with
          | O => Failed ELOOP
          | S n' =>
              walk n' F (if isAbsolute target then [] else cur)
                (components target ++ rest)
          end
      end.
Proof. destruct n; reflexivity. Qed.

#[local] Opaque walk.

(** The pieces of a split string hold no separator. *)
Lemma split_no_sep (sep : N) (s : jsstring) :
  Forall (fun seg => existsb (N.eqb sep) seg = false) (split sep s).
Proof.
  induction s as [|c s IH]; simpl.
  - repeat constructor.
  - destruct (N.eqb c sep) eqn:E.
    + constructor; [reflexivity|exact IH].
    + destruct (split sep s) as [|seg segs]; inversion IH; subst;
        repeat constructor; simpl; try rewrite N.eqb_sym, E; auto.
Qed.

Lemma is_slash_eqb (c : N) : is_slash c = N.eqb SLASH c.
Proof. unfold is_slash. apply N.eqb_sym. Qed.

Lemma existsb_is_slash (x : jsstring) :
  existsb is_slash x = existsb (N.eqb SLASH) x.
Proof.
  induction x as [|c x IH]; simpl; [reflexivity|].
  now rewrite IH, is_slash_eqb.
Qed.

Lemma components_name_ok (s : jsstring) :
  Forall (fun x => name_ok x = true) (components s).
Proof.
  unfold components.
  assert (H : Forall (fun x => name_ok x = true)
                (filter (fun s0 => negb (Js.eqb s0 [])) (split SLASH s))).
  { pose proof (split_no_sep SLASH s) as Hs.
    induction Hs as [|seg segs Hseg _ IH]; simpl; [constructor|].
    destruct (Js.eqb seg []) eqn:E; simpl; [exact IH|].
    constructor; [|exact IH].
    unfold name_ok. now rewrite E, existsb_is_slash, Hseg. }
  destruct (filter _ _) as [|x l] eqn:E; [constructor|].
  apply Forall_app. split; [exact H|].
  destruct (endsWith [SLASH] s); repeat constructor.
Qed.

(** Canonical directory paths. *)
Lemma dir_chain_nil (F : fs) : dir_chain F [].
Proof.
  split; [constructor|].
  intros q x rest H. destruct q; discriminate.
Qed.

Lemma dir_chain_snoc (F : fs) (p : path) (x : jsstring) :
  dir_chain F p -> proper_name x = true -> lookup F (p ++ [x]) = Some Dir ->
  dir_chain F (p ++ [x]).
Proof.
  intros [Hp Hd] Hx Hl. split.
  - apply Forall_app. split; [exact Hp|repeat constructor; exact Hx].
  - intros q y rest H.
    destruct (rev rest) as [|z rrest] eqn:Er.
    + apply (f_equal (@rev _)) in Er. rewrite rev_involutive in Er.
      simpl in Er. subst rest.
      apply app_inj_tail in H. destruct H as [-> ->]. exact Hl.
    + apply (f_equal (@rev _)) in Er. rewrite rev_involutive in Er.
      simpl in Er. subst rest.
      change (q ++ y :: rev rrest ++ [z])
        with (q ++ (y :: rev rrest) ++ [z]) in H.
      rewrite app_assoc in H. apply app_inj_tail in H.
      destruct H as [-> _]. eapply Hd. reflexivity.
Qed.

Lemma dir_chain_prefix (F : fs) (p q : path) :
  dir_chain F (p ++ q) -> dir_chain F p.
Proof.
  intros [Hp Hd]. split.
  - apply Forall_app in Hp. tauto.
  - intros q0 x rest H. apply (Hd q0 x (rest ++ q)).
    rewrite H, <- app_assoc. reflexivity.
Qed.

Lemma dir_chain_removelast (F : fs) (p : path) :
  dir_chain F p -> dir_chain F (removelast p).
Proof.
  intros H. destruct p as [|x p] using rev_ind; [exact H|].
  rewrite removelast_last. now apply dir_chain_prefix in H.
Qed.

Lemma dir_chain_last (F : fs) (p : path) (x : jsstring) :
  dir_chain F (p ++ [x]) ->
  proper_name x = true /\ lookup F (p ++ [x]) = Some Dir.
Proof.
  intros [Hp Hd]. split.
  - apply Forall_app in Hp. destruct Hp as [_ Hx]. now inversion Hx.
  - now apply (Hd p x []).
Qed.

Lemma proper_name_inv (x : jsstring) :
  proper_name x = true ->
  name_ok x = true /\ Js.eqb x (js ".") = false /\ Js.eqb x (js "..") = false.
Proof.
  unfold proper_name. rewrite !andb_true_iff, !negb_true_iff. tauto.
Qed.

Lemma proper_name_intro (x : jsstring) :
  name_ok x = true -> Js.eqb x (js ".") = false ->
  Js.eqb x (js "..") = false -> proper_name x = true.
Proof. unfold proper_name. intros -> -> ->. reflexivity. Qed.

(** Where a walk from a canonical directory ends. *)
Lemma walk_sound (n : nat) (F : fs) :
  forall (names : list jsstring) (cur : path),
    dir_chain F cur ->
    Forall (fun x => name_ok x = true) names ->
    walk_result_ok F (walk n F cur names).
Proof.
  induction n as [|n IHn];
    (induction names as [|c rest IHr]; intros cur Hc Hn;
     [rewrite walk_nil; exact Hc|]);
    inversion Hn as [|? ? Hok Hrest]; subst;
    rewrite walk_cons;
    (destruct (Js.eqb c (js ".")) eqn:E1; [now apply IHr|]);
    (destruct (Js.eqb c (js "..")) eqn:E2;
     [apply IHr; [now apply dir_chain_removelast|exact Hrest]|]);
    pose proof (proper_name_intro c Hok E1 E2) as Hp;
    (destruct (lookup F (cur ++ [c])) as [[content| |target]|] eqn:El;
     [ destruct rest; simpl; [exists cur, c; auto|now left]
     | apply IHr; [now apply dir_chain_snoc|exact Hrest]
     |
     | simpl; auto ]).
  - now right.
  - apply IHn.
    + destruct (isAbsolute target); [apply dir_chain_nil|exact Hc].
    + apply Forall_app. split; [apply components_name_ok|exact Hrest].
Qed.

(** Walking down a canonical directory path uses no link. *)
Lemma walk_chain (n : nat) (F : fs) (p : path) :
  forall (cur : path) (names : list jsstring),
    dir_chain F (cur ++ p) ->
    walk n F cur (p ++ names) = walk n F (cur ++ p) names.
Proof.
  induction p as [|x p IH]; intros cur names H; simpl.
  - now rewrite app_nil_r.
  - rewrite walk_cons.
    assert (Hx : dir_chain F (cur ++ [x])).
    { apply (dir_chain_prefix F (cur ++ [x]) p).
      now rewrite <- app_assoc. }
    apply dir_chain_last in Hx. destruct Hx as [Hp Hl].
    apply proper_name_inv in Hp. destruct Hp as [_ [E1 E2]].
    rewrite E1, E2, Hl.
    replace (cur ++ x :: p) with ((cur ++ [x]) ++ p) in *
      by (now rewrite <- app_assoc).
    now apply IH.
Qed.

(** A walk that does not run out of links ends the same with more. *)
Lemma walk_mono (n : nat) (F : fs) :
  forall (names : list jsstring) (cur : path),
    walk n F cur names <> Failed ELOOP ->
    walk (S n) F cur names = walk n F cur names.
Proof.
  induction n as [|n IHn];
    (induction names as [|c rest IHr]; intros cur H;
     [now rewrite !walk_nil|]);
    rewrite walk_cons in H; rewrite (walk_cons (S _)), (walk_cons _ F cur c);
    (destruct (Js.eqb c (js ".")) eqn:E1; [now apply IHr|]);
    (destruct (Js.eqb c (js "..")) eqn:E2; [now apply IHr|]);
    (destruct (lookup F (cur ++ [c])) as [[content| |target]|] eqn:El;
     [ reflexivity | now apply IHr | | reflexivity ]).
  - congruence.
  - now apply IHn.
Qed.

Lemma walk_more (m n : nat) (F : fs) (cur : path) (names : list jsstring) :
  m <= n ->
  walk m F cur names <> Failed ELOOP ->
  walk n F cur names = walk m F cur names.
Proof.
  intros Hle H. induction Hle as [|n Hle IH]; [reflexivity|].
  rewrite walk_mono; [exact IH|]. now rewrite IH.
Qed.


(** A walk continued with more names. *)
Lemma walk_app (n : nat) (F : fs) (ys : list jsstring) :
  forall (names : list jsstring) (cur : path),
    match walk n F cur names with
    | Found p Dir =>
        exists m, m <= n /\ walk n F cur (names ++ ys) = walk m F p ys
    | Found p (File content) =>
        walk n F cur (names ++ ys)
        = match ys with
          | [] => Found p (File content)
          | _ => Failed ENOTDIR
          end
    | Found _ (Symlink _) => True
    | Missing parent name rest =>
        walk n F cur (names ++ ys) = Missing parent name (rest ++ ys)
    | Failed e => walk n F cur (names ++ ys) = Failed e
    end.
Proof.
  induction n as [|n IHn];
    (induction names as [|c rest IHr]; intros cur;
     [rewrite walk_nil; eexists; split; [apply Nat.le_refl|reflexivity]|]);
    simpl app; rewrite (walk_cons _ F cur c rest),
                       (walk_cons _ F cur c (rest ++ ys));
    (destruct (Js.eqb c (js ".")) eqn:E1; [now apply IHr|]);
    (destruct (Js.eqb c (js "..")) eqn:E2; [now apply IHr|]);
    (destruct (lookup F (cur ++ [c])) as [[content| |target]|] eqn:El;
     [ destruct rest; simpl; [reflexivity|reflexivity]
     | now apply IHr
     |
     | reflexivity ]).
  - reflexivity.
  - specialize (IHn (components target ++ rest)
                  (if isAbsolute target then [] else cur)).
    rewrite <- app_assoc in IHn.
    destruct (walk n F _ (components target ++ rest)) as [p [x| |t]| |];
      try exact IHn.
    destruct IHn as [m [Hm H]]. exists m. split; [lia|exact H].
Qed.

(** A walk in a tree where the content of one file is replaced. *)
Lemma walk_content_update (F : fs) (at_ : path) (old new : list N) :
  lookup F at_ = Some (File old) ->
  forall (n : nat) (names : list jsstring) (cur : path),
    walk n (set_node F at_ (File new)) cur names
    = match walk n F cur names with
      | Found q (File x) => Found q (File (if path_eqb q at_ then new else x))
      | r => r
      end.
Proof.
  intros Hold.
  induction n as [|n IHn];
    (induction names as [|c rest IHr]; intros cur;
     [now rewrite !walk_nil|]);
    rewrite (walk_cons _ F), (walk_cons _ (set_node _ _ _));
    (destruct (Js.eqb c (js ".")) eqn:E1; [now apply IHr|]);
    (destruct (Js.eqb c (js "..")) eqn:E2; [now apply IHr|]);
    rewrite lookup_set_node;
    (destruct (path_eqb (cur ++ [c]) at_) eqn:Eq;
     [ apply path_eqb_eq in Eq; rewrite Eq, Hold;
       destruct rest; [now rewrite path_eqb_refl|reflexivity]
     | ]);
    (destruct (lookup F (cur ++ [c])) as [[content| |target]|] eqn:El;
     [ destruct rest; [now rewrite Eq|reflexivity]
     | now apply IHr
     |
     | reflexivity ]).
  - reflexivity.
  - apply IHn.
Qed.

(** A walk in a tree where a file is added at a missing name. *)
Lemma walk_add (F : fs) (at_ : path) (new : list N) :
  lookup F at_ = None ->
  forall (n : nat) (names : list jsstring) (cur : path),
    walk n (set_node F at_ (File new)) cur names
    = match walk n F cur names with
      | Missing parent name rest =>
          if path_eqb (parent ++ [name]) at_ then
            match rest with
            | [] => Found at_ (File new)
            | _ => Failed ENOTDIR
            end
          else Missing parent name rest
      | r => r
      end.
Proof.
  intros Hnone.
  induction n as [|n IHn];
    (induction names as [|c rest IHr]; intros cur;
     [now rewrite !walk_nil|]);
    rewrite (walk_cons _ F), (walk_cons _ (set_node _ _ _));
    (destruct (Js.eqb c (js ".")) eqn:E1; [now apply IHr|]);
    (destruct (Js.eqb c (js "..")) eqn:E2; [now apply IHr|]);
    rewrite lookup_set_node;
    (destruct (path_eqb (cur ++ [c]) at_) eqn:Eq;
     [ pose proof Eq as Eq'; apply path_eqb_eq in Eq';
       assert (Hl : lookup F (cur ++ [c]) = None)
         by (rewrite Eq'; exact Hnone);
       rewrite Hl, Eq, Eq'; destruct rest; reflexivity
     | ]);
    (destruct (lookup F (cur ++ [c])) as [[content| |target]|] eqn:El;
     [ destruct rest; reflexivity
     | now apply IHr
     |
     | now rewrite Eq ]).
  - reflexivity.
  - apply IHn.
Qed.

End FsFacts.

(** ** Path strings and lists of names *)

Module PathStrings.
Import NodePath NodeFs FsInvariants JsFacts FsFacts.

Lemma name_ok_inv (x : jsstring) :
  name_ok x = true -> x <> [] /\ existsb (N.eqb SLASH) x = false.
Proof.
  unfold name_ok. rewrite andb_true_iff, !negb_true_iff, existsb_is_slash.
  intros [H1 H2]. split; [|exact H2]. intros ->. discriminate.
Qed.

Lemma proper_name_ok (x : jsstring) : proper_name x = true -> name_ok x = true.
Proof. intros H. now apply proper_name_inv in H. Qed.

Lemma Forall_proper_ok (l : list jsstring) :
  Forall (fun x => proper_name x = true) l ->
  Forall (fun x => name_ok x = true) l.
Proof. apply Forall_impl. exact proper_name_ok. Qed.

Lemma split_single (sep : N) (x : jsstring) :
  existsb (N.eqb sep) x = false -> split sep x = [x].
Proof.
  induction x as [|c x IH]; simpl; [reflexivity|].
  rewrite orb_false_iff. intros [Hc Hx].
  rewrite N.eqb_sym, Hc, (IH Hx). reflexivity.
Qed.

Lemma split_app_sep (sep : N) (x s : jsstring) :
  existsb (N.eqb sep) x = false ->
  split sep (x ++ sep :: s) = x :: split sep s.
Proof.
  induction x as [|c x IH]; simpl.
  - now rewrite N.eqb_refl.
  - rewrite orb_false_iff. intros [Hc Hx].
    rewrite N.eqb_sym, Hc, (IH Hx). reflexivity.
Qed.

Lemma join_cons2 (sep : jsstring) (p q : jsstring) (ps : list jsstring) :
  Js.join sep (p :: q :: ps) = p ++ sep ++ Js.join sep (q :: ps).
Proof. reflexivity. Qed.

Lemma join_cons2_char (c : N) (p q : jsstring) (ps : list jsstring) :
  Js.join [c] (p :: q :: ps) = p ++ c :: Js.join [c] (q :: ps).
Proof. reflexivity. Qed.

Lemma join_snoc (sep : jsstring) (l : list jsstring) (b : jsstring) :
  l <> [] -> Js.join sep (l ++ [b]) = Js.join sep l ++ sep ++ b.
Proof.
  induction l as [|p l IH]; [congruence|]. intros _.
  destruct l as [|q l]; [reflexivity|].
  change ((p :: q :: l) ++ [b]) with (p :: (q :: l) ++ [b]).
  simpl app at 1. rewrite join_cons2.
  change (q :: l ++ [b]) with ((q :: l) ++ [b]).
  rewrite IH by discriminate. rewrite join_cons2.
  now rewrite <- !app_assoc.
Qed.

Lemma split_join (l : list jsstring) :
  Forall (fun x => name_ok x = true) l -> l <> [] ->
  split SLASH (Js.join [SLASH] l) = l.
Proof.
  induction l as [|p l IH]; [congruence|]. intros H _.
  inversion H as [|? ? Hp Hl]; subst.
  apply name_ok_inv in Hp. destruct Hp as [_ Hp].
  destruct l as [|q l]; [now apply split_single|].
  rewrite join_cons2_char.
  rewrite split_app_sep by exact Hp.
  rewrite IH; [reflexivity|exact Hl|discriminate].
Qed.

Lemma join_nonempty (l : list jsstring) :
  Forall (fun x => name_ok x = true) l -> l <> [] ->
  Js.join [SLASH] l <> [].
Proof.
  intros H Hl. destruct l as [|p l]; [congruence|].
  inversion H as [|? ? Hp _]; subst. apply name_ok_inv in Hp.
  destruct Hp as [Hp _]. destruct l; simpl.
  - exact Hp.
  - destruct p; [congruence|discriminate].
Qed.

Lemma filter_nonempty_names (l : list jsstring) :
  Forall (fun x => name_ok x = true) l ->
  filter (fun s => negb (Js.eqb s [])) l = l.
Proof.
  induction 1 as [|x l Hx _ IH]; simpl; [reflexivity|].
  apply name_ok_inv in Hx. destruct Hx as [Hx _].
  destruct x; [congruence|]. simpl. now rewrite IH.
Qed.

Lemma endsWith_slash_snoc (s : jsstring) (c : N) :
  endsWith [SLASH] (s ++ [c]) = N.eqb SLASH c.
Proof.
  unfold endsWith. rewrite rev_app_distr. simpl. apply andb_true_r.
Qed.

(** A name ends with a character that is no separator. *)
Lemma name_last (x : jsstring) :
  name_ok x = true ->
  exists x0 c, x = x0 ++ [c] /\ N.eqb SLASH c = false.
Proof.
  intros H. apply name_ok_inv in H. destruct H as [Hne Hs].
  destruct x as [|d x] using rev_ind; [congruence|].
  exists x, d. split; [reflexivity|].
  rewrite existsb_app in Hs. simpl in Hs.
  apply orb_false_iff in Hs. destruct Hs as [_ Hs].
  now apply orb_false_iff in Hs.
Qed.

Lemma render_snoc (l : list jsstring) (b : jsstring) :
  render (l ++ [b])
  = match l with
    | [] => SLASH :: b
    | _ => render l ++ SLASH :: b
    end.
Proof.
  unfold render. destruct l as [|p l]; [reflexivity|].
  rewrite join_snoc by discriminate. reflexivity.
Qed.

Lemma endsWith_render (l : list jsstring) :
  Forall (fun x => name_ok x = true) l -> l <> [] ->
  endsWith [SLASH] (render l) = false.
Proof.
  intros H Hl. destruct l as [|b l] using rev_ind; [congruence|].
  apply Forall_app in H. destruct H as [_ Hb]. inversion Hb; subst.
  destruct (name_last b) as [b0 [c [-> Hc]]]; [assumption|].
  rewrite render_snoc.
  destruct l.
  - change (SLASH :: b0 ++ [c]) with ((SLASH :: b0) ++ [c]).
    now rewrite endsWith_slash_snoc.
  - change (render (j :: l) ++ SLASH :: b0 ++ [c])
      with (render (j :: l) ++ (SLASH :: b0) ++ [c]).
    rewrite app_assoc. now rewrite endsWith_slash_snoc.
Qed.

Lemma split_slash_cons (s : jsstring) :
  split SLASH (SLASH :: s) = [] :: split SLASH s.
Proof. reflexivity. Qed.

Lemma split_render (l : list jsstring) :
  Forall (fun x => name_ok x = true) l -> l <> [] ->
  split SLASH (render l) = [] :: l.
Proof.
  intros H Hl. unfold render. rewrite split_slash_cons.
  now rewrite split_join.
Qed.

Lemma components_render (l : list jsstring) :
  Forall (fun x => name_ok x = true) l ->
  components (render l) = l.
Proof.
  intros H. destruct l as [|p l]; [reflexivity|].
  unfold components.
  rewrite split_render by (assumption || discriminate).
  rewrite endsWith_render by (assumption || discriminate).
  change (filter (fun s => negb (Js.eqb s [])) ([] :: p :: l))
    with (filter (fun s => negb (Js.eqb s [])) (p :: l)).
  rewrite (filter_nonempty_names _ H).
  now rewrite app_nil_r.
Qed.

Lemma components_render_slash (l : list jsstring) :
  Forall (fun x => name_ok x = true) l -> l <> [] ->
  components (render l ++ [SLASH]) = l ++ [js "."].
Proof.
  intros H Hl. unfold components.
  rewrite endsWith_slash_snoc, N.eqb_refl.
  unfold render.
  change ((SLASH :: Js.join [SLASH] l) ++ [SLASH])
    with (SLASH :: (Js.join [SLASH] l ++ [SLASH])).
  rewrite split_slash_cons.
  assert (Hs : split SLASH (Js.join [SLASH] l ++ [SLASH]) = l ++ [[]]).
  { induction H as [|p l Hp Hl' IH]; [congruence|].
    apply name_ok_inv in Hp. destruct Hp as [_ Hp].
    destruct l as [|q l].
    - simpl Js.join. now rewrite split_app_sep.
    - rewrite join_cons2_char, <- app_assoc.
      change ((SLASH :: Js.join [SLASH] (q :: l)) ++ [SLASH])
        with (SLASH :: (Js.join [SLASH] (q :: l) ++ [SLASH])).
      rewrite split_app_sep by exact Hp.
      now rewrite IH. }
  rewrite Hs.
  change (filter (fun s => negb (Js.eqb s [])) ([] :: l ++ [[]]))
    with (filter (fun s => negb (Js.eqb s [])) (l ++ [[]])).
  rewrite filter_app, (filter_nonempty_names _ H).
  change (filter (fun s => negb (Js.eqb s [])) [[]]) with (@nil jsstring).
  rewrite app_nil_r.
  destruct l; [congruence|reflexivity].
Qed.


Lemma drop_while_all (f : N -> bool) (a b : jsstring) :
  Forall (fun c => f c = true) a -> drop_while f (a ++ b) = drop_while f b.
Proof. induction 1 as [|c a Hc _ IH]; simpl; [reflexivity|now rewrite Hc]. Qed.

Lemma take_while_all (f : N -> bool) (a b : jsstring) :
  Forall (fun c => f c = true) a ->
  match b with
  | [] => True
  | c :: _ => f c = false
  end ->
  take_while f (a ++ b) = a.
Proof.
  intros Ha Hb. induction Ha as [|c a Hc _ IH]; simpl.
  - destruct b as [|c b]; [reflexivity|]. simpl. now rewrite Hb.
  - now rewrite Hc, IH.
Qed.

Lemma name_chars (x : jsstring) :
  name_ok x = true -> Forall (fun c => negb (is_slash c) = true) x.
Proof.
  intros H. apply name_ok_inv in H. destruct H as [_ H].
  rewrite <- existsb_is_slash in H.
  induction x as [|c x IH]; [constructor|].
  simpl in H. apply orb_false_iff in H. destruct H as [Hc Hx].
  constructor; [now rewrite Hc|now apply IH].
Qed.

Lemma name_chars_rev (x : jsstring) :
  name_ok x = true -> Forall (fun c => negb (is_slash c) = true) (rev x).
Proof. intros H. apply Forall_rev. now apply name_chars. Qed.

Lemma rev_name_head (x : jsstring) :
  name_ok x = true ->
  exists c r, rev x = c :: r /\ is_slash c = false.
Proof.
  intros H. destruct (name_last x H) as [x0 [c [-> Hc]]].
  exists c, (rev x0). rewrite rev_app_distr. split; [reflexivity|].
  now rewrite is_slash_eqb.
Qed.

Lemma slashes_tail (t : jsstring) :
  t = [] \/ t = [SLASH] -> Forall (fun c => is_slash c = true) (rev t).
Proof. intros [-> | ->]; repeat constructor. Qed.

(** The reversed string of a rendered path with its last name [b]. *)
Lemma rev_render_snoc (l : list jsstring) (b t : jsstring) :
  rev (Js.join [SLASH] (l ++ [b]) ++ t)
  = rev t ++ rev b
    ++ match l with
       | [] => []
       | _ => SLASH :: rev (Js.join [SLASH] l)
       end.
Proof.
  rewrite rev_app_distr. f_equal.
  destruct l as [|p l]; [now rewrite app_nil_r|].
  rewrite join_snoc by discriminate.
  rewrite !rev_app_distr. simpl. now rewrite <- app_assoc.
Qed.

Lemma drop_while_stop (f : N -> bool) (c : N) (s : jsstring) :
  f c = false -> drop_while f (c :: s) = c :: s.
Proof. intros H. simpl. now rewrite H. Qed.

Lemma drop_slashes_name (b x : jsstring) :
  name_ok b = true -> drop_while is_slash (rev b ++ x) = rev b ++ x.
Proof.
  intros H. destruct (rev_name_head b H) as [c [r [-> Hc]]].
  simpl. now rewrite Hc.
Qed.

Lemma dirname_render (l : list jsstring) (b t : jsstring) :
  Forall (fun x => name_ok x = true) (l ++ [b]) ->
  t = [] \/ t = [SLASH] ->
  dirname (render (l ++ [b]) ++ t) = render l.
Proof.
  intros H Ht. apply Forall_app in H. destruct H as [Hl Hb].
  inversion Hb as [|? ? Hb' _]; subst.
  unfold render at 1.
  change ((SLASH :: Js.join [SLASH] (l ++ [b])) ++ t)
    with (SLASH :: (Js.join [SLASH] (l ++ [b]) ++ t)).
  unfold dirname. rewrite rev_render_snoc.
  rewrite drop_while_all by now apply slashes_tail.
  rewrite drop_slashes_name by assumption.
  rewrite drop_while_all by now apply name_chars_rev.
  destruct l as [|p l]; [reflexivity|].
  rewrite drop_while_stop by reflexivity.
  destruct (rev (Js.join [SLASH] (p :: l))) as [|d before] eqn:E.
  - apply (f_equal (@rev _)) in E. rewrite rev_involutive in E.
    exfalso. revert E. apply join_nonempty; [assumption|discriminate].
  - rewrite <- E, rev_involutive. reflexivity.
Qed.

Lemma basename_render (l : list jsstring) (b t : jsstring) :
  Forall (fun x => name_ok x = true) (l ++ [b]) ->
  t = [] \/ t = [SLASH] ->
  basename (render (l ++ [b]) ++ t) = b.
Proof.
  intros H Ht. apply Forall_app in H. destruct H as [Hl Hb].
  inversion Hb as [|? ? Hb' _]; subst.
  unfold basename, render.
  change ((SLASH :: Js.join [SLASH] (l ++ [b])) ++ t)
    with ([SLASH] ++ (Js.join [SLASH] (l ++ [b]) ++ t)).
  rewrite rev_app_distr, rev_render_snoc, <- !app_assoc.
  rewrite drop_while_all by now apply slashes_tail.
  rewrite drop_slashes_name by assumption.
  rewrite take_while_all.
  - apply rev_involutive.
  - now apply name_chars_rev.
  - destruct l; reflexivity.
Qed.


(** [normalizeString] without [allowAboveRoot] keeps proper names only. *)
Lemma normalize_step_proper (res : list jsstring) (segment : jsstring) :
  existsb (N.eqb SLASH) segment = false ->
  Forall (fun x => proper_name x = true) res ->
  Forall (fun x => proper_name x = true) (normalize_step false res segment).
Proof.
  intros Hs Hres. unfold normalize_step.
  destruct (Js.eqb segment []) eqn:E0; simpl; [exact Hres|].
  destruct (Js.eqb segment (js ".")) eqn:E1; simpl; [exact Hres|].
  destruct (Js.eqb segment (js "..")) eqn:E2.
  - destruct res as [|top rest]; [constructor|].
    inversion Hres; subst. destruct (Js.eqb top (js "..")); assumption.
  - constructor; [|exact Hres].
    apply proper_name_intro; [|exact E1|exact E2].
    unfold name_ok. now rewrite E0, existsb_is_slash, Hs.
Qed.

Lemma normalize_segments_proper (j : jsstring) :
  Forall (fun x => proper_name x = true) (normalize_segments false j).
Proof.
  unfold normalize_segments. apply Forall_rev.
  pose proof (split_no_sep SLASH j) as H.
  assert (Hacc : Forall (fun x => proper_name x = true) (@nil jsstring))
    by constructor.
  revert Hacc. generalize (@nil jsstring) as acc.
  induction H as [|seg segs Hseg _ IH]; intros acc Hacc; simpl; [exact Hacc|].
  apply IH. now apply normalize_step_proper.
Qed.

Lemma normalize_fold_names (segs acc : list jsstring) :
  Forall (fun x => x = [] \/ proper_name x = true) segs ->
  fold_left (normalize_step false) segs acc
  = rev (filter (fun s => negb (Js.eqb s [])) segs) ++ acc.
Proof.
  intros H. revert acc.
  induction H as [|seg segs Hseg _ IH]; intros acc; simpl; [reflexivity|].
  rewrite IH. destruct Hseg as [-> | Hp]; [reflexivity|].
  apply proper_name_inv in Hp. destruct Hp as [Hok [E1 E2]].
  apply name_ok_inv in Hok. destruct Hok as [Hne _].
  assert (E0 : Js.eqb seg [] = false) by now apply eqb_neq.
  unfold normalize_step. rewrite E0, E1, E2. simpl.
  now rewrite <- app_assoc.
Qed.

(** [normalize] of an absolute path. *)
Lemma normalize_absolute (j : jsstring) :
  isAbsolute j = true ->
  normalize j
  = render (normalize_segments false j)
    ++ match normalize_segments false j with
       | [] => []
       | _ => if endsWith [SLASH] j then [SLASH] else []
       end.
Proof.
  intros Habs. unfold normalize.
  destruct j as [|c j]; [discriminate|].
  rewrite Habs. simpl negb. unfold normalizeString.
  pose proof (normalize_segments_proper (c :: j)) as Hp.
  apply Forall_proper_ok in Hp.
  destruct (normalize_segments false (c :: j)) as [|x out] eqn:E.
  - reflexivity.
  - pose proof (join_nonempty (x :: out) Hp ltac:(discriminate)) as Hne.
    destruct (Js.join [SLASH] (x :: out)) as [|d rest] eqn:Ej; [congruence|].
    unfold render. rewrite Ej. reflexivity.
Qed.

(** The candidate path of [resolveFilePath] in an absolute repository. *)
Lemma join_absolute_form (repo p : jsstring) :
  isAbsolute repo = true -> p <> [] ->
  exists out t,
    Forall (fun x => proper_name x = true) out
    /\ NodePath.join repo p = render out ++ t
    /\ (t = [] \/ (t = [SLASH] /\ out <> [])).
Proof.
  intros Habs Hp.
  destruct repo as [|c repo]; [discriminate|].
  destruct p as [|d p]; [congruence|].
  unfold NodePath.join.
  rewrite normalize_absolute by exact Habs.
  exists (normalize_segments false ((c :: repo) ++ [SLASH] ++ d :: p)).
  eexists. split; [apply normalize_segments_proper|].
  split; [reflexivity|].
  destruct (normalize_segments false _); [now left|].
  destruct (endsWith [SLASH] _); [right; split; [reflexivity|discriminate]|].
  now left.
Qed.

Lemma proper_or_empty (l : list jsstring) :
  Forall (fun x => proper_name x = true) l ->
  Forall (fun x => x = [] \/ proper_name x = true) l.
Proof. apply Forall_impl. auto. Qed.

(** [path.join] of a canonical directory and a name. *)
Lemma join_render (l : list jsstring) (b : jsstring) :
  Forall (fun x => proper_name x = true) l -> proper_name b = true ->
  NodePath.join (render l) b = render (l ++ [b]).
Proof.
  intros Hl Hb.
  assert (Hlb : Forall (fun x => proper_name x = true) (l ++ [b]))
    by (apply Forall_app; split; [exact Hl|repeat constructor; exact Hb]).
  pose proof (Forall_proper_ok _ Hlb) as Hok.
  pose proof (proper_name_ok b Hb) as Hbok.
  destruct (name_ok_inv b Hbok) as [Hne Hns].
  destruct b as [|b0 b]; [congruence|].
  pose (j := (SLASH :: Js.join [SLASH] l) ++ [SLASH] ++ b0 :: b).
  assert (Hj : NodePath.join (render l) (b0 :: b) = normalize j)
    by reflexivity.
  rewrite Hj.
  assert (Hsplit : exists segs,
             split SLASH j = [] :: segs
             /\ Forall (fun x => x = [] \/ proper_name x = true) segs
             /\ filter (fun s => negb (Js.eqb s [])) segs = l ++ [b0 :: b]).
  { subst j. destruct l as [|p l].
    - exists [[]; b0 :: b]. split; [|split].
      + change ((SLASH :: Js.join [SLASH] []) ++ [SLASH] ++ b0 :: b)
          with (SLASH :: SLASH :: b0 :: b).
        rewrite !split_slash_cons.
        rewrite split_single by exact Hns. reflexivity.
      + constructor; [now left|].
        constructor; [now right|constructor].
      + reflexivity.
    - exists ((p :: l) ++ [b0 :: b]). split; [|split].
      + change ((SLASH :: Js.join [SLASH] (p :: l)) ++ [SLASH] ++ b0 :: b)
          with (render (p :: l) ++ SLASH :: b0 :: b).
        pose proof (render_snoc (p :: l) (b0 :: b)) as Hr.
        cbv iota in Hr. rewrite <- Hr.
        apply split_render; [exact Hok|discriminate].
      + now apply proper_or_empty.
      + apply filter_nonempty_names. exact Hok. }
  destruct Hsplit as [segs [Hs [Hsegs Hf]]].
  assert (Hseg : normalize_segments false j = l ++ [b0 :: b]).
  { unfold normalize_segments. rewrite Hs. simpl fold_left.
    change (normalize_step false [] []) with (@nil jsstring).
    rewrite normalize_fold_names by exact Hsegs.
    rewrite app_nil_r, rev_involutive. exact Hf. }
  rewrite normalize_absolute by reflexivity.
  rewrite Hseg.
  assert (Hend : endsWith [SLASH] j = false).
  { subst j. destruct (name_last (b0 :: b) Hbok) as [x0 [c [Hx Hc]]].
    rewrite Hx.
    change ((SLASH :: Js.join [SLASH] l) ++ [SLASH] ++ x0 ++ [c])
      with ((SLASH :: Js.join [SLASH] l) ++ (SLASH :: x0) ++ [c]).
    rewrite app_assoc, endsWith_slash_snoc. exact Hc. }
  rewrite Hend.
  destruct (l ++ [b0 :: b]) as [|x xs] eqn:E; [destruct l; discriminate|].
  cbv iota. now rewrite app_nil_r, <- E.
Qed.

End PathStrings.
Module RoundTrip.
Import NodePath NodeFs FileService FsInvariants JsFacts FsFacts PathStrings
  Utf8Facts.

#[local] Opaque walk.

Lemma resolve_canonical_dir (F : fs) (p : path) :
  dir_chain F p -> resolve F (render p) = Found p Dir.
Proof.
  intros H. unfold resolve.
  rewrite components_render by (apply Forall_proper_ok, H).
  rewrite <- (app_nil_r p) at 1.
  rewrite walk_chain by exact H. simpl. apply walk_nil.
Qed.

Lemma resolve_canonical_file (F : fs) (q : path) (x : jsstring)
    (content : list N) :
  dir_chain F q -> proper_name x = true ->
  lookup F (q ++ [x]) = Some (File content) ->
  resolve F (render (q ++ [x])) = Found (q ++ [x]) (File content).
Proof.
  intros Hq Hx Hl. unfold resolve.
  rewrite components_render.
  - rewrite walk_chain by exact Hq. simpl app. rewrite walk_cons.
    apply proper_name_inv in Hx. destruct Hx as [_ [E1 E2]].
    now rewrite E1, E2, Hl.
  - apply Forall_app. split; [apply Forall_proper_ok, Hq|].
    repeat constructor. now apply proper_name_ok.
Qed.

Lemma resolve_sound (F : fs) (s : jsstring) :
  walk_result_ok F (resolve F s).
Proof.
  unfold resolve. apply walk_sound; [apply dir_chain_nil|].
  apply components_name_ok.
Qed.

(** The names of the candidate path. *)
Lemma components_candidate (out : list jsstring) (t : jsstring) :
  Forall (fun x => proper_name x = true) out ->
  t = [] \/ (t = [SLASH] /\ out <> []) ->
  components (render out ++ t)
  = out ++ match t with [] => [] | _ => [js "."] end.
Proof.
  intros H [-> | [-> Hne]].
  - rewrite !app_nil_r. apply components_render. now apply Forall_proper_ok.
  - apply components_render_slash; [now apply Forall_proper_ok|exact Hne].
Qed.


Lemma mkdir_existing (F : fs) (p : path) :
  dir_chain F p -> mkdir_recursive F (render p) = inl F.
Proof.
  intros H. unfold mkdir_recursive. now rewrite resolve_canonical_dir.
Qed.

Lemma dirname_render_last (l : list jsstring) (b : jsstring) :
  Forall (fun x => name_ok x = true) (l ++ [b]) ->
  dirname (render (l ++ [b])) = render l.
Proof.
  intros H. rewrite <- (app_nil_r (render (l ++ [b]))).
  apply dirname_render; [exact H|now left].
Qed.

(** What [readFile] finds where [writeFile] wrote: the candidate path of
    [resolveFilePath] leads to the written file, unless it asks for a
    directory. *)
Lemma write_then_resolve (F F1 F' : fs) (repo p fp text : jsstring) :
  isAbsolute repo = true ->
  resolveFilePath F repo p = Return fp ->
  mkdir_recursive F (dirname fp) = inl F1 ->
  NodeFs.writeFile F1 fp text = inl F' ->
  (exists at_, resolve F' (NodePath.join repo p)
               = Found at_ (File (Utf8.encode text)))
  \/ resolve F' (NodePath.join repo p) = Failed ENOTDIR.
Proof.
  intros Habs Hres Hmk Hwr.
  unfold resolveFilePath in Hres.
  destruct (validateRelativePath p) eqn:Hval; [discriminate|].
  assert (Hp : p <> []) by (intros ->; discriminate Hval).
  destruct (join_absolute_form repo p Habs Hp) as [out [t [Hout [Hcand Ht]]]].
  pose proof (components_candidate out t Hout Ht) as Hnames.
  rewrite <- Hcand in Hnames.
  assert (Ht' : t = [] \/ t = [SLASH]) by tauto.
  set (cand := NodePath.join repo p) in *.
  unfold realpath in Hres.
  pose proof (resolve_sound F cand) as Hsound.
  destruct (resolve F cand) as [R nd | P0 nm0 rest0 | e] eqn:Hwalk.
  - (* the candidate exists *)
    destruct (startsWith _ _) in Hres; cbv beta iota delta [negb] in Hres;
      [|discriminate].
    injection Hres as <-.
    destruct nd as [x | | target]; simpl in Hsound.
    + destruct Hsound as [Q [x' [-> [HQ [Hx Hl]]]]].
      assert (Hok : Forall (fun y => name_ok y = true) (Q ++ [x'])).
      { apply Forall_app. split; [apply Forall_proper_ok, HQ|].
        repeat constructor. now apply proper_name_ok. }
      rewrite dirname_render_last in Hmk by exact Hok.
      rewrite mkdir_existing in Hmk by exact HQ. injection Hmk as <-.
      unfold NodeFs.writeFile in Hwr.
      rewrite (resolve_canonical_file F Q x' x HQ Hx Hl) in Hwr.
      injection Hwr as <-.
      left. exists (Q ++ [x']). unfold resolve.
      rewrite (walk_content_update F (Q ++ [x']) x _ Hl).
      fold (resolve F cand). rewrite Hwalk. now rewrite path_eqb_refl.
    + exfalso.
      assert (HF1 : F1 = F).
      { destruct R as [|x' Q _] using rev_ind.
        - change (dirname (render [])) with (render []) in Hmk.
          rewrite mkdir_existing in Hmk by apply dir_chain_nil.
          now injection Hmk as <-.
        - rewrite dirname_render_last in Hmk
            by (apply Forall_proper_ok, Hsound).
          rewrite mkdir_existing in Hmk
            by (now apply dir_chain_prefix in Hsound).
          now injection Hmk as <-. }
      subst F1. unfold NodeFs.writeFile in Hwr.
      rewrite resolve_canonical_dir in Hwr by exact Hsound. discriminate.
    + destruct Hsound.
  - (* the candidate does not exist *)
    simpl in Hsound. destruct Hsound as [HP0 [Hnm0 Hnone]].
    destruct out as [|b I _] using rev_ind.
    { exfalso. destruct Ht as [-> | [_ Hne]]; [|congruence].
      unfold resolve in Hwalk. rewrite Hnames in Hwalk. simpl in Hwalk.
      rewrite walk_nil in Hwalk. discriminate. }
    pose proof (Forall_proper_ok _ Hout) as Hok.
    apply Forall_app in Hout. destruct Hout as [HI Hb].
    inversion Hb as [|? ? Hb' _]; subst. clear Hb.
    rewrite Hcand in Hres.
    rewrite (dirname_render I b t Hok Ht') in Hres.
    rewrite (basename_render I b t Hok Ht') in Hres.
    pose proof (resolve_sound F (render I)) as HsI.
    assert (HwI : resolve F (render I) = walk MAXSYMLINKS F [] I).
    { unfold resolve. rewrite components_render; [reflexivity|].
      now apply Forall_proper_ok. }
    destruct (resolve F (render I)) as [Pd nd' | | ] eqn:HrI;
      [|discriminate|discriminate].
    destruct (startsWith _ _) in Hres; cbv beta iota delta [negb] in Hres;
      [|discriminate].
    assert (Hfp : NodePath.join (render Pd) b = fp) by congruence.
    clear Hres. subst fp.
    (* the walk of the candidate goes through the parent *)
    unfold resolve in Hwalk. rewrite Hnames, <- app_assoc in Hwalk.
    pose proof (walk_app MAXSYMLINKS F
                  ([b] ++ match t with [] => [] | _ => [js "."] end) I [])
      as Happ.
    rewrite <- HwI in Happ. rewrite Hwalk in Happ.
    destruct nd' as [x | | target]; simpl in HsI.
    { exfalso. simpl in Happ. discriminate. }
    2:{ destruct HsI. }
    destruct Happ as [m [Hm Happ]].
    assert (Hno : walk m F Pd ([b] ++ match t with
                                       | [] => []
                                       | _ => [js "."]
                                       end) <> Failed ELOOP)
      by (rewrite <- Happ; discriminate).
    rewrite <- (walk_more m MAXSYMLINKS F Pd _ Hm Hno) in Happ.
    (* the walk of the path that is written *)
    assert (Hbase : exists rest',
               walk MAXSYMLINKS F Pd [b] = Missing P0 nm0 rest'
               /\ rest0 = rest' ++ match t with [] => [] | _ => [js "."] end).
    { destruct Ht' as [-> | ->].
      - exists rest0. rewrite app_nil_r in *. split; [now symmetry|reflexivity].
      - pose proof (walk_app MAXSYMLINKS F [js "."] [b] Pd) as Hdot.
        pose proof (walk_sound MAXSYMLINKS F [b] Pd HsI) as Hsb.
        destruct (walk MAXSYMLINKS F Pd [b]) as [q nd | P nm rest | e];
          cbv beta iota in Hdot, Happ.
        + exfalso. destruct nd as [x | | target].
          * rewrite Hdot in Happ. discriminate.
          * destruct Hdot as [m' [_ Hdot]]. rewrite Hdot in Happ.
            rewrite walk_cons, walk_nil in Happ. simpl in Happ. discriminate.
          * apply Hsb. repeat constructor. now apply proper_name_ok.
        + rewrite Hdot in Happ. injection Happ as -> -> ->.
          exists rest. split; reflexivity.
        + rewrite Hdot in Happ. discriminate. }
    destruct Hbase as [rest' [Hbase Hrest0]].
    rewrite (join_render Pd b (proj1 HsI) Hb') in Hmk, Hwr.
    assert (Hokd : Forall (fun y => name_ok y = true) (Pd ++ [b])).
    { apply Forall_app. split; [apply Forall_proper_ok, HsI|].
      repeat constructor. now apply proper_name_ok. }
    rewrite dirname_render_last in Hmk by exact Hokd.
    rewrite mkdir_existing in Hmk by exact HsI. injection Hmk as <-.
    unfold NodeFs.writeFile, resolve in Hwr.
    rewrite components_render in Hwr by exact Hokd.
    rewrite walk_chain in Hwr by exact HsI. simpl app in Hwr.
    rewrite Hbase in Hwr.
    destruct rest' as [|r rs]; [|discriminate].
    injection Hwr as <-. simpl app in Hrest0. subst rest0.
    unfold resolve. rewrite Hnames, <- app_assoc.
    rewrite (walk_add F (P0 ++ [nm0]) _ Hnone), Hwalk, path_eqb_refl.
    destruct t; [left; eexists; reflexivity|now right].
  - (* the walk of the candidate fails *)
    simpl in Hsound. destruct Hsound as [-> | ->]; discriminate.
Qed.


(** C10, as the code has it. In a repository with an absolute path, when
    [writeFile] of a well-formed text succeeds, the extension of the path
    is not one of the binary extensions, and the path still resolves inside
    the repository after the write, [readFile] returns exactly the text
    written. *)
Theorem writeFile_then_readFile
    (cfg : Config) (F F' : fs) (repo p text q : jsstring)
    (written : FileWriteResponse) :
  isAbsolute repo = true ->
  Utf8.well_formed text = true ->
  is_binary p = false ->
  writeFile cfg F repo p text = (Return written, F') ->
  resolveFilePath F' repo p = Return q ->
  readFile cfg F' repo p = Return (mkFileResponse p text).
Proof.
  intros Habs Hwf Hbin Hw Hq.
  unfold writeFile in Hw.
  destruct (Z.gtb (Z.of_nat (Utf8.byteLength text)) (MAX_FILE_SIZE_BYTES cfg))
    eqn:Hsize; [discriminate|].
  destruct (resolveFilePath F repo p) as [fp|] eqn:Hres; [|discriminate].
  destruct (mkdir_recursive F (dirname fp)) as [F1|] eqn:Hmk; [|discriminate].
  destruct (NodeFs.writeFile F1 fp text) as [F2|] eqn:Hwr; [|discriminate].
  assert (F2 = F') by congruence. subst F2. clear Hw.
  pose proof (resolve_sound F' (NodePath.join repo p)) as Hsound.
  unfold readFile. rewrite Hq, Hbin.
  unfold resolveFilePath, realpath in Hq.
  destruct (validateRelativePath p); [discriminate|].
  destruct (write_then_resolve F F1 F' repo p fp text Habs Hres Hmk Hwr)
    as [[at_ Hat] | Hfail].
  - rewrite Hat in Hq, Hsound. simpl in Hsound.
    destruct Hsound as [Q [x [-> [HQ [Hx Hl]]]]].
    destruct (startsWith _ _) in Hq; cbv beta iota delta [negb] in Hq;
      [|discriminate].
    assert (Hq' : render (Q ++ [x]) = q) by congruence. subst q.
    unfold stat, NodeFs.readFile.
    rewrite (resolve_canonical_file F' Q x _ HQ Hx Hl).
    cbv beta iota delta [size isFile negb].
    unfold Utf8.byteLength in Hsize. rewrite Hsize.
    now rewrite decode_encode.
  - rewrite Hfail in Hq. discriminate.
Qed.

End RoundTrip.
Module RoundTripCases.
Import NodePath NodeFs FileService FsScenario RoundTrip.

Lemma writeFile_then_readFile_witness :
  readFile default_config (after_write plain_tree (js "notes/../a.txt")
                             (js "hello"))
    (js "/r/demo") (js "notes/../a.txt")
  = Return (mkFileResponse (js "notes/../a.txt") (js "hello")).
Proof.
  eapply (writeFile_then_readFile default_config plain_tree
            (after_write plain_tree (js "notes/../a.txt") (js "hello"))
            (js "/r/demo") (js "notes/../a.txt") (js "hello"));
    vm_compute; reflexivity.
Defined.

(** C10 fails as stated: "a.png" is a relative path inside the repository
    and "hello" is five bytes long; [writeFile] writes it, and [readFile]
    refuses to read it back because of its extension. *)
Lemma binary_extension_is_written_not_read :
  validateRelativePath (js "a.png") = None
  /\ fst (writeFile default_config plain_tree (js "/r/demo") (js "a.png")
            (js "hello"))
     = Return (mkFileWriteResponse true 5)
  /\ readFile default_config (after_write plain_tree (js "a.png") (js "hello"))
       (js "/r/demo") (js "a.png")
     = Raise (PathSecurityError
                (js "Binary files are not supported: a.png")).
Proof. repeat split; vm_compute; reflexivity. Qed.

(** Why the text is to be well formed: a surrogate without its pair is
    written as U+FFFD and read back as U+FFFD. *)
Lemma unpaired_surrogate_is_not_read_back :
  readFile default_config (after_write plain_tree (js "a.txt") [55357%N])
    (js "/r/demo") (js "a.txt")
  = Return (mkFileResponse (js "a.txt") [65533%N]).
Proof. vm_compute; reflexivity. Qed.

(** Why the path is to resolve again: with a trailing separator the file
    is written, and reading it asks for a directory. *)
Lemma trailing_separator_is_not_read_back :
  fst (writeFile default_config plain_tree (js "/r/demo") (js "a/") (js "hello"))
  = Return (mkFileWriteResponse true 5)
  /\ readFile default_config (after_write plain_tree (js "a/") (js "hello"))
       (js "/r/demo") (js "a/")
     = Raise (SystemError ENOTDIR).
Proof. split; vm_compute; reflexivity. Qed.

(** And through a dangling link the write lands outside the repository,
    where [readFile] does not follow. *)
Lemma dangling_link_is_written_outside :
  fst (writeFile default_config dangling_tree (js "/r/demo") (js "out")
         (js "hello"))
  = Return (mkFileWriteResponse true 5)
  /\ lookup (after_write dangling_tree (js "out") (js "hello"))
       [js "tmp"; js "leak.txt"]
     = Some (File (Utf8.encode (js "hello")))
  /\ readFile default_config (after_write dangling_tree (js "out") (js "hello"))
       (js "/r/demo") (js "out")
     = Raise (PathSecurityError
                (js "Path escapes repository boundary (symlink detected)")).
Proof. repeat split; vm_compute; reflexivity. Qed.

End RoundTripCases.

(** ** Ending, sweeping and renaming sessions *)

Module SessionFacts.
Import SessionManager Invariants SessionNotions JsFacts WorldFacts Lifecycle.

Lemma map_get_map_delete {V} (k k' : jsstring) (m : list (jsstring * V)) :
  map_get k (map_delete k' m) = if Js.eqb k' k then None else map_get k m.
Proof.
  induction m as [|[k0 v] m IH]; simpl.
  - now destruct (Js.eqb k' k).
  - destruct (Js.eqb k' k0) eqn:E0; simpl.
    + apply eqb_eq in E0; subst k0.
      rewrite IH. rewrite (eqb_sym k k').
      now destruct (Js.eqb k' k).
    + rewrite IH. destruct (Js.eqb k k0) eqn:E1; [|reflexivity].
      apply eqb_eq in E1; subst k0. now rewrite E0.
Qed.

(** What [cleanupSession] does to a session it finds. *)
Lemma cleanupSession_found (sessionId : jsstring) (w : World) r entry :
  getEntry sessionId w = Some (r, entry) ->
  exists w',
    cleanupSession sessionId w = (true, w')
    /\ heap w' = heap w
    /\ sessions w' = map_delete sessionId (sessions w)
    /\ clock w' = clock w
    /\ sent w' = sent w
         ++ map (fun c => (c, MsgStatus exited (Some (js "Session terminated"))
                               None None)) (clients entry)
    /\ procs w' = match pty entry with
                  | Some pid => procs (pty_kill pid w)
                  | None => procs w
                  end
    /\ timers w' = match cleanupTimeout entry with
                   | Some t => timers (clearTimeout t w)
                   | None => timers w
                   end.
Proof.
  intros H. unfold cleanupSession. rewrite H.
  eexists. split; [reflexivity|].
  destruct (pty entry), (cleanupTimeout entry); cbn;
    match goal with
    | |- context [map_get ?k ?m] => destruct (map_get k m)
    end; cbn;
    try match goal with
    | |- context [Nat.eqb ?a ?b] => destruct (Nat.eqb a b)
    end; cbn; repeat split; reflexivity.
Qed.

Lemma cleanupSession_missing (sessionId : jsstring) (w : World) :
  getEntry sessionId w = None -> cleanupSession sessionId w = (false, w).
Proof. intros H. unfold cleanupSession. now rewrite H. Qed.

Lemma getEntry_ext (k : jsstring) (w w' : World) :
  heap w' = heap w -> sessions w' = sessions w -> getEntry k w' = getEntry k w.
Proof. intros Hh Hs. unfold getEntry. now rewrite Hh, Hs. Qed.

Lemma getEntry_after_cleanup (sessionId k : jsstring) (w : World) r entry :
  getEntry sessionId w = Some (r, entry) ->
  getEntry k (snd (cleanupSession sessionId w)) =
  if Js.eqb sessionId k then None else getEntry k w.
Proof.
  intros H. destruct (cleanupSession_found _ _ _ _ H)
    as (w' & E & Hh & Hs & _). rewrite E. simpl.
  unfold getEntry. rewrite Hh, Hs, map_get_map_delete.
  now destruct (Js.eqb sessionId k).
Qed.



Lemma sweep_step_expired (cfg : Config) (now : Z) (w' : World) kv :
  sweep_step cfg now w' kv =
  match getEntry (fst kv) w' with
  | Some (_, e) =>
      if expired cfg now e then snd (cleanupSession (fst kv) w') else w'
  | None => w'
  end.
Proof.
  unfold sweep_step, expired.
  destruct (getEntry (fst kv) w') as [[r e]|]; [|reflexivity].
  now destruct (disconnectedAt e).
Qed.

Lemma sweep_fold (cfg : Config) (now : Z) (w0 : World) :
  forall (todo done : list (jsstring * nat)) (w' : World),
    heap w' = heap w0 ->
    (forall k, getEntry k w' =
               match getEntry k w0 with
               | Some (r, e) =>
                   if expired cfg now e && existsb (Js.eqb k) (map fst done)
                   then None else Some (r, e)
               | None => None
               end) ->
    let w'' := fold_left (sweep_step cfg now) todo w' in
    heap w'' = heap w0
    /\ forall k, getEntry k w'' =
                 match getEntry k w0 with
                 | Some (r, e) =>
                     if expired cfg now e
                        && existsb (Js.eqb k) (map fst (done ++ todo))
                     then None else Some (r, e)
                 | None => None
                 end.
Proof.
  induction todo as [|[k1 r1] todo IH]; intros done w' Hh Hget; cbn zeta.
  - rewrite app_nil_r. now split.
  - cbn [fold_left].
    replace (done ++ (k1, r1) :: todo) with ((done ++ [(k1, r1)]) ++ todo)
      by now rewrite <- app_assoc.
    apply IH.
    + rewrite sweep_step_expired. cbn [fst].
      destruct (getEntry k1 w') as [[r e]|] eqn:E1; [|exact Hh].
      destruct (expired cfg now e); [|exact Hh].
      destruct (cleanupSession_found _ _ _ _ E1) as (w2 & E & Hh2 & _).
      rewrite E. cbn. congruence.
    + intros k. rewrite map_app, existsb_app. cbn [map fst existsb].
      rewrite orb_false_r.
      rewrite sweep_step_expired. cbn [fst].
      pose proof (Hget k1) as Hk1.
      destruct (getEntry k1 w') as [[r e]|] eqn:E1.
      * destruct (getEntry k1 w0) as [[r0 e0]|] eqn:E0; [|discriminate].
        destruct (expired cfg now e0 && existsb (Js.eqb k1) (map fst done))
          eqn:Ex; [discriminate|]. injection Hk1 as -> ->.
        assert (Hsame : forall k', Js.eqb k' k1 = true ->
                  getEntry k' w0 = Some (r0, e0)).
        { intros k' Hk. apply eqb_eq in Hk. now subst. }
        destruct (expired cfg now e0) eqn:Hexp.
        -- rewrite (getEntry_after_cleanup k1 k w' _ _ E1).
           rewrite (eqb_sym k1 k).
           destruct (Js.eqb k k1) eqn:Ek.
           ++ rewrite (Hsame k Ek), Hexp. cbn.
              now rewrite orb_true_r.
           ++ rewrite orb_false_r. apply Hget.
        -- rewrite Hget.
           destruct (getEntry k w0) as [[r e]|] eqn:Ek0; [|reflexivity].
           destruct (Js.eqb k k1) eqn:Ek; [|now rewrite orb_false_r].
           rewrite (Hsame k Ek) in Ek0. injection Ek0 as <- <-.
           rewrite Hexp. reflexivity.
      * rewrite Hget.
        destruct (getEntry k w0) as [[r e]|] eqn:Ek0; [|reflexivity].
        destruct (Js.eqb k k1) eqn:Ek; [|now rewrite orb_false_r].
        apply eqb_eq in Ek. subst k. rewrite Ek0 in Hk1.
        destruct (expired cfg now e); [|discriminate].
        destruct (existsb (Js.eqb k1) (map fst done)); [|discriminate].
        reflexivity.
Qed.

Lemma map_get_In {V} (k : jsstring) (m : list (jsstring * V)) v :
  map_get k m = Some v -> existsb (Js.eqb k) (map fst m) = true.
Proof.
  induction m as [|[k0 v0] m IH]; simpl; [discriminate|].
  destruct (Js.eqb k k0); [reflexivity|]. exact IH.
Qed.

(** What a sweep leaves of the index. *)
Lemma sweep_getEntry (cfg : Config) (w : World) (k : jsstring) :
  heap (cleanupExpiredSessions cfg w) = heap w
  /\ getEntry k (cleanupExpiredSessions cfg w) =
     match getEntry k w with
     | Some (r, e) => if expired cfg (clock w) e then None else Some (r, e)
     | None => None
     end.
Proof.
  pose proof (sweep_fold cfg (clock w) w (sessions w) [] w eq_refl) as H.
  cbn zeta in H. destruct H as [Hh Hget].
  { intros k'. cbn. destruct (getEntry k' w) as [[r e]|]; [|reflexivity].
    now rewrite andb_false_r. }
  split; [exact Hh|].
  change (cleanupExpiredSessions cfg w)
    with (fold_left (sweep_step cfg (clock w)) (sessions w) w).
  rewrite Hget. cbn [app].
  destruct (getEntry k w) as [[r e]|] eqn:E; [|reflexivity].
  unfold getEntry in E.
  destruct (map_get k (sessions w)) eqn:Em; [|discriminate].
  rewrite (map_get_In _ _ _ Em). now rewrite andb_true_r.
Qed.

(** X2. The periodic sweep removes exactly the sessions whose last client
    left more than [DISCONNECTED_TTL_MINUTES] ago, by the clock at the start
    of the sweep: a session with no [disconnectedAt], or one that is not
    older than the limit, is kept as it is. *)
Theorem cleanupExpiredSessions_reaps_exactly (cfg : Config) (w : World)
    (sessionId : jsstring) :
  getEntry sessionId (cleanupExpiredSessions cfg w) =
  match getEntry sessionId w with
  | Some (r, e) =>
      match disconnectedAt e with
      | Some d =>
          if Z.gtb (clock w - d) (DISCONNECTED_TTL_MINUTES cfg * 60 * 1000)
          then None else Some (r, e)
      | None => Some (r, e)
      end
  | None => None
  end.
Proof.
  destruct (sweep_getEntry cfg w sessionId) as [_ H]. rewrite H.
  destruct (getEntry sessionId w) as [[r e]|]; [|reflexivity].
  unfold expired, ttl_ms. now destruct (disconnectedAt e).
Qed.


(** The world after the exit of a process is delivered. *)
Lemma pty_exit_world cfg (w : World) pid p e code signal :
  nth_error (procs w) pid = Some p ->
  pty_exited p = false ->
  nth_error (heap w) (pty_entry p) = Some e ->
  let w' := apply_event cfg (EvPtyExit pid code signal) w in
  heap w'
  = list_update (pty_entry p)
      (fun e0 => set_pty None
                   (upd_session
                      (fun s => set_exitCode (Some code) (set_state exited s))
                      e0)) (heap w)
  /\ sessions w' = sessions w
  /\ procs w' = procs (pty_mark_exited pid w)
  /\ timers w' = timers w.
Proof.
  intros Hp Hx He w'. subst w'. simpl. rewrite Hp, Hx.
  unfold onExit.
  assert (Hp' : exists p', nth_error (procs (pty_mark_exited pid w)) pid
                           = Some p' /\ pty_entry p' = pty_entry p).
  { simpl. rewrite nth_error_list_update_eq, Hp. simpl. eauto. }
  destruct Hp' as [p' [-> Hr]]. rewrite Hr.
  change (heap (pty_mark_exited pid w)) with (heap w). rewrite He.
  repeat split; reflexivity.
Qed.

(** X3. Once the exit of a process has been delivered, the session it was
    spawned for takes no input and no resize: [sendInput] and [resize]
    answer false and leave the manager as it is. *)
Theorem input_refused_after_exit cfg (w : World) pid p sessionId e
    code signal :
  nth_error (procs w) pid = Some p ->
  pty_exited p = false ->
  getEntry sessionId w = Some (pty_entry p, e) ->
  let w' := apply_event cfg (EvPtyExit pid code signal) w in
  forall data cols rows,
    sendInput sessionId data w' = (false, w')
    /\ resize sessionId cols rows w' = (false, w').
Proof.
  intros Hp Hx Hg w' data cols rows.
  destruct (getEntry_inv _ _ _ _ Hg) as [Hm He].
  destruct (pty_exit_world cfg w pid p e code signal Hp Hx He)
    as (Hh & Hs & _).
  fold w' in Hh, Hs.
  assert (Hg' : exists e', getEntry sessionId w' = Some (pty_entry p, e')
                           /\ pty e' = None).
  { unfold getEntry. rewrite Hs, Hm, Hh, nth_error_list_update_eq, He.
    cbn. eauto. }
  destruct Hg' as (e' & Hg' & Hpty).
  unfold sendInput, resize. now rewrite Hg', Hpty.
Qed.

Lemma input_refused_after_exit_witness :
  let w' := apply_event default_config (EvPtyExit 0 0 0) Scenario.w_attached in
  sendInput (js "s1") (js "ls") w' = (false, w')
  /\ resize (js "s1") (80 # 1)%Q (24 # 1)%Q w' = (false, w').
Proof.
  apply (input_refused_after_exit default_config Scenario.w_attached 0
           Scenario.demo_proc (js "s1") Scenario.demo_entry 0 0);
    reflexivity.
Defined.


(** The world after a restart whose spawn returns. *)
Lemma restartSession_world cfg sessionId (w : World) r entry pid p :
  getEntry sessionId w = Some (r, entry) ->
  pty entry = Some pid ->
  nth_error (procs w) pid = Some p ->
  let w' := snd (restartSession cfg SpawnReturns sessionId w) in
  nth_error (heap w') r
  = Some (upd_session (set_state running)
            (set_pty (Some (length (procs w)))
               (set_outputBuffer [] (set_pty None entry))))
  /\ sessions w' = sessions w
  /\ procs w'
     = procs (pty_kill pid w)
       ++ [mkProc (js "/bin/bash") [js "-c"; js "exec " ++ CLAUDE_PATH cfg]
             DEFAULT_COLS DEFAULT_ROWS (repoPath (session entry)) r []
             false false].
Proof.
  intros Hg Hpty Hp. destruct (getEntry_inv _ _ _ _ Hg) as [_ He].
  unfold restartSession. rewrite Hg, Hpty.
  match goal with
  | |- context [spawnClaude cfg SpawnReturns r None None ?w2] =>
      set (w2' := w2);
      assert (He2 : nth_error (heap w2') r
                    = Some (set_outputBuffer [] (set_pty None entry)))
        by (simpl; rewrite !nth_error_list_update_eq, He; reflexivity);
      assert (Hp2 : procs w2' = procs (pty_kill pid w)) by reflexivity;
      assert (Hs2 : sessions w2' = sessions w) by reflexivity
  end.
  destruct (spawnClaude_returns cfg r None None w2' _ He2)
    as [w3 [-> [Hh [Hpr [Hs _]]]]].
  cbn [snd]. rewrite Hh, Hpr, Hs, Hs2, Hp2.
  cbn [pty_kill upd_proc with_procs procs].
  rewrite list_update_length. repeat split; reflexivity.
Qed.

(** X4. The exit handler of a process acts on the entry the process was
    spawned for, whichever process that entry holds by then.  So when the
    exit of the process that [restartSession] killed is delivered after the
    restart, the restarted session is marked exited and loses its PTY:
    input is refused, while the new process is neither killed nor exited,
    and terminating the session does not kill it either. *)
Theorem exit_of_killed_process_ends_restarted_session
    cfg sessionId (w : World) r entry pid p code signal :
  getEntry sessionId w = Some (r, entry) ->
  pty entry = Some pid ->
  nth_error (procs w) pid = Some p ->
  pty_entry p = r ->
  pty_exited p = false ->
  let w1 := snd (restartSession cfg SpawnReturns sessionId w) in
  let w2 := apply_event cfg (EvPtyExit pid code signal) w1 in
  let fresh := length (procs w) in
  (exists e1, getEntry sessionId w1 = Some (r, e1)
              /\ state (session e1) = running /\ pty e1 = Some fresh)
  /\ (exists e2, getEntry sessionId w2 = Some (r, e2)
                 /\ state (session e2) = exited /\ pty e2 = None)
  /\ (forall data, sendInput sessionId data w2 = (false, w2))
  /\ (exists pnew, nth_error (procs w2) fresh = Some pnew
                   /\ pty_entry pnew = r
                   /\ pty_killed pnew = false /\ pty_exited pnew = false)
  /\ (exists pnew, nth_error (procs (snd (terminateSession sessionId w2)))
                     fresh = Some pnew
                   /\ pty_killed pnew = false).
Proof.
  intros Hg Hpty Hp Hr Hx w1 w2 fresh.
  destruct (getEntry_inv _ _ _ _ Hg) as [Hm He].
  destruct (restartSession_world cfg sessionId w r entry pid p Hg Hpty Hp)
    as (Hh1 & Hs1 & Hp1).
  fold w1 in Hh1, Hs1, Hp1.
  assert (Hlt : pid < length (procs w)) by (apply nth_error_Some; congruence).
  assert (Hlen : length (procs (pty_kill pid w)) = length (procs w))
    by (cbn; apply list_update_length).
  set (p1 := mkProc (pty_file p) (pty_args p) (pty_cols p) (pty_rows p)
               (pty_cwd p) (pty_entry p) (pty_written p) true (pty_exited p)).
  assert (Hpid1 : nth_error (procs w1) pid = Some p1).
  { rewrite Hp1, nth_error_app1 by lia. cbn.
    now rewrite nth_error_list_update_eq, Hp. }
  assert (Hr1 : pty_entry p1 = r) by exact Hr.
  assert (Hx1 : pty_exited p1 = false) by exact Hx.
  rewrite <- Hr1 in Hh1.
  destruct (pty_exit_world cfg w1 pid p1 _ code signal Hpid1 Hx1 Hh1)
    as (Hh2 & Hs2 & Hp2 & _).
  fold w2 in Hh2, Hs2, Hp2. rewrite Hr1 in *.
  assert (Hg1 : getEntry sessionId w1
                = Some (r, upd_session (set_state running)
                             (set_pty (Some (length (procs w)))
                                (set_outputBuffer [] (set_pty None entry))))).
  { unfold getEntry. now rewrite Hs1, Hm, Hh1. }
  assert (Hg2 : exists e2, getEntry sessionId w2 = Some (r, e2)
                           /\ state (session e2) = exited /\ pty e2 = None).
  { unfold getEntry. rewrite Hs2, Hs1, Hm, Hh2, nth_error_list_update_eq, Hh1.
    cbn. eauto. }
  assert (Hnew : exists pnew, nth_error (procs w2) fresh = Some pnew
                   /\ pty_entry pnew = r
                   /\ pty_killed pnew = false /\ pty_exited pnew = false).
  { rewrite Hp2. cbn. rewrite nth_error_list_update_neq by (unfold fresh; lia).
    rewrite Hp1, nth_error_app2 by (unfold fresh; lia).
    rewrite Hlen. unfold fresh. rewrite Nat.sub_diag. cbn. eauto. }
  split; [eexists; split; [exact Hg1|split; reflexivity]|].
  split; [exact Hg2|].
  destruct Hg2 as (e2 & Hg2 & Hst & Hpty2).
  split; [intros data; unfold sendInput; now rewrite Hg2, Hpty2|].
  split; [exact Hnew|].
  destruct Hnew as (pnew & Hn & _ & Hk & _).
  unfold terminateSession.
  destruct (cleanupSession_found _ _ _ _ Hg2) as (w3 & -> & _ & _ & _ & _ & Hp3 & _).
  cbn [snd]. rewrite Hp3, Hpty2. eauto.
Qed.

Lemma exit_of_killed_process_ends_restarted_session_witness :
  let w1 := snd (restartSession default_config SpawnReturns (js "s1")
                   Scenario.w_attached) in
  let w2 := apply_event default_config (EvPtyExit 0 0 1) w1 in
  let fresh := length (procs Scenario.w_attached) in
  (exists e1, getEntry (js "s1") w1 = Some (0, e1)
              /\ state (session e1) = running /\ pty e1 = Some fresh)
  /\ (exists e2, getEntry (js "s1") w2 = Some (0, e2)
                 /\ state (session e2) = exited /\ pty e2 = None)
  /\ (forall data, sendInput (js "s1") data w2 = (false, w2))
  /\ (exists pnew, nth_error (procs w2) fresh = Some pnew
                   /\ pty_entry pnew = 0
                   /\ pty_killed pnew = false /\ pty_exited pnew = false)
  /\ (exists pnew, nth_error (procs (snd (terminateSession (js "s1") w2)))
                     fresh = Some pnew
                   /\ pty_killed pnew = false).
Proof.
  apply (exit_of_killed_process_ends_restarted_session default_config
           (js "s1") Scenario.w_attached 0 Scenario.demo_entry 0
           Scenario.demo_proc 0 1); reflexivity.
Defined.


Lemma map_set_fresh {V} (k : jsstring) (v : V) (m : list (jsstring * V)) :
  map_get k m = None -> map_set k v m = m ++ [(k, v)].
Proof.
  induction m as [|[k0 v0] m IH]; simpl; [reflexivity|].
  destruct (Js.eqb k k0); [discriminate|]. intros H. now rewrite IH.
Qed.

Lemma map_get_snoc {V} (k : jsstring) (v : V) (m : list (jsstring * V)) :
  map_get k m = None -> map_get k (m ++ [(k, v)]) = Some v.
Proof.
  induction m as [|[k0 v0] m IH]; simpl.
  - now rewrite eqb_refl.
  - destruct (Js.eqb k k0); [discriminate|]. exact IH.
Qed.

(** The entries of the index when one entry is put at the end of the heap
    and the other references denote what they did. *)
Lemma session_entries_snoc (w : World) (h : list SessionEntry)
    (k : jsstring) (e : SessionEntry) :
  refs_valid w ->
  length h = S (length (heap w)) ->
  (forall r, r < length (heap w) -> nth_error h r = nth_error (heap w) r) ->
  nth_error h (length (heap w)) = Some e ->
  forall w', heap w' = h -> sessions w' = sessions w ++ [(k, length (heap w))] ->
  session_entries w' = session_entries w ++ [e].
Proof.
  intros Hv Hlen Hold Hnew w' Hh Hs. unfold session_entries.
  rewrite Hs, Hh, flat_map_app. cbn. rewrite Hnew, app_nil_r. f_equal.
  clear Hs. unfold refs_valid in Hv. revert Hv.
  generalize (sessions w) as l.
  induction l as [|kv l IH]; intros Hv; cbn; [reflexivity|].
  inversion Hv as [|? ? Hkv Hl]; subst.
  rewrite Hold by exact Hkv. now rewrite IH.
Qed.

(** The world a [createSession] below the caps leaves when the spawn
    throws. *)
Lemma createSession_throws_world
    cfg sessionId message email repo path name cols rows (w : World) :
  count_geb (getUserSessionCount email w) (MAX_SESSIONS_PER_USER cfg)
  = false ->
  count_geb (length (sessions w)) (MAX_TOTAL_SESSIONS cfg) = false ->
  exists tabName ids,
    createSession cfg sessionId (SpawnThrows message) email repo path
      name cols rows w
    = (Throw message,
       mkWorld
         (list_update (length (heap w))
            (upd_session
               (fun s => set_exitCode (Some 1%Z) (set_state exited s)))
            (heap w
             ++ [mkEntry
                   (mkSession sessionId email repo path tabName starting
                      (clock w) (clock w) None)
                   None [] [] None None]))
         (map_set sessionId (length (heap w)) (sessions w))
         ids (procs w) (timers w) (sent w) (clock w)).
Proof.
  intros Hu Ht. unfold createSession.
  rewrite Hu, Ht.
  cbv zeta. unfold spawnClaude. cbn.
  rewrite nth_error_snoc. do 2 eexists. reflexivity.
Qed.

(** X5. [createSession] registers the session before it spawns the
    process, and nothing takes the entry back when the spawn throws: the
    call throws the spawn's error, yet the session stays in the index in
    state exited with exit code 1, counts as one more session of the user
    and of the server, has no process and no timer, and a sweep at any
    later time leaves it there. *)
Theorem failed_spawn_keeps_the_slot
    cfg sessionId message email repo path name cols rows (w : World) :
  refs_valid w ->
  map_get sessionId (sessions w) = None ->
  count_geb (getUserSessionCount email w) (MAX_SESSIONS_PER_USER cfg)
  = false ->
  count_geb (length (sessions w)) (MAX_TOTAL_SESSIONS cfg) = false ->
  let res := createSession cfg sessionId (SpawnThrows message) email repo path
               name cols rows w in
  let w' := snd res in
  fst res = Throw message
  /\ (exists s, getSession sessionId w' = Some s
                /\ state s = exited /\ exitCode s = Some 1%Z
                /\ userEmail s = email)
  /\ length (sessions w') = S (length (sessions w))
  /\ getUserSessionCount email w' = S (getUserSessionCount email w)
  /\ procs w' = procs w /\ timers w' = timers w
  /\ forall ms,
       getSession sessionId (run cfg [EvTimePasses ms; EvSweep] w')
       = getSession sessionId w'.
Proof.
  intros Hv Hfresh Hu Ht res w'.
  destruct (createSession_throws_world cfg sessionId message email repo path
              name cols rows w Hu Ht) as (tabName & ids & Hres).
  subst w'. subst res. rewrite Hres. cbn [fst snd].
  rewrite (map_set_fresh _ _ _ Hfresh).
  set (e := mkEntry (mkSession sessionId email repo path tabName starting
                       (clock w) (clock w) None) None [] [] None None).
  set (f := upd_session (fun s => set_exitCode (Some 1%Z) (set_state exited s))).
  set (w' := mkWorld _ _ _ _ _ _ _).
  assert (Hnth : nth_error (heap w') (length (heap w)) = Some (f e)).
  { cbn. now rewrite nth_error_list_update_eq, nth_error_snoc. }
  assert (Hg : getEntry sessionId w' = Some (length (heap w), f e)).
  { unfold getEntry.
    change (sessions w') with (sessions w ++ [(sessionId, length (heap w))]).
    rewrite (map_get_snoc _ _ _ Hfresh). now rewrite Hnth. }
  split; [reflexivity|]. split.
  { unfold getSession. rewrite Hg. eexists. repeat split. }
  split; [cbn; rewrite length_app; cbn; lia|]. split.
  { unfold getUserSessionCount.
    rewrite (session_entries_snoc w (heap w') sessionId (f e) Hv)
      with (w' := w').
    - rewrite filter_app, length_app. cbn.
      rewrite eqb_refl. cbn. lia.
    - cbn. rewrite list_update_length, length_app. cbn. lia.
    - intros r Hr. cbn.
      rewrite nth_error_list_update_neq by lia.
      now rewrite nth_error_app1.
    - exact Hnth.
    - reflexivity.
    - reflexivity. }
  split; [reflexivity|]. split; [reflexivity|].
  intros ms. unfold run. cbn [fold_left apply_event].
  unfold getSession.
  destruct (sweep_getEntry cfg (with_clock (clock w' + Z.of_N ms) w')
              sessionId) as [_ ->].
  rewrite (getEntry_ext sessionId w' (with_clock (clock w' + Z.of_N ms) w')
             eq_refl eq_refl).
  rewrite Hg. reflexivity.
Qed.

Lemma failed_spawn_keeps_the_slot_witness :
  let res := createSession default_config (js "s2") (SpawnThrows (js "EAGAIN"))
               Scenario.user Scenario.repo Scenario.repo_path None None None
               Scenario.w_attached in
  let w' := snd res in
  fst res = Throw (js "EAGAIN")
  /\ (exists s, getSession (js "s2") w' = Some s
                /\ state s = exited /\ exitCode s = Some 1%Z
                /\ userEmail s = Scenario.user)
  /\ length (sessions w') = S (length (sessions Scenario.w_attached))
  /\ getUserSessionCount Scenario.user w'
     = S (getUserSessionCount Scenario.user Scenario.w_attached)
  /\ procs w' = procs Scenario.w_attached
  /\ timers w' = timers Scenario.w_attached
  /\ forall ms,
       getSession (js "s2")
         (run default_config [EvTimePasses ms; EvSweep] w')
       = getSession (js "s2") w'.
Proof.
  apply (failed_spawn_keeps_the_slot default_config (js "s2") (js "EAGAIN")
           Scenario.user Scenario.repo Scenario.repo_path None None None
           Scenario.w_attached).
  - repeat constructor.
  - reflexivity.
  - reflexivity.
  - reflexivity.
Defined.


(** X6. When the only client of a session detaches, the session gets a
    [disconnectedAt] and a timer due one TTL later, or one millisecond
    later when the TTL in milliseconds is below 1 or above 2147483647, as
    [setTimeout] has it; when a client attaches again, that timer is
    cleared and [disconnectedAt] removed, the client is given the replay
    buffer, and neither the timer, whenever it comes due, nor a sweep at
    any later time removes the session. *)
Theorem reattach_cancels_reap cfg sessionId c c' (w : World) r e :
  getEntry sessionId w = Some (r, e) ->
  clients e = [c] ->
  let t := length (timers w) in
  let w1 := detachClient cfg sessionId c w in
  let w2 := snd (attachClient sessionId c' w1) in
  (exists e1, getEntry sessionId w1 = Some (r, e1)
              /\ clients e1 = [] /\ disconnectedAt e1 = Some (clock w)
              /\ cleanupTimeout e1 = Some t)
  /\ nth_error (timers w1) t
     = Some (mkTimer sessionId (clock w + setTimeout_delay (ttl_ms cfg))
               false false)
  /\ (exists s, fst (attachClient sessionId c' w1)
                = Some (s, outputBuffer e))
  /\ (exists e2, getEntry sessionId w2 = Some (r, e2)
                 /\ clients e2 = [c'] /\ disconnectedAt e2 = None
                 /\ cleanupTimeout e2 = None)
  /\ nth_error (timers w2) t
     = Some (mkTimer sessionId (clock w + setTimeout_delay (ttl_ms cfg))
               true false)
  /\ forall ms,
       getEntry sessionId
         (run cfg [EvTimePasses ms; EvTimeout t; EvSweep] w2)
       = getEntry sessionId w2.
Proof.
  intros Hg Hc t w1 w2.
  destruct (getEntry_inv _ _ _ _ Hg) as [Hm He].
  set (e1 := set_cleanupTimeout (Some t)
               (set_disconnectedAt (Some (clock w)) (set_clients [] e))).
  assert (Hw1 : w1 = upd_entry r (set_cleanupTimeout (Some t))
                       (with_timers
                          (timers w
                           ++ [mkTimer sessionId (clock w + setTimeout_delay (ttl_ms cfg))
                                 false false])
                          (upd_entry r (set_disconnectedAt (Some (clock w)))
                             (upd_entry r (set_clients []) w)))).
  { subst w1. unfold detachClient. rewrite Hg, Hc. cbn [delete_first].
    rewrite eqb_refl. reflexivity. }
  assert (Hs1 : sessions w1 = sessions w) by (rewrite Hw1; reflexivity).
  assert (Hh1 : nth_error (heap w1) r = Some e1).
  { rewrite Hw1. cbn. rewrite !nth_error_list_update_eq, He. reflexivity. }
  assert (Ht1 : timers w1
                = timers w ++ [mkTimer sessionId (clock w + setTimeout_delay (ttl_ms cfg))
                                 false false])
    by (rewrite Hw1; reflexivity).
  assert (Hg1 : getEntry sessionId w1 = Some (r, e1)).
  { unfold getEntry. now rewrite Hs1, Hm, Hh1. }
  set (e2 := upd_session (set_lastActivityAt (clock w1))
               (set_clients (set_add c' (clients e1))
                  (set_disconnectedAt None (set_cleanupTimeout None e1)))).
  assert (Hw2 : attachClient sessionId c' w1
                = (Some (session e2, outputBuffer e2),
                   upd_entry r (upd_session (set_lastActivityAt (clock w1)))
                     (upd_entry r
                        (fun e => set_clients (set_add c' (clients e)) e)
                        (upd_entry r (set_disconnectedAt None)
                           (upd_entry r (set_cleanupTimeout None)
                              (clearTimeout t w1)))))).
  { unfold attachClient. rewrite Hg1.
    change (cleanupTimeout e1) with (Some t). cbv zeta.
    f_equal. cbn. rewrite !nth_error_list_update_eq, Hh1. reflexivity. }
  assert (Hs2 : sessions w2 = sessions w)
    by (subst w2; rewrite Hw2; exact Hs1).
  assert (Hh2 : nth_error (heap w2) r = Some e2).
  { subst w2. rewrite Hw2. cbn.
    rewrite !nth_error_list_update_eq, Hh1. reflexivity. }
  assert (Ht2 : nth_error (timers w2) t
                = Some (mkTimer sessionId (clock w + setTimeout_delay (ttl_ms cfg))
               true false)).
  { subst w2. rewrite Hw2. cbn. rewrite nth_error_list_update_eq, Ht1.
    unfold t. now rewrite nth_error_snoc. }
  assert (Hg2 : getEntry sessionId w2 = Some (r, e2)).
  { unfold getEntry. now rewrite Hs2, Hm, Hh2. }
  split; [exists e1; repeat split; assumption|].
  split; [rewrite Ht1; unfold t; apply nth_error_snoc|].
  split; [rewrite Hw2; eexists; reflexivity|].
  split; [exists e2; repeat split; assumption|].
  split; [exact Ht2|].
  intros ms. unfold run. cbn [fold_left].
  set (w3 := apply_event cfg (EvTimePasses ms) w2).
  assert (Hw4 : apply_event cfg (EvTimeout t) w3 = w3).
  { cbn [apply_event].
    change (timers w3) with (timers w2). now rewrite Ht2. }
  rewrite Hw4. cbn [apply_event].
  destruct (sweep_getEntry cfg w3 sessionId) as [_ ->].
  rewrite (getEntry_ext sessionId w2 w3 eq_refl eq_refl), Hg2.
  reflexivity.
Qed.

Lemma reattach_cancels_reap_witness :
  let t := length (timers Scenario.w_attached) in
  let w1 := detachClient default_config (js "s1") (js "c1")
              Scenario.w_attached in
  let w2 := snd (attachClient (js "s1") (js "c2") w1) in
  (exists e1, getEntry (js "s1") w1 = Some (0, e1)
              /\ clients e1 = []
              /\ disconnectedAt e1 = Some (clock Scenario.w_attached)
              /\ cleanupTimeout e1 = Some t)
  /\ nth_error (timers w1) t
     = Some (mkTimer (js "s1")
               (clock Scenario.w_attached
                + setTimeout_delay (ttl_ms default_config)) false false)
  /\ (exists s, fst (attachClient (js "s1") (js "c2") w1)
                = Some (s, outputBuffer Scenario.demo_entry))
  /\ (exists e2, getEntry (js "s1") w2 = Some (0, e2)
                 /\ clients e2 = [js "c2"] /\ disconnectedAt e2 = None
                 /\ cleanupTimeout e2 = None)
  /\ nth_error (timers w2) t
     = Some (mkTimer (js "s1")
               (clock Scenario.w_attached
                + setTimeout_delay (ttl_ms default_config)) true false)
  /\ forall ms,
       getEntry (js "s1")
         (run default_config [EvTimePasses ms; EvTimeout t; EvSweep] w2)
       = getEntry (js "s1") w2.
Proof.
  apply (reattach_cancels_reap default_config (js "s1") (js "c1") (js "c2")
           Scenario.w_attached 0 Scenario.demo_entry); reflexivity.
Defined.

(** X7. [renameSession] answers false for a session the manager does not
    have and changes nothing; for one it has, it answers true, the session
    then carries the new name, whatever it is, and nothing else of it has
    changed, and a session held by another entry is as it was. *)
Theorem renameSession_then_getSession (sessionId newName : jsstring)
    (w : World) :
  match getSession sessionId w with
  | None => renameSession sessionId newName w = (false, w)
  | Some s =>
      let w' := snd (renameSession sessionId newName w) in
      fst (renameSession sessionId newName w) = true
      /\ getSession sessionId w' = Some (set_name newName s)
      /\ forall other,
           map_get other (sessions w) <> map_get sessionId (sessions w) ->
           getSession other w' = getSession other w
  end.
Proof.
  unfold getSession, renameSession.
  destruct (getEntry sessionId w) as [[r e]|] eqn:Hg; [|reflexivity].
  destruct (getEntry_inv _ _ _ _ Hg) as [Hm He].
  cbn [fst snd]. cbv zeta. split; [reflexivity|].
  unfold getEntry. cbn [sessions upd_entry with_heap heap].
  split.
  - rewrite Hm, nth_error_list_update_eq, He. reflexivity.
  - intros other Hne. rewrite Hm in Hne.
    destruct (map_get other (sessions w)) as [r'|]; [|reflexivity].
    rewrite nth_error_list_update_neq by congruence. reflexivity.
Qed.

End SessionFacts.

(** ** The routes of the sessions and the terminal socket *)

Module RouteFacts.
Import SessionManager Invariants SessionNotions WsRoutes SessionRoutes.
Import JsFacts WorldFacts Lifecycle SessionFacts.




(** What a successful [createSession] leaves in the index. *)
Lemma createSession_ok
    cfg sessionId spawn email repo path name cols rows (w w' : World) s :
  createSession cfg sessionId spawn email repo path name cols rows w
    = (Ok s, w') ->
  session_id s = sessionId /\ userEmail s = email /\ repoId s = repo
  /\ exists e, getEntry sessionId w' = Some (length (heap w), e)
               /\ session e = s.
Proof.
  unfold createSession.
  destruct (count_geb (getUserSessionCount email w) _); [discriminate|].
  destruct (count_geb (length (sessions w)) _); [discriminate|].
  match goal with
  | |- context [spawnClaude cfg spawn ?r cols rows ?w3] =>
      set (w3' := w3);
      assert (He : exists e, nth_error (heap w3') r = Some e
                             /\ session_id (session e) = sessionId
                             /\ userEmail (session e) = email
                             /\ repoId (session e) = repo)
        by (eexists; split; [apply nth_error_snoc|repeat split]);
      assert (Hs : map_get sessionId (sessions w3') = Some r)
  end.
  { simpl. clear. induction (sessions w) as [|[k v] m IH]; simpl.
    - now rewrite eqb_refl.
    - destruct (Js.eqb sessionId k) eqn:E; simpl; rewrite E; auto. }
  destruct He as (e & He & Hid & Hmail & Hrepo).
  destruct spawn as [|message].
  - destruct (spawnClaude_returns cfg _ cols rows w3' e He)
      as [w4 [-> [Hh [Hp [Hss _]]]]].
    rewrite Hh. intros H. injection H as <- <-.
    split; [exact Hid|]. split; [exact Hmail|]. split; [exact Hrepo|].
    eexists. split.
    + unfold getEntry. rewrite Hss, Hs, Hh. reflexivity.
    + reflexivity.
  - destruct (spawnClaude_throws cfg message _ cols rows w3' e He)
      as [w4 [-> _]].
    discriminate.
Qed.

Lemma set_add_In (x : jsstring) (s : list jsstring) : In x (set_add x s).
Proof.
  unfold set_add, set_has. destruct (existsb (Js.eqb x) s) eqn:E.
  - apply existsb_exists in E. destruct E as (y & Hy & Ey).
    apply eqb_eq in Ey. now subst.
  - apply in_or_app. right. now left.
Qed.

(** What [attachClient] does to a session it finds. *)
Lemma attachClient_found (sessionId client : jsstring) (w : World) r e :
  getEntry sessionId w = Some (r, e) ->
  exists e' w',
    attachClient sessionId client w
    = (Some (session e', outputBuffer e'), w')
    /\ getEntry sessionId w' = Some (r, e')
    /\ session e' = set_lastActivityAt (clock w) (session e)
    /\ outputBuffer e' = outputBuffer e
    /\ clients e' = set_add client (clients e)
    /\ disconnectedAt e' = None /\ cleanupTimeout e' = None.
Proof.
  intros Hg. destruct (getEntry_inv _ _ _ _ Hg) as [Hm He].
  unfold attachClient. rewrite Hg.
  set (w1 := match cleanupTimeout e with
             | Some t => upd_entry r (set_cleanupTimeout None)
                           (clearTimeout t w)
             | None => w
             end).
  assert (H1 : sessions w1 = sessions w
               /\ exists e1, nth_error (heap w1) r = Some e1
                  /\ session e1 = session e /\ outputBuffer e1 = outputBuffer e
                  /\ clients e1 = clients e /\ cleanupTimeout e1 = None).
  { subst w1. destruct (cleanupTimeout e) eqn:Et.
    - split; [reflexivity|]. cbn. rewrite nth_error_list_update_eq, He.
      cbn. eexists. repeat split.
    - split; [reflexivity|]. exists e. repeat split; assumption. }
  destruct H1 as (Hs1 & e1 & He1 & Hse & Hbe & Hce & Hte).
  cbv zeta. cbn [heap upd_entry with_heap].
  rewrite !nth_error_list_update_eq, He1. cbn [option_map].
  do 2 eexists. split; [reflexivity|].
  split.
  { unfold getEntry. cbn [sessions heap upd_entry with_heap].
    rewrite Hs1, Hm, !nth_error_list_update_eq, He1. reflexivity. }
  cbn. rewrite Hse, Hbe, Hce, Hte. repeat split.
Qed.

(** X9. Handling a frame never binds a connection to a session of another
    user or repository: whatever the frame, the connection keeps the session
    it was bound to, or it is bound to a session that is in the index, is
    owned by the connection's user in the connection's repository, and has
    the connection among its clients. *)
Theorem on_message_binds_own_sessions
    cfg fresh spawn (frame : option json) (c : Conn) (w : World) :
  ids_agree w ->
  let c' := snd (fst (on_message cfg fresh spawn frame c w)) in
  let w' := snd (on_message cfg fresh spawn frame c w) in
  user_email c' = user_email c /\ conn_repoId c' = conn_repoId c
  /\ clientId c' = clientId c
  /\ (currentSessionId c' = currentSessionId c
      \/ exists sessionId r e,
           currentSessionId c' = Some sessionId
           /\ getEntry sessionId w' = Some (r, e)
           /\ userEmail (session e) = user_email c
           /\ repoId (session e) = conn_repoId c
           /\ In (clientId c) (clients e)).
Proof.
  intros Hids. unfold on_message.
  assert (Hattach : forall s w1 r e,
             getEntry (session_id s) w1 = Some (r, e) ->
             userEmail (session e) = user_email c ->
             repoId (session e) = conn_repoId c ->
             let res :=
               match attachClient (session_id s) (clientId (set_isAlive true c))
                       w1 with
               | (Some (attached, replay), w2) =>
                   (Send (MsgStatus (state attached) None
                            (Some (session_id attached))
                            (Some (session_name attached)))
                    :: match replay with
                       | [] => []
                       | _ => [Send (MsgReplay replay)]
                       end,
                    set_currentSessionId (Some (session_id s))
                      (set_isAlive true c), w2)
               | (None, w2) =>
                   ([Send (MsgError (js "Failed to attach to session"))],
                    set_currentSessionId (Some (session_id s))
                      (set_isAlive true c), w2)
               end in
             user_email (snd (fst res)) = user_email c
             /\ conn_repoId (snd (fst res)) = conn_repoId c
             /\ clientId (snd (fst res)) = clientId c
             /\ (currentSessionId (snd (fst res)) = currentSessionId c
                 \/ exists sessionId r e,
                      currentSessionId (snd (fst res)) = Some sessionId
                      /\ getEntry sessionId (snd res) = Some (r, e)
                      /\ userEmail (session e) = user_email c
                      /\ repoId (session e) = conn_repoId c
                      /\ In (clientId c) (clients e))).
  { intros s w1 r e Hg Hmail Hrepo.
    destruct (attachClient_found (session_id s) (clientId (set_isAlive true c))
                w1 r e Hg)
      as (e' & w2 & -> & Hg2 & Hs2 & _ & Hc2 & _).
    cbn [fst snd]. repeat split. right.
    exists (session_id s), r, e'. split; [reflexivity|]. split; [exact Hg2|].
    rewrite Hs2, Hc2. cbn. repeat split; try assumption.
    apply set_add_In. }
  destruct (parse_frame frame) as [[requested cols rows branch|data|cols rows| |]|].
  - (* attach *)
    destruct requested as [[|u rest]|].
    + (* empty id: a new session *)
      destruct (createSession cfg fresh spawn (user_email (set_isAlive true c))
                  (conn_repoId (set_isAlive true c))
                  (conn_repoPath (set_isAlive true c)) None cols rows w)
        as [[s|message] w1] eqn:Ec.
      * destruct (createSession_ok _ _ _ _ _ _ _ _ _ _ _ _ Ec)
          as (Hid & Hmail & Hrepo & e & Hg & Hse).
        rewrite <- Hid in Hg. subst s.
        exact (Hattach (session e) w1 _ e Hg Hmail Hrepo).
      * cbn. repeat split. now left.
    + destruct (getSession (u :: rest) w) as [existing|] eqn:Hf.
      * destruct (negb (Js.eqb (userEmail existing)
                          (user_email (set_isAlive true c)))
                  || negb (Js.eqb (repoId existing)
                             (conn_repoId (set_isAlive true c)))) eqn:Ed.
        -- cbn. repeat split. now left.
        -- apply orb_false_elim in Ed. destruct Ed as [Em Er].
           apply negb_false_iff, eqb_eq in Em.
           apply negb_false_iff, eqb_eq in Er.
           unfold getSession in Hf.
           destruct (getEntry (u :: rest) w) as [[r e]|] eqn:Hg;
             [|discriminate].
           injection Hf as <-.
           pose proof (Hids _ _ _ Hg) as Hid. rewrite <- Hid in Hg.
           exact (Hattach (session e) w r e Hg Em Er).
      * cbn. repeat split. now left.
    + destruct (createSession cfg fresh spawn (user_email (set_isAlive true c))
                  (conn_repoId (set_isAlive true c))
                  (conn_repoPath (set_isAlive true c)) None cols rows w)
        as [[s|message] w1] eqn:Ec.
      * destruct (createSession_ok _ _ _ _ _ _ _ _ _ _ _ _ Ec)
          as (Hid & Hmail & Hrepo & e & Hg & Hse).
        rewrite <- Hid in Hg. subst s.
        exact (Hattach (session e) w1 _ e Hg Hmail Hrepo).
      * cbn. repeat split. now left.
  - destruct (currentSessionId (set_isAlive true c)) as [current|];
      [destruct (sendInput current data w) as [[|] w1]|];
      cbn; repeat split; now left.
  - destruct (currentSessionId (set_isAlive true c)) as [current|];
      cbn; repeat split; now left.
  - cbn. repeat split. now left.
  - destruct (currentSessionId (set_isAlive true c)) as [current|];
      [destruct (restartSession cfg spawn current w) as [[[s|]|message] w1]|];
      cbn; repeat split; now left.
  - cbn. repeat split. now left.
Qed.


Lemma on_message_binds_own_sessions_witness :
  let res := on_message default_config (js "s2") SpawnReturns
               (attach_frame (js "s1")) Scenario.fresh_conn
               Scenario.w_attached in
  let c' := snd (fst res) in
  let w' := snd res in
  user_email c' = user_email Scenario.fresh_conn
  /\ conn_repoId c' = conn_repoId Scenario.fresh_conn
  /\ clientId c' = clientId Scenario.fresh_conn
  /\ (currentSessionId c' = currentSessionId Scenario.fresh_conn
      \/ exists sessionId r e,
           currentSessionId c' = Some sessionId
           /\ getEntry sessionId w' = Some (r, e)
           /\ userEmail (session e) = user_email Scenario.fresh_conn
           /\ repoId (session e) = conn_repoId Scenario.fresh_conn
           /\ In (clientId Scenario.fresh_conn) (clients e)).
Proof.
  apply (on_message_binds_own_sessions default_config (js "s2") SpawnReturns
           (attach_frame (js "s1")) Scenario.fresh_conn Scenario.w_attached).
  intros sessionId r e. unfold getEntry.
  change (sessions Scenario.w_attached) with [(js "s1", 0)].
  cbn [map_get].
  destruct (Js.eqb sessionId (js "s1")) eqn:E; [|intros H; discriminate H].
  apply eqb_eq in E. intros H. cbn in H. injection H as <- <-.
  symmetry. exact E.
Defined.

(** X10. An attach frame that names, by a non-empty id, a session of
    another user or of another repository is answered with the one error
    "Session access denied"; the connection stays as it was and the manager
    is untouched: the client is not attached and is sent neither status nor
    replay. *)
Theorem attach_to_foreign_session_is_denied
    cfg fresh spawn (frame : option json) (c : Conn) (w : World)
    (sessionId : jsstring) cols rows branch (s : ClaudeSession) :
  parse_frame frame = Some (CAttach (Some sessionId) cols rows branch) ->
  sessionId <> [] ->
  getSession sessionId w = Some s ->
  userEmail s <> user_email c \/ repoId s <> conn_repoId c ->
  on_message cfg fresh spawn frame c w
  = ([Send (MsgError (js "Session access denied"))], set_isAlive true c, w).
Proof.
  intros Hp Hid Hs Hne. unfold on_message. rewrite Hp.
  destruct sessionId as [|u rest]; [contradiction|].
  rewrite Hs.
  assert (Hd : negb (Js.eqb (userEmail s) (user_email (set_isAlive true c)))
               || negb (Js.eqb (repoId s) (conn_repoId (set_isAlive true c)))
               = true).
  { apply orb_true_iff.
    destruct Hne as [H|H]; [left|right]; apply negb_true_iff, eqb_neq;
      exact H. }
  now rewrite Hd.
Qed.

Lemma attach_to_foreign_session_is_denied_witness :
  on_message default_config (js "s2") SpawnReturns (attach_frame (js "s1"))
    foreign_conn Scenario.w_attached
  = ([Send (MsgError (js "Session access denied"))],
     set_isAlive true foreign_conn, Scenario.w_attached).
Proof.
  apply (attach_to_foreign_session_is_denied default_config (js "s2")
           SpawnReturns (attach_frame (js "s1")) foreign_conn
           Scenario.w_attached (js "s1") None None None
           (session Scenario.demo_entry)).
  - reflexivity.
  - discriminate.
  - reflexivity.
  - left. discriminate.
Defined.

(** X11. The keep-alive closes exactly the connections that stay silent:
    a connection that is alive is sent a frame at a tick and marked; if no
    frame of the client is handled before the next tick, that tick closes
    the socket with code 4002; handling any frame, even one that does not
    parse, marks the connection alive again, so the next tick does not
    close it. *)
Theorem heartbeat_closes_silent_connections
    cfg fresh spawn (frame : option json) (c : Conn) (w : World) :
  (isAlive c = true ->
   on_heartbeat c = ([Send MsgPong], set_isAlive false c)
   /\ on_heartbeat (snd (on_heartbeat c))
      = ([Close 4002 (js "Ping timeout")], set_isAlive false c))
  /\ let c' := snd (fst (on_message cfg fresh spawn frame
                           (snd (on_heartbeat c)) w)) in
     on_heartbeat c' = ([Send MsgPong], set_isAlive false c').
Proof.
  split.
  - intros Ha. unfold on_heartbeat. rewrite Ha. cbn. split; reflexivity.
  - cbv zeta.
    assert (Halive : forall c0, isAlive (snd (fst (on_message cfg fresh spawn
                                                  frame c0 w))) = true).
    { intros c0. unfold on_message.
      destruct (parse_frame frame)
        as [[requested cols rows branch|data|cols rows| |]|]; cbn [fst snd].
      - match goal with
        | |- context [match ?f with inl _ => _ | inr _ => _ end] =>
            destruct f as [m|[[s|m] w1]]
        end; try reflexivity.
        destruct (attachClient _ _ w1) as [[[a rp]|] w2]; reflexivity.
      - destruct (currentSessionId (set_isAlive true c0)) as [current|];
          [destruct (sendInput current data w) as [[|] w1]|]; reflexivity.
      - destruct (currentSessionId (set_isAlive true c0)); reflexivity.
      - reflexivity.
      - destruct (currentSessionId (set_isAlive true c0)) as [current|];
          [destruct (restartSession cfg spawn current w)
             as [[[s|]|m] w1]|]; reflexivity.
      - reflexivity. }
    unfold on_heartbeat at 1. now rewrite Halive.
Qed.

Lemma heartbeat_closes_silent_connections_witness :
  (isAlive Scenario.fresh_conn = true ->
   on_heartbeat Scenario.fresh_conn
   = ([Send MsgPong], set_isAlive false Scenario.fresh_conn)
   /\ on_heartbeat (snd (on_heartbeat Scenario.fresh_conn))
      = ([Close 4002 (js "Ping timeout")],
         set_isAlive false Scenario.fresh_conn))
  /\ let c' := snd (fst (on_message default_config (js "s2") SpawnReturns
                           None (snd (on_heartbeat Scenario.fresh_conn))
                           Scenario.w_attached)) in
     on_heartbeat c' = ([Send MsgPong], set_isAlive false c').
Proof.
  exact (heartbeat_closes_silent_connections default_config (js "s2")
           SpawnReturns None Scenario.fresh_conn Scenario.w_attached).
Defined.

End RouteFacts.

(** ** Short user ids, user branches and worktree paths *)

Module WorktreeFacts.
Import Worktree WorktreeService WorktreeNotions NodePath JsFacts.
Import NodeFs FsInvariants FsFacts PathStrings.

Lemma includes_app_l (p a b : jsstring) :
  includes p a = true -> includes p (a ++ b) = true.
Proof.
  intros H. apply includes_spec in H. destruct H as (x & y & ->).
  apply includes_spec. exists x, (y ++ b). now rewrite <- !app_assoc.
Qed.

Lemma includes_app_r (p a b : jsstring) :
  includes p b = true -> includes p (a ++ b) = true.
Proof.
  intros H. apply includes_spec in H. destruct H as (x & y & ->).
  apply includes_spec. exists (a ++ x), y. now rewrite <- !app_assoc.
Qed.

Lemma includes_false_app_l (p a b : jsstring) :
  includes p (a ++ b) = false -> includes p a = false.
Proof.
  intros H. destruct (includes p a) eqn:E; [|reflexivity].
  now rewrite (includes_app_l _ _ b E) in H.
Qed.

Lemma includes_false_app_r (p a b : jsstring) :
  includes p (a ++ b) = false -> includes p b = false.
Proof.
  intros H. destruct (includes p b) eqn:E; [|reflexivity].
  now rewrite (includes_app_r _ a _ E) in H.
Qed.

Lemma replace_non_alnum_chars (s : jsstring) :
  Forall (fun c => is_lower_alnum c = true \/ c = HYPHEN)
    (replace_non_alnum s).
Proof.
  induction s as [|c s IH]; cbn; constructor; [|exact IH].
  destruct (is_lower_alnum c) eqn:E; [now left|now right].
Qed.

Lemma collapse_hyphens_head (s : jsstring) :
  hd_error (collapse_hyphens s) = hd_error s.
Proof.
  induction s as [|c s IH]; [reflexivity|]. cbn [collapse_hyphens].
  destruct (N.eqb c HYPHEN) eqn:Ec; [|reflexivity].
  destruct s as [|d s']; [reflexivity|].
  destruct (N.eqb d HYPHEN) eqn:Ed; [|reflexivity].
  rewrite IH. cbn. apply N.eqb_eq in Ec, Ed. congruence.
Qed.

Lemma collapse_hyphens_chars (P : N -> Prop) (s : jsstring) :
  Forall P s -> Forall P (collapse_hyphens s).
Proof.
  induction s as [|c s IH]; intros H; [constructor|].
  inversion H as [|? ? Hc Hs]; subst. cbn [collapse_hyphens].
  destruct (N.eqb c HYPHEN); [|constructor; auto].
  destruct s as [|d s']; [constructor; auto|].
  destruct (N.eqb d HYPHEN); [auto|constructor; auto].
Qed.

Lemma includes_two (x y c : N) (s : jsstring) :
  includes [x; y] (c :: s)
  = (N.eqb x c && match s with d :: _ => N.eqb y d | [] => false end)
    || includes [x; y] s.
Proof.
  cbn [includes startsWith]. f_equal.
  destruct s as [|d s']; cbn; [now rewrite andb_false_r|].
  now rewrite andb_true_r.
Qed.

Lemma collapse_hyphens_single (s : jsstring) :
  includes (js "--") (collapse_hyphens s) = false.
Proof.
  change (js "--") with [HYPHEN; HYPHEN].
  induction s as [|c s IH]; [reflexivity|]. cbn [collapse_hyphens].
  destruct (N.eqb c HYPHEN) eqn:Ec.
  - destruct s as [|d s'];
      [rewrite includes_two; cbn; now rewrite andb_false_r|].
    destruct (N.eqb d HYPHEN) eqn:Ed; [exact IH|].
    rewrite includes_two, IH, orb_false_r.
    pose proof (collapse_hyphens_head (d :: s')) as Hh.
    destruct (collapse_hyphens (d :: s')) as [|d' t]; [now rewrite andb_false_r|].
    cbn in Hh. injection Hh as ->.
    rewrite (N.eqb_sym HYPHEN d), Ed. now rewrite andb_false_r.
  - rewrite includes_two, IH, orb_false_r.
    now rewrite (N.eqb_sym HYPHEN c), Ec.
Qed.

Lemma startsWith_one (x : N) (s : jsstring) :
  startsWith [x] s = match s with c :: _ => N.eqb x c | [] => false end.
Proof. destruct s; cbn; [reflexivity|now rewrite andb_true_r]. Qed.

Lemma endsWith_one (x : N) (s : jsstring) :
  endsWith [x] s = match rev s with c :: _ => N.eqb x c | [] => false end.
Proof. unfold endsWith. cbn [rev app]. apply startsWith_one. Qed.

(** What the three replacements of [getShortUserId] make of any string. *)
Lemma short_id_shaped (l : jsstring) :
  id_shaped (strip_edge_hyphens (collapse_hyphens (replace_non_alnum l))).
Proof.
  pose proof (collapse_hyphens_chars _ _ (replace_non_alnum_chars l)) as Hc.
  pose proof (collapse_hyphens_single (replace_non_alnum l)) as Hs.
  set (c := collapse_hyphens (replace_non_alnum l)) in *. clearbody c.
  unfold strip_edge_hyphens.
  set (s1 := match c with
             | x :: s' => if N.eqb x HYPHEN then s' else c
             | [] => []
             end).
  assert (H1 : Forall (fun c => is_lower_alnum c = true \/ c = HYPHEN) s1
               /\ includes (js "--") s1 = false
               /\ startsWith (js "-") s1 = false).
  { subst s1. destruct c as [|x s']; [repeat split; constructor|].
    change (js "--") with [HYPHEN; HYPHEN] in *.
    change (js "-") with [HYPHEN].
    destruct (N.eqb x HYPHEN) eqn:Ex.
    - inversion Hc; subst. rewrite includes_two in Hs.
      apply orb_false_elim in Hs. destruct Hs as [Hp Hs].
      repeat split; try assumption.
      rewrite startsWith_one. destruct s' as [|d s'']; [reflexivity|].
      now rewrite (N.eqb_sym HYPHEN x), Ex in Hp.
    - repeat split; try assumption.
      rewrite startsWith_one. now rewrite N.eqb_sym. }
  clearbody s1. destruct H1 as (Hc1 & Hs1 & Hh1). unfold id_shaped.
  change (js "--") with [HYPHEN; HYPHEN] in *.
  change (js "-") with [HYPHEN] in *.
  destruct (rev s1) as [|x r] eqn:Er.
  { repeat split; constructor. }
  assert (Es : s1 = rev r ++ [x]).
  { rewrite <- (rev_involutive s1), Er. reflexivity. }
  destruct (N.eqb x HYPHEN) eqn:Ex.
  - subst s1. apply Forall_app in Hc1. destruct Hc1 as [Hc1 _].
    pose proof (includes_false_app_l _ _ _ Hs1) as Hs2.
    split; [exact Hc1|]. split; [exact Hs2|]. split.
    + rewrite startsWith_one in Hh1 |- *.
      destruct (rev r) as [|y t]; [reflexivity|exact Hh1].
    + rewrite endsWith_one, rev_involutive.
      destruct r as [|y r']; [reflexivity|].
      cbn [rev] in Hs1. rewrite <- app_assoc in Hs1.
      apply includes_false_app_r in Hs1.
      apply N.eqb_eq in Ex. subst x.
      change ([y] ++ [HYPHEN]) with [y; HYPHEN] in Hs1.
      rewrite includes_two in Hs1. apply orb_false_elim in Hs1.
      destruct Hs1 as [Hs1 _]. rewrite N.eqb_refl, andb_true_r in Hs1.
      exact Hs1.
  - repeat split; try assumption.
    rewrite endsWith_one, Er. now rewrite N.eqb_sym.
Qed.


Lemma shaped_char (c : N) :
  is_lower_alnum c = true \/ c = HYPHEN ->
  (N.leb 65 c && N.leb c 90 = false) /\ N.eqb c 8490 = false
  /\ N.eqb c AT = false /\ N.eqb c SLASH = false /\ N.eqb c DOT = false
  /\ N.eqb c BACKSLASH = false /\ invalid_branch_char c = false
  /\ (N.ltb c 128 = true).
Proof.
  unfold is_lower_alnum, invalid_branch_char, is_regex_space, AT, SLASH, DOT,
    BACKSLASH, HYPHEN.
  intros [H| ->]; [|repeat split; reflexivity].
  assert (Hr : (97 <= c <= 122 \/ 48 <= c <= 57)%N).
  { apply orb_true_iff in H. destruct H as [H|H];
      apply andb_true_iff in H; destruct H as [H1 H2];
      apply N.leb_le in H1, H2; lia. }
  assert (Hne : forall k, (k < 48 \/ 57 < k < 97 \/ 122 < k)%N ->
                          N.eqb c k = false).
  { intros k Hk. apply N.eqb_neq. lia. }
  repeat split.
  - apply andb_false_iff.
    destruct Hr; [right|left]; apply N.leb_gt; lia.
  - apply Hne; lia.
  - apply Hne; lia.
  - apply Hne; lia.
  - apply Hne; lia.
  - apply Hne; lia.
  - cbn [existsb]. rewrite !Hne by lia. cbn.
    apply andb_false_iff. left. apply N.leb_gt. lia.
  - apply N.ltb_lt. lia.
Qed.

Lemma toLowerCase_shaped (s : jsstring) :
  Forall (fun c => is_lower_alnum c = true \/ c = HYPHEN) s ->
  FileService.toLowerCase s = s.
Proof.
  induction 1 as [|c s Hc Hs IH]; [reflexivity|].
  unfold FileService.toLowerCase in *. cbn [map]. rewrite IH.
  destruct (shaped_char c Hc) as (-> & -> & _). reflexivity.
Qed.

Lemma replace_non_alnum_shaped (s : jsstring) :
  Forall (fun c => is_lower_alnum c = true \/ c = HYPHEN) s ->
  replace_non_alnum s = s.
Proof.
  induction 1 as [|c s Hc Hs IH]; [reflexivity|].
  unfold replace_non_alnum in *. cbn [map]. rewrite IH.
  destruct Hc as [-> | ->]; reflexivity.
Qed.

Lemma collapse_hyphens_none (s : jsstring) :
  includes [HYPHEN; HYPHEN] s = false -> collapse_hyphens s = s.
Proof.
  induction s as [|c s IH]; [reflexivity|]. rewrite includes_two.
  intros H. apply orb_false_elim in H. destruct H as [Hp Hs].
  cbn [collapse_hyphens]. rewrite (IH Hs).
  destruct (N.eqb c HYPHEN) eqn:Ec; [|reflexivity].
  destruct s as [|d s']; [reflexivity|].
  rewrite (N.eqb_sym HYPHEN c), Ec, andb_true_l in Hp.
  now rewrite (N.eqb_sym d HYPHEN), Hp.
Qed.

Lemma strip_edge_hyphens_none (s : jsstring) :
  startsWith [HYPHEN] s = false -> endsWith [HYPHEN] s = false ->
  strip_edge_hyphens s = s.
Proof.
  rewrite startsWith_one, endsWith_one. intros Hs He.
  unfold strip_edge_hyphens.
  assert (E : match s with
              | c :: s' => if N.eqb c HYPHEN then s' else s
              | [] => []
              end = s).
  { destruct s as [|c s']; [reflexivity|].
    now rewrite (N.eqb_sym c HYPHEN), Hs. }
  rewrite E. destruct (rev s) as [|c r] eqn:Er.
  - rewrite <- (rev_involutive s), Er. reflexivity.
  - now rewrite (N.eqb_sym c HYPHEN), He.
Qed.

Lemma split_none (sep : N) (s : jsstring) :
  Forall (fun c => N.eqb c sep = false) s -> split sep s = [s].
Proof.
  induction 1 as [|c s Hc Hs IH]; [reflexivity|].
  cbn [split]. now rewrite Hc, IH.
Qed.

Lemma getShortUserId_shaped (email : jsstring) :
  id_shaped (getShortUserId email).
Proof. unfold getShortUserId. apply short_id_shaped. Qed.

(** X12. For an ASCII email address, [getShortUserId] answers with a
    string of lower-case letters, digits and hyphens in which no two
    hyphens are adjacent and which neither starts nor ends with a hyphen:
    it holds no separator and no dot, so as a path segment it is never "."
    or "..".  It can be empty. *)
Theorem getShortUserId_shape (email : jsstring) :
  is_ascii email = true ->
  let id := getShortUserId email in
  Forall (fun c => is_lower_alnum c = true \/ c = HYPHEN) id
  /\ includes (js "--") id = false
  /\ startsWith (js "-") id = false /\ endsWith (js "-") id = false
  /\ existsb (N.eqb SLASH) id = false /\ existsb (N.eqb DOT) id = false
  /\ is_ascii id = true.
Proof.
  intros _ id. destruct (getShortUserId_shaped email) as (Hc & Hd & Hs & He).
  fold id in Hc, Hd, Hs, He.
  split; [exact Hc|]. split; [exact Hd|]. split; [exact Hs|].
  split; [exact He|].
  clear Hd Hs He. induction Hc as [|c s Hc Hs IH]; [repeat split|].
  destruct IH as (I1 & I2 & I3).
  destruct (shaped_char c Hc) as (_ & _ & _ & E1 & E2 & _ & _ & E3).
  cbn [existsb is_ascii forallb].
  rewrite (N.eqb_sym SLASH c), E1, (N.eqb_sym DOT c), E2, E3.
  repeat split; assumption.
Qed.

Lemma getShortUserId_shape_witness :
  is_ascii (js "Naufaldi.Rifqi@mekari.com") = true
  /\ getShortUserId (js "Naufaldi.Rifqi@mekari.com") = js "naufaldi-rifqi"
  /\ getShortUserId (js "...@mekari.com") = []
  /\ let id := getShortUserId (js "Naufaldi.Rifqi@mekari.com") in
     Forall (fun c => is_lower_alnum c = true \/ c = HYPHEN) id
     /\ includes (js "--") id = false
     /\ startsWith (js "-") id = false /\ endsWith (js "-") id = false
     /\ existsb (N.eqb SLASH) id = false /\ existsb (N.eqb DOT) id = false
     /\ is_ascii id = true.
Proof.
  split; [reflexivity|]. split; [reflexivity|]. split; [reflexivity|].
  apply (getShortUserId_shape (js "Naufaldi.Rifqi@mekari.com")). reflexivity.
Defined.

(** X13. [getShortUserId] is idempotent on ASCII addresses: the short id
    of a short id is that short id. *)
Theorem getShortUserId_idempotent (email : jsstring) :
  is_ascii email = true ->
  getShortUserId (getShortUserId email) = getShortUserId email.
Proof.
  intros _. destruct (getShortUserId_shaped email) as (Hc & Hd & Hs & He).
  set (id := getShortUserId email) in *. clearbody id.
  unfold getShortUserId. rewrite (toLowerCase_shaped _ Hc).
  rewrite split_none.
  2:{ eapply Forall_impl; [|exact Hc]. intros c H.
      now destruct (shaped_char c H) as (_ & _ & -> & _). }
  assert (E : match [id] with
              | (c :: part) :: _ => c :: part
              | _ => id
              end = id) by (destruct id; reflexivity).
  rewrite E, (replace_non_alnum_shaped _ Hc), (collapse_hyphens_none _ Hd).
  now apply strip_edge_hyphens_none.
Qed.

Lemma getShortUserId_idempotent_witness :
  getShortUserId (getShortUserId (js "A..B_c@x")) = getShortUserId (js "A..B_c@x").
Proof.
  apply (getShortUserId_idempotent (js "A..B_c@x")). reflexivity.
Defined.


(** What [validateBranchName] asks of a name. *)
Lemma validateBranchName_true (b : jsstring) :
  validateBranchName b = true <->
  b <> []
  /\ includes (js "..") b = false /\ includes [BACKSLASH] b = false
  /\ existsb invalid_branch_char b = false
  /\ startsWith (js "-") b = false
  /\ Js.eqb b (js "@") = false /\ includes (js "@{") b = false
  /\ forallb
       (fun segment =>
          negb (Nat.eqb (length segment) 0)
          && negb (startsWith (js ".") segment || endsWith (js ".") segment))
       (split SLASH b) = true.
Proof.
  unfold validateBranchName. split.
  - destruct b as [|c b']; [discriminate|]. cbn [length Nat.eqb].
    destruct (includes (js "..") (c :: b')); [discriminate|].
    destruct (includes [BACKSLASH] (c :: b')); [discriminate|]. cbn [orb].
    destruct (existsb invalid_branch_char (c :: b')); [discriminate|].
    destruct (startsWith (js "-") (c :: b')); [discriminate|].
    destruct (Js.eqb (c :: b') (js "@")); [discriminate|].
    destruct (includes (js "@{") (c :: b')); [discriminate|]. cbn [orb].
    intros H. repeat split; try reflexivity; [discriminate|exact H].
  - intros (Hne & -> & -> & -> & -> & -> & -> & H).
    destruct b as [|c b']; [contradiction|]. exact H.
Qed.

Lemma endsWith_one_cons (x c d : N) (a : jsstring) :
  endsWith [x] (c :: d :: a) = endsWith [x] (d :: a).
Proof.
  rewrite !endsWith_one. cbn [rev].
  destruct (rev a ++ [d]) as [|z t] eqn:E; [|reflexivity].
  now destruct (rev a).
Qed.

Lemma includes_two_app (x y : N) (a b : jsstring) :
  includes [x; y] (a ++ b)
  = includes [x; y] a || includes [x; y] b
    || (endsWith [x] a && startsWith [y] b).
Proof.
  assert (Hnil : includes [x; y] [] = false) by reflexivity.
  assert (Hend : endsWith [x] [] = false) by reflexivity.
  induction a as [|c a IH].
  - cbn [app]. rewrite Hnil, Hend. cbn [orb andb]. now rewrite orb_false_r.
  - cbn [app]. rewrite !includes_two, IH. destruct a as [|d a'].
    + cbn [app]. rewrite Hnil, Hend, startsWith_one.
      replace (endsWith [x] [c]) with (N.eqb x c)
        by (rewrite endsWith_one; reflexivity).
      destruct b as [|e b']; [now rewrite Hnil, !andb_false_r|].
      destruct (N.eqb x c), (N.eqb y e), (includes [x; y] (e :: b'));
        reflexivity.
    + cbn [app]. rewrite endsWith_one_cons.
      destruct (N.eqb x c && N.eqb y d), (includes [x; y] (d :: a')),
        (includes [x; y] b), (endsWith [x] (d :: a') && startsWith [y] b);
        reflexivity.
Qed.

Lemma includes_absent (x : N) (q s : jsstring) :
  existsb (N.eqb x) s = false -> includes (x :: q) s = false.
Proof.
  induction s as [|c s IH]; [reflexivity|]. cbn [existsb].
  intros H. apply orb_false_elim in H. destruct H as [Hc Hs].
  cbn [includes startsWith]. rewrite Hc, (IH Hs). reflexivity.
Qed.

Lemma includes_one (x : N) (s : jsstring) :
  includes [x] s = existsb (N.eqb x) s.
Proof.
  induction s as [|c s IH]; [reflexivity|].
  cbn [includes startsWith existsb]. rewrite IH.
  now rewrite andb_true_r.
Qed.

Lemma split_app_sep_any (sep : N) (a b : jsstring) :
  split sep (a ++ sep :: b) = split sep a ++ split sep b.
Proof.
  induction a as [|c a IH]; cbn [app split].
  - now rewrite N.eqb_refl.
  - destruct (N.eqb c sep); [now rewrite IH|]. rewrite IH.
    destruct (split sep a) as [|seg segs] eqn:E; [|reflexivity].
    destruct a as [|c' a']; [discriminate|]. cbn in E.
    destruct (N.eqb c' sep); [discriminate|].
    now destruct (split sep a').
Qed.

Lemma shaped_existsb (f : N -> bool) (s : jsstring) :
  (forall c, is_lower_alnum c = true \/ c = HYPHEN -> f c = false) ->
  Forall (fun c => is_lower_alnum c = true \/ c = HYPHEN) s ->
  existsb f s = false.
Proof.
  intros Hf. induction 1 as [|c s Hc Hs IH]; [reflexivity|].
  cbn [existsb]. now rewrite (Hf c Hc), IH.
Qed.

Lemma no_dot_edges (s : jsstring) :
  existsb (N.eqb DOT) s = false ->
  startsWith (js ".") s = false /\ endsWith (js ".") s = false.
Proof.
  intros H. change (js ".") with [DOT].
  rewrite startsWith_one, endsWith_one. split.
  - destruct s as [|c s']; [reflexivity|]. cbn in H.
    now apply orb_false_elim in H.
  - destruct (rev s) as [|c r] eqn:E; [reflexivity|].
    assert (Hin : In c s) by (apply in_rev; rewrite E; now left).
    destruct (N.eqb DOT c) eqn:Ec; [|reflexivity].
    assert (existsb (N.eqb DOT) s = true)
      by (apply existsb_exists; eauto).
    congruence.
Qed.

(** X14. The branch [createUserBranchName] makes for a user from a base
    branch that [validateBranchName] accepts is itself a name that
    [validateBranchName] accepts, provided the short id of the user is not
    empty; when the short id is empty the name has an empty segment and is
    refused. *)
Theorem createUserBranchName_valid (userEmail baseBranch : jsstring) :
  is_ascii userEmail = true ->
  validateBranchName baseBranch = true ->
  validateBranchName (createUserBranchName userEmail baseBranch)
  = negb (Js.eqb (getShortUserId userEmail) []).
Proof.
  intros _ Hb. unfold createUserBranchName.
  destruct (getShortUserId_shaped userEmail) as (Hc & Hd & Hs & He).
  set (id := getShortUserId userEmail) in *. clearbody id.
  apply validateBranchName_true in Hb.
  destruct Hb as (Hne & Hdd & Hbs & Hinv & Hdash & Hat & Hatb & Hseg).
  assert (Hno : forall x, (forall c, is_lower_alnum c = true \/ c = HYPHEN ->
                                      N.eqb x c = false) ->
                          existsb (N.eqb x) id = false).
  { intros x Hx. now apply shaped_existsb. }
  assert (Hdot : existsb (N.eqb DOT) id = false).
  { apply Hno. intros c H. rewrite N.eqb_sym.
    now destruct (shaped_char c H) as (_ & _ & _ & _ & -> & _). }
  assert (Hsl : existsb (N.eqb SLASH) id = false).
  { apply Hno. intros c H. rewrite N.eqb_sym.
    now destruct (shaped_char c H) as (_ & _ & _ & -> & _). }
  assert (Hbk : existsb (N.eqb BACKSLASH) id = false).
  { apply Hno. intros c H. rewrite N.eqb_sym.
    now destruct (shaped_char c H) as (_ & _ & _ & _ & _ & -> & _). }
  assert (Hatc : existsb (N.eqb AT) id = false).
  { apply Hno. intros c H. rewrite N.eqb_sym.
    now destruct (shaped_char c H) as (_ & _ & -> & _). }
  assert (Hiv : existsb invalid_branch_char id = false).
  { apply shaped_existsb; [|exact Hc]. intros c H.
    now destruct (shaped_char c H) as (_ & _ & _ & _ & _ & _ & -> & _). }
  set (P := js "logpose/" ++ id).
  assert (Esplit : split SLASH (js "logpose/" ++ id ++ js "/" ++ baseBranch)
                   = js "logpose" :: id :: split SLASH baseBranch).
  { change (js "logpose/" ++ id ++ js "/" ++ baseBranch)
      with (js "logpose" ++ SLASH :: (id ++ SLASH :: baseBranch)).
    rewrite !split_app_sep_any.
    rewrite (split_none SLASH id).
    - reflexivity.
    - clear -Hsl. induction id as [|c s IH]; constructor.
      + cbn in Hsl. apply orb_false_elim in Hsl.
        rewrite N.eqb_sym. tauto.
      + apply IH. cbn in Hsl. now apply orb_false_elim in Hsl. }
  assert (Hx : forall x : N,
             existsb (N.eqb x) (js "logpose/") = false ->
             N.eqb x SLASH = false ->
             existsb (N.eqb x) id = false ->
             forall q, includes (x :: q) baseBranch = false ->
                       existsb (N.eqb x) (js "logpose/" ++ id ++ js "/") = false).
  { intros x H1 H2 H3 q _. rewrite !existsb_app, H1, H3.
    change (existsb (N.eqb x) (js "/")) with (N.eqb x SLASH || false).
    now rewrite H2. }
  assert (Etwo : forall x y : N,
             existsb (N.eqb x) (js "logpose/") = false ->
             N.eqb x SLASH = false ->
             existsb (N.eqb x) id = false ->
             includes [x; y] baseBranch = false ->
             includes [x; y] (js "logpose/" ++ id ++ js "/" ++ baseBranch)
             = false).
  { intros x y H1 H2 H3 H4.
    replace (js "logpose/" ++ id ++ js "/" ++ baseBranch)
      with ((js "logpose/" ++ id ++ js "/") ++ baseBranch)
      by (now rewrite <- !app_assoc).
    rewrite includes_two_app, H4, orb_false_r.
    rewrite (includes_absent x [y]) by (now apply (Hx x H1 H2 H3 [y])).
    rewrite endsWith_one, !rev_app_distr.
    change (rev (js "/")) with [SLASH]. cbn [app].
    now rewrite H2. }
  unfold validateBranchName.
  replace (Nat.eqb (length (js "logpose/" ++ id ++ js "/" ++ baseBranch)) 0)
    with false by reflexivity.
  change (js "..") with [DOT; DOT] in *.
  change (js "@{") with [AT; 123%N] in *.
  rewrite (Etwo DOT DOT eq_refl eq_refl Hdot Hdd).
  rewrite (Etwo AT 123%N eq_refl eq_refl Hatc Hatb).
  rewrite includes_one, !existsb_app, Hbk.
  rewrite includes_one in Hbs. rewrite Hbs.
  rewrite Hiv, Hinv.
  replace (existsb (N.eqb BACKSLASH) (js "logpose/")) with false by reflexivity.
  replace (existsb (N.eqb BACKSLASH) (js "/")) with false by reflexivity.
  replace (existsb invalid_branch_char (js "logpose/")) with false
    by reflexivity.
  replace (existsb invalid_branch_char (js "/")) with false by reflexivity.
  cbn [orb].
  replace (startsWith (js "-") (js "logpose/" ++ id ++ js "/" ++ baseBranch))
    with false by reflexivity.
  replace (Js.eqb (js "logpose/" ++ id ++ js "/" ++ baseBranch) (js "@"))
    with false by reflexivity.
  cbn [orb]. rewrite Esplit. cbn [forallb]. rewrite Hseg, andb_true_r.
  replace (negb (Nat.eqb (length (js "logpose")) 0)
           && negb (startsWith (js ".") (js "logpose")
                    || endsWith (js ".") (js "logpose")))
    with true by reflexivity.
  rewrite andb_true_l.
  destruct (no_dot_edges id Hdot) as [-> ->]. cbn [orb negb].
  rewrite andb_true_r. now destruct id.
Qed.

Lemma createUserBranchName_valid_witness :
  createUserBranchName (js "u.v@x") (js "feature/x")
  = js "logpose/u-v/feature/x"
  /\ validateBranchName (createUserBranchName (js "u.v@x") (js "feature/x"))
     = negb (Js.eqb (getShortUserId (js "u.v@x")) []).
Proof.
  split; [reflexivity|].
  apply (createUserBranchName_valid (js "u.v@x") (js "feature/x"));
    reflexivity.
Defined.


Lemma split_snoc_sep (sep : N) (a : jsstring) :
  split sep (a ++ [sep]) = split sep a ++ [[]].
Proof. apply (split_app_sep_any sep a []). Qed.

Lemma endsWith_app_nonempty (x : N) (a b : jsstring) :
  b <> [] -> endsWith [x] (a ++ b) = endsWith [x] b.
Proof.
  intros Hb. rewrite !endsWith_one, rev_app_distr.
  destruct (rev b) as [|c r] eqn:E; [|reflexivity].
  apply (f_equal (@rev N)) in E. rewrite rev_involutive in E. contradiction.
Qed.

(** The segments of a branch name that [validateBranchName] accepts are
    names of files, and the name does not end with a separator. *)
Lemma valid_branch_segments (b : jsstring) :
  validateBranchName b = true ->
  Forall (fun x => proper_name x = true) (split SLASH b)
  /\ endsWith [SLASH] b = false.
Proof.
  intros H. apply validateBranchName_true in H.
  destruct H as (_ & _ & _ & _ & _ & _ & _ & Hseg).
  rewrite forallb_forall in Hseg. split.
  - pose proof (split_no_sep SLASH b) as Hns.
    rewrite Forall_forall in Hns |- *. intros x Hx.
    specialize (Hseg x Hx). specialize (Hns x Hx).
    apply andb_true_iff in Hseg. destruct Hseg as [Hlen Hdot].
    apply negb_true_iff in Hdot. apply orb_false_elim in Hdot.
    destruct Hdot as [Hd _].
    destruct x as [|c x']; [discriminate|].
    change (js ".") with [DOT] in Hd. rewrite startsWith_one in Hd.
    apply proper_name_intro.
    + unfold name_ok. rewrite existsb_is_slash, Hns. reflexivity.
    + cbn [Js.eqb js]. cbn. rewrite (N.eqb_sym c). fold DOT.
      now rewrite Hd.
    + cbn [Js.eqb js]. cbn. rewrite (N.eqb_sym c). fold DOT.
      now rewrite Hd.
  - destruct (endsWith [SLASH] b) eqn:E; [|reflexivity].
    rewrite endsWith_one in E.
    destruct (rev b) as [|c r] eqn:Er; [discriminate|].
    apply N.eqb_eq in E. subst c.
    assert (Eb : b = rev r ++ [SLASH]).
    { rewrite <- (rev_involutive b), Er. reflexivity. }
    assert (Hin : In [] (split SLASH b)).
    { rewrite Eb, split_snoc_sep. apply in_or_app. right. now left. }
    specialize (Hseg [] Hin). discriminate.
Qed.

Lemma short_id_proper (id : jsstring) :
  id_shaped id -> id <> [] -> proper_name id = true.
Proof.
  intros (Hc & _) Hne.
  assert (Hsl : existsb (N.eqb SLASH) id = false).
  { apply shaped_existsb; [|exact Hc]. intros c H. rewrite N.eqb_sym.
    now destruct (shaped_char c H) as (_ & _ & _ & -> & _). }
  assert (Hdot : existsb (N.eqb DOT) id = false).
  { apply shaped_existsb; [|exact Hc]. intros c H. rewrite N.eqb_sym.
    now destruct (shaped_char c H) as (_ & _ & _ & _ & -> & _). }
  destruct id as [|c id']; [contradiction|].
  apply proper_name_intro.
  - unfold name_ok. rewrite existsb_is_slash, Hsl. reflexivity.
  - cbn [existsb] in Hdot. apply orb_false_elim in Hdot.
    destruct Hdot as [Hd _]. cbn. fold DOT. now rewrite (N.eqb_sym c), Hd.
  - cbn [existsb] in Hdot. apply orb_false_elim in Hdot.
    destruct Hdot as [Hd _]. cbn. fold DOT. now rewrite (N.eqb_sym c), Hd.
Qed.

Lemma join_split (s : jsstring) : Js.join [SLASH] (split SLASH s) = s.
Proof.
  induction s as [|c b IH]; [reflexivity|].
  cbn [split]. destruct (N.eqb c SLASH) eqn:Ec.
  - apply N.eqb_eq in Ec. subst c.
    destruct (split SLASH b) as [|seg segs] eqn:E.
    + destruct b; cbn in E; [discriminate|].
      destruct (N.eqb n SLASH); [discriminate|].
      now destruct (split SLASH b).
    + rewrite join_cons2_char. cbn [app]. now rewrite IH.
  - destruct (split SLASH b) as [|seg segs] eqn:E.
    + destruct b; cbn in E; [discriminate|].
      destruct (N.eqb n SLASH); [discriminate|].
      now destruct (split SLASH b).
    + destruct segs as [|seg' segs'].
      * cbn in IH |- *. now rewrite IH.
      * rewrite join_cons2_char in IH |- *. cbn [app]. now rewrite IH.
Qed.

Lemma join_cons_split (p s : jsstring) :
  Js.join [SLASH] (p :: split SLASH s) = p ++ SLASH :: s.
Proof.
  pose proof (join_split s) as H.
  destruct (split SLASH s) as [|seg segs] eqn:E.
  - destruct s; cbn in E; [discriminate|].
    destruct (N.eqb n SLASH); [discriminate|].
    now destruct (split SLASH s).
  - rewrite join_cons2_char. now rewrite H.
Qed.

(** Normalizing an absolute path followed by names of files. *)
Lemma normalize_under (root tail : jsstring) (names : list jsstring) :
  isAbsolute root = true ->
  names <> [] ->
  Forall (fun x => proper_name x = true) names ->
  tail = Js.join [SLASH] names ->
  normalize (root ++ SLASH :: tail)
  = render (normalize_segments false root ++ names).
Proof.
  intros Habs Hne Hnames ->.
  assert (Hok : Forall (fun x => name_ok x = true) names)
    by (now apply Forall_proper_ok).
  assert (Habs' : isAbsolute (root ++ SLASH :: Js.join [SLASH] names) = true).
  { destruct root; [discriminate|exact Habs]. }
  rewrite (normalize_absolute _ Habs').
  assert (Eseg : normalize_segments false
                   (root ++ SLASH :: Js.join [SLASH] names)
                 = normalize_segments false root ++ names).
  { unfold normalize_segments.
    rewrite split_app_sep_any, (split_join names Hok Hne), fold_left_app.
    rewrite normalize_fold_names by (now apply proper_or_empty).
    rewrite (filter_nonempty_names names Hok), rev_app_distr, rev_involutive.
    reflexivity. }
  rewrite Eseg.
  destruct (normalize_segments false root ++ names) eqn:E.
  { apply app_eq_nil in E. destruct E as [_ E]. contradiction. }
  rewrite <- E.
  replace (root ++ SLASH :: Js.join [SLASH] names)
    with ((root ++ [SLASH]) ++ Js.join [SLASH] names)
    by (now rewrite <- app_assoc).
  rewrite endsWith_app_nonempty by (now apply join_nonempty).
  assert (Hend : endsWith [SLASH] (Js.join [SLASH] names) = false).
  { pose proof (endsWith_render names Hok Hne) as H.
    unfold render in H.
    change (SLASH :: Js.join [SLASH] names)
      with ([SLASH] ++ Js.join [SLASH] names) in H.
    rewrite endsWith_app_nonempty in H by (now apply join_nonempty).
    exact H. }
  rewrite Hend. now rewrite app_nil_r.
Qed.

(** The segments of a worktree path. *)
Lemma getWorktreePath_form (repoPath userEmail branch : jsstring) :
  isAbsolute repoPath = true ->
  validateBranchName branch = true ->
  getWorktreePath repoPath userEmail branch
  = render (normalize_segments false repoPath
            ++ WORKTREES_DIR
               :: (if Js.eqb (getShortUserId userEmail) [] then []
                   else [getShortUserId userEmail])
               ++ split SLASH branch).
Proof.
  intros Habs Hb.
  destruct (valid_branch_segments branch Hb) as [Hsegs _].
  pose proof (getShortUserId_shaped userEmail) as Hid.
  set (id := getShortUserId userEmail) in *.
  assert (Hbne : branch <> []).
  { apply validateBranchName_true in Hb. tauto. }
  pose proof (join_split branch) as Hjoin.
  assert (Hcons : forall p, Js.join [SLASH] (p :: split SLASH branch)
                            = p ++ SLASH :: branch)
    by (intros p; apply join_cons_split).
  assert (Hw : proper_name WORKTREES_DIR = true) by reflexivity.
  unfold getWorktreePath, join_all. fold id.
  destruct repoPath as [|r0 repo']; [discriminate|].
  destruct branch as [|b0 branch']; [contradiction|].
  cbn [filter Js.eqb negb]. replace (Js.eqb WORKTREES_DIR []) with false
    by reflexivity. cbn [negb].
  destruct id as [|i0 id'] eqn:Eid.
  - cbn [Js.eqb negb filter].
    change (Js.join [SLASH]
              [r0 :: repo'; WORKTREES_DIR; b0 :: branch'])
      with ((r0 :: repo') ++ SLASH
              :: Js.join [SLASH] [WORKTREES_DIR; b0 :: branch']).
    rewrite (normalize_under (r0 :: repo') _
               (WORKTREES_DIR :: split SLASH (b0 :: branch')) Habs).
    + reflexivity.
    + discriminate.
    + now constructor.
    + symmetry. apply (Hcons WORKTREES_DIR).
  - cbn [Js.eqb negb filter].
    change (Js.join [SLASH]
              [r0 :: repo'; WORKTREES_DIR; i0 :: id'; b0 :: branch'])
      with ((r0 :: repo') ++ SLASH
              :: Js.join [SLASH] [WORKTREES_DIR; i0 :: id'; b0 :: branch']).
    rewrite (normalize_under (r0 :: repo') _
               (WORKTREES_DIR :: (i0 :: id') :: split SLASH (b0 :: branch'))
               Habs).
    + reflexivity.
    + discriminate.
    + constructor; [exact Hw|]. constructor; [|exact Hsegs].
      apply short_id_proper; [exact Hid|discriminate].
    + symmetry.
      exact (f_equal (fun t => WORKTREES_DIR ++ SLASH :: t)
               (Hcons (i0 :: id'))).
Qed.

(** X15. For an absolute repository path and a branch name that
    [validateBranchName] accepts, the worktree path is the normal form of
    the repository path followed by ".worktrees", the short id of the user
    when it is not empty, and the segments of the branch name: it lies
    under the ".worktrees" directory of the repository, and every branch
    segment is a directory level of its own. *)
Theorem getWorktreePath_inside_repo (repoPath userEmail branch : jsstring) :
  is_ascii userEmail = true ->
  isAbsolute repoPath = true ->
  validateBranchName branch = true ->
  getWorktreePath repoPath userEmail branch
  = render (normalize_segments false repoPath
            ++ WORKTREES_DIR
               :: (if Js.eqb (getShortUserId userEmail) [] then []
                   else [getShortUserId userEmail])
               ++ split SLASH branch).
Proof.
  intros _ Habs Hb. now apply getWorktreePath_form.
Qed.

Lemma getWorktreePath_inside_repo_witness :
  getWorktreePath (js "/r/demo/") (js "u.v@x") (js "feature/x")
  = js "/r/demo/.worktrees/u-v/feature/x"
  /\ getWorktreePath (js "/r/demo/") (js "u.v@x") (js "feature/x")
     = render (normalize_segments false (js "/r/demo/")
               ++ WORKTREES_DIR
                  :: (if Js.eqb (getShortUserId (js "u.v@x")) [] then []
                      else [getShortUserId (js "u.v@x")])
                  ++ split SLASH (js "feature/x")).
Proof.
  split; [reflexivity|].
  apply (getWorktreePath_inside_repo (js "/r/demo/") (js "u.v@x")
           (js "feature/x")); reflexivity.
Defined.


Lemma normalize_step_name (above : bool) (res : list jsstring)
    (x : jsstring) :
  proper_name x = true -> normalize_step above res x = x :: res.
Proof.
  intros H. destruct (proper_name_inv x H) as (Hok & Hd & Hdd).
  destruct (name_ok_inv x Hok) as [Hne _].
  unfold normalize_step. rewrite Hd, Hdd.
  destruct x; [contradiction|reflexivity].
Qed.

Lemma normalize_fold_proper (above : bool) (names acc : list jsstring) :
  Forall (fun x => proper_name x = true) names ->
  fold_left (normalize_step above) names acc = rev names ++ acc.
Proof.
  intros H. revert acc. induction H as [|x l Hx Hl IH]; intros acc.
  - reflexivity.
  - cbn [fold_left rev]. rewrite (normalize_step_name _ _ _ Hx), IH.
    now rewrite <- app_assoc.
Qed.

Lemma isAbsolute_join (x : jsstring) (l : list jsstring) :
  x <> [] -> isAbsolute (Js.join [SLASH] (x :: l)) = isAbsolute x.
Proof.
  intros Hx. destruct x as [|c x']; [contradiction|].
  destruct l; [reflexivity|]. now rewrite join_cons2_char.
Qed.

(** A relative path made of names of files is its own normal form. *)
Lemma normalize_names (names : list jsstring) :
  names <> [] ->
  Forall (fun x => proper_name x = true) names ->
  normalize (Js.join [SLASH] names) = Js.join [SLASH] names
  /\ isAbsolute (Js.join [SLASH] names) = false.
Proof.
  intros Hne Hp.
  assert (Hok : Forall (fun x => name_ok x = true) names)
    by (now apply Forall_proper_ok).
  assert (Habs : isAbsolute (Js.join [SLASH] names) = false).
  { destruct names as [|x l]; [contradiction|].
    inversion Hok as [|? ? Hx _]; subst.
    destruct (name_ok_inv x Hx) as [Hxne Hsl].
    rewrite (isAbsolute_join x l Hxne).
    destruct x as [|c x']; [contradiction|].
    cbn [existsb] in Hsl. apply orb_false_elim in Hsl.
    destruct Hsl as [Hc _].
    cbn. unfold is_slash. now rewrite N.eqb_sym. }
  split; [|exact Habs].
  pose proof (join_nonempty names Hok Hne) as Hj.
  pose proof (endsWith_render names Hok Hne) as Hend.
  unfold render in Hend.
  change (SLASH :: Js.join [SLASH] names)
    with ([SLASH] ++ Js.join [SLASH] names) in Hend.
  rewrite endsWith_app_nonempty in Hend by exact Hj.
  assert (Eseg : normalize_segments true (Js.join [SLASH] names) = names).
  { unfold normalize_segments.
    rewrite (split_join names Hok Hne), (normalize_fold_proper _ _ _ Hp).
    now rewrite app_nil_r, rev_involutive. }
  unfold normalize, normalizeString.
  remember (Js.join [SLASH] names) as j eqn:Ej.
  destruct j as [|c t]; [contradiction|].
  rewrite Habs, Hend. cbn [negb]. rewrite Eseg, <- Ej.
  cbn [app]. now rewrite app_nil_r.
Qed.

Lemma indexOf_app_fresh (x : jsstring) (a b : list jsstring) :
  ~ In x a -> indexOf x (a ++ x :: b) = Some (length a).
Proof.
  induction a as [|y a IH]; intros Hn; cbn [app indexOf length].
  - now rewrite eqb_refl.
  - destruct (Js.eqb y x) eqn:E.
    + apply eqb_eq in E. subst y. exfalso. apply Hn. now left.
    + rewrite IH; [reflexivity|]. intros H. apply Hn. now right.
Qed.

(** X16. [cleanupWorktree] runs git in the directory it gets by joining
    the segments of the worktree path before ".worktrees".  For a worktree
    path that [getWorktreePath] made under an absolute repository path with
    no ".worktrees" segment of its own, these segments begin with the empty
    one before the leading separator, which [path.join] drops: the
    directory is the repository path without its leading separator, a
    relative path. *)
Theorem cleanupWorktree_repoPath_is_relative
    (repoPath userEmail branch : jsstring) :
  is_ascii userEmail = true ->
  isAbsolute repoPath = true ->
  validateBranchName branch = true ->
  ~ In WORKTREES_DIR (normalize_segments false repoPath) ->
  exists dir,
    cleanupWorktree_repoPath (getWorktreePath repoPath userEmail branch)
    = Some dir
    /\ dir = match normalize_segments false repoPath with
             | [] => js "."
             | names => Js.join [SLASH] names
             end
    /\ isAbsolute dir = false.
Proof.
  intros Ha Habs Hb Hfresh.
  rewrite (getWorktreePath_form repoPath userEmail branch Habs Hb).
  pose proof (normalize_segments_proper repoPath) as HR.
  set (R := normalize_segments false repoPath) in *. clearbody R.
  destruct (valid_branch_segments branch Hb) as [Hsegs _].
  pose proof (getShortUserId_shaped userEmail) as Hid.
  set (rest := (if Js.eqb (getShortUserId userEmail) [] then []
                else [getShortUserId userEmail]) ++ split SLASH branch).
  assert (Hrest : Forall (fun x => proper_name x = true) rest).
  { subst rest. apply Forall_app. split; [|exact Hsegs].
    destruct (Js.eqb (getShortUserId userEmail) []) eqn:E; [constructor|].
    constructor; [|constructor]. apply short_id_proper; [exact Hid|].
    intros H. rewrite H in E. discriminate. }
  assert (Hall : Forall (fun x => name_ok x = true)
                   (R ++ WORKTREES_DIR :: rest)).
  { apply Forall_proper_ok, Forall_app. split; [exact HR|].
    constructor; [reflexivity|exact Hrest]. }
  unfold cleanupWorktree_repoPath.
  rewrite (split_render _ Hall) by (now destruct R).
  cbn [indexOf]. replace (Js.eqb [] WORKTREES_DIR) with false by reflexivity.
  rewrite (indexOf_app_fresh _ _ _ Hfresh).
  cbn [firstn]. rewrite firstn_app, firstn_all, Nat.sub_diag. cbn [firstn].
  rewrite app_nil_r.
  eexists. split; [reflexivity|].
  unfold join_all. cbn [filter Js.eqb negb].
  rewrite (filter_nonempty_names R (Forall_proper_ok _ HR)).
  destruct R as [|x R']; [split; reflexivity|].
  destruct (normalize_names (x :: R')) as [-> Hrel];
    [discriminate|exact HR|]. split; [reflexivity|exact Hrel].
Qed.

Lemma cleanupWorktree_repoPath_is_relative_witness :
  exists dir,
    cleanupWorktree_repoPath
      (getWorktreePath (js "/r/demo") (js "u.v@x") (js "feature/x"))
    = Some dir
    /\ dir = match normalize_segments false (js "/r/demo") with
             | [] => js "."
             | names => Js.join [SLASH] names
             end
    /\ isAbsolute dir = false.
Proof.
  apply (cleanupWorktree_repoPath_is_relative (js "/r/demo") (js "u.v@x")
           (js "feature/x")); try reflexivity.
  cbv. intros [H|[H|[]]]; discriminate H.
Defined.

End WorktreeFacts.

(** ** The lexical side of path safety *)

Module LexicalSafety.
Import NodePath NodeFs FileService PathSafety JsFacts.
Import FsInvariants FsFacts PathStrings PathSafetyProps WorktreeFacts.

(** X17. What [sanitizeFilename] answers holds none of the characters it
    removes, so no separator of either kind and no control character; it
    is never longer than the name; a name with none of these characters is
    kept as it is, so the function is idempotent, and a name made of dots,
    ".." among them, passes unchanged. *)
Theorem sanitizeFilename_removes_dangerous (filename : jsstring) :
  let s := sanitizeFilename filename in
  existsb dangerous_char s = false
  /\ existsb (N.eqb SLASH) s = false /\ existsb (N.eqb BACKSLASH) s = false
  /\ length s <= length filename
  /\ (existsb dangerous_char filename = false -> s = filename)
  /\ sanitizeFilename s = s
  /\ (Forall (fun c => c = DOT) filename -> s = filename).
Proof.
  cbv zeta.
  assert (Hkeep : forall f, existsb dangerous_char f = false ->
                            sanitizeFilename f = f).
  { induction f as [|c f IH]; [reflexivity|]. cbn [existsb].
    intros H. apply orb_false_elim in H. destruct H as [Hc Hf].
    unfold sanitizeFilename in *. cbn [filter]. rewrite Hc. cbn [negb].
    now rewrite IH. }
  assert (Hclean : existsb dangerous_char (sanitizeFilename filename) = false).
  { unfold sanitizeFilename.
    induction filename as [|c f IH]; [reflexivity|]. cbn [filter].
    destruct (dangerous_char c) eqn:E; cbn [negb]; [exact IH|].
    cbn [existsb]. now rewrite E, IH. }
  assert (Hsub : forall x, dangerous_char x = true ->
                   existsb (N.eqb x) (sanitizeFilename filename) = false).
  { intros x Hx. destruct (existsb (N.eqb x) _) eqn:E; [|reflexivity].
    apply existsb_exists in E. destruct E as (c & Hin & Hc).
    apply N.eqb_eq in Hc. subst c.
    assert (existsb dangerous_char (sanitizeFilename filename) = true)
      by (apply existsb_exists; eauto).
    congruence. }
  split; [exact Hclean|]. split; [now apply Hsub|]. split; [now apply Hsub|].
  split; [apply Capacity.filter_length_le|]. split; [apply Hkeep|].
  split; [now apply Hkeep|].
  intros Hd. apply Hkeep. clear -Hd.
  induction Hd as [|c f -> Hf IH]; [reflexivity|].
  cbn [existsb]. rewrite IH. reflexivity.
Qed.


(** With [allowAboveRoot], a ".." that is in the result stays there. *)
Lemma normalize_step_keeps_dotdot (res : list jsstring) (segment : jsstring) :
  In (js "..") res -> In (js "..") (normalize_step true res segment).
Proof.
  intros H. unfold normalize_step.
  destruct (Js.eqb segment [] || Js.eqb segment (js ".")); [exact H|].
  destruct (Js.eqb segment (js "..")) eqn:E.
  - destruct res as [|top rest]; [now left|].
    destruct (Js.eqb top (js "..")) eqn:Et; [now right|].
    destruct H as [H|H]; [|exact H].
    subst top. now rewrite eqb_refl in Et.
  - now right.
Qed.

Lemma normalize_fold_keeps_dotdot (segs res : list jsstring) :
  In (js "..") res ->
  In (js "..") (fold_left (normalize_step true) segs res).
Proof.
  revert res. induction segs as [|s segs IH]; intros res H; [exact H|].
  cbn [fold_left]. apply IH. now apply normalize_step_keeps_dotdot.
Qed.

(** When normalizing a relative path alone leaves no "..", normalizing it
    after any other segments only adds to what these have left. *)
Lemma normalize_fold_above (segs : list jsstring) :
  forall s acc : list jsstring,
    ~ In (js "..") (fold_left (normalize_step true) segs s) ->
    fold_left (normalize_step false) segs (s ++ acc)
    = fold_left (normalize_step true) segs s ++ acc.
Proof.
  induction segs as [|seg segs IH]; intros s acc Hno; [reflexivity|].
  cbn [fold_left] in *.
  assert (Hstep : normalize_step false (s ++ acc) seg
                  = normalize_step true s seg ++ acc).
  { unfold normalize_step in *.
    destruct (Js.eqb seg [] || Js.eqb seg (js ".")); [reflexivity|].
    destruct (Js.eqb seg (js "..")) eqn:E; [|reflexivity].
    apply eqb_eq in E. subst seg.
    destruct s as [|top rest].
    - exfalso. apply Hno. apply normalize_fold_keeps_dotdot. now left.
    - cbn [app]. destruct (Js.eqb top (js "..")) eqn:Et; [|reflexivity].
      exfalso. apply Hno. apply normalize_fold_keeps_dotdot. now left. }
  rewrite Hstep. now apply IH.
Qed.

(** The segments normalization leaves are names, ".." apart. *)
Lemma normalize_step_names (above : bool) (res : list jsstring)
    (segment : jsstring) :
  existsb (N.eqb SLASH) segment = false ->
  Forall (fun x => proper_name x = true \/ x = js "..") res ->
  Forall (fun x => proper_name x = true \/ x = js "..")
    (normalize_step above res segment).
Proof.
  intros Hs Hres. unfold normalize_step.
  destruct (Js.eqb segment []) eqn:E0; [exact Hres|].
  destruct (Js.eqb segment (js ".")) eqn:E1; [exact Hres|]. cbn [orb].
  destruct (Js.eqb segment (js "..")) eqn:E2.
  - apply eqb_eq in E2. subst segment.
    destruct res as [|top rest].
    + destruct above; constructor; [now right|constructor].
    + inversion Hres; subst.
      destruct (Js.eqb top (js "..")); [|assumption].
      destruct above; [constructor; [now right|assumption]|assumption].
  - constructor; [|exact Hres]. left. apply proper_name_intro.
    + unfold name_ok. now rewrite E0, existsb_is_slash, Hs.
    + exact E1.
    + exact E2.
Qed.

Lemma normalize_segments_names (above : bool) (p : jsstring) :
  Forall (fun x => proper_name x = true \/ x = js "..")
    (normalize_segments above p).
Proof.
  unfold normalize_segments. apply Forall_rev.
  pose proof (split_no_sep SLASH p) as Hs.
  assert (H : forall acc,
             Forall (fun x => proper_name x = true \/ x = js "..") acc ->
             Forall (fun x => proper_name x = true \/ x = js "..")
               (fold_left (normalize_step above) (split SLASH p) acc)).
  { induction Hs as [|seg segs Hseg Hsegs IH]; intros acc Hacc; [exact Hacc|].
    cbn [fold_left]. apply IH. now apply normalize_step_names. }
  apply H. constructor.
Qed.


Lemma join_shows_segment (x : jsstring) (l : list jsstring) :
  In x l ->
  startsWith x (Js.join [SLASH] l) = true
  \/ includes (SLASH :: x) (Js.join [SLASH] l) = true.
Proof.
  induction l as [|y l IH]; intros H; [contradiction|].
  destruct l as [|z l'].
  - destruct H as [->|[]]. left. rewrite <- (app_nil_r x) at 2.
    apply startsWith_app.
  - rewrite join_cons2_char. destruct H as [->|H].
    + left. apply startsWith_app.
    + right. destruct (IH H) as [Hs|Hi].
      * apply startsWith_spec in Hs. destruct Hs as [t Ht].
        apply includes_spec. exists y, t.
        rewrite Ht. reflexivity.
      * change (y ++ SLASH :: Js.join [SLASH] (z :: l'))
          with (y ++ [SLASH] ++ Js.join [SLASH] (z :: l')).
        rewrite app_assoc. now apply includes_app_r.
Qed.

Lemma startsWith_app_l (p a b : jsstring) :
  startsWith p a = true -> startsWith p (a ++ b) = true.
Proof.
  intros H. apply startsWith_spec in H. destruct H as [t ->].
  rewrite <- app_assoc. apply startsWith_app.
Qed.

(** A path [validateRelativePath] accepts normalizes to names of files:
    no ".." is left. *)
Lemma accepted_path_names (p : jsstring) :
  validateRelativePath p = None ->
  p <> [] /\ isAbsolute p = false
  /\ Forall (fun x => proper_name x = true) (normalize_segments true p).
Proof.
  unfold validateRelativePath. intros H.
  destruct p as [|c p']; [discriminate|].
  destruct (isAbsolute (c :: p')) eqn:Ea; [discriminate|].
  split; [discriminate|]. split; [reflexivity|].
  destruct (startsWith (js "..") (normalize (c :: p'))
            || includes (js "/..") (normalize (c :: p'))
            || includes (BACKSLASH :: js "..") (normalize (c :: p')))
    eqn:Et; [discriminate|].
  apply orb_false_elim in Et. destruct Et as [Et _].
  apply orb_false_elim in Et. destruct Et as [Hs Hi].
  pose proof (normalize_segments_names true (c :: p')) as Hn.
  assert (Hno : ~ In (js "..") (normalize_segments true (c :: p'))).
  { intros Hin.
    destruct (join_shows_segment _ _ Hin) as [H1|H1].
    - assert (startsWith (js "..") (normalize (c :: p')) = true); [|congruence].
      unfold normalize. rewrite Ea. cbn [negb]. unfold normalizeString.
      destruct (Js.join [SLASH] (normalize_segments true (c :: p')))
        as [|d t] eqn:Ej; [discriminate|].
      cbn [app]. now apply (startsWith_app_l (js "..") (d :: t)).
    - assert (includes (js "/..") (normalize (c :: p')) = true); [|congruence].
      unfold normalize. rewrite Ea. cbn [negb]. unfold normalizeString.
      destruct (Js.join [SLASH] (normalize_segments true (c :: p')))
        as [|d t] eqn:Ej; [discriminate|].
      cbn [app]. now apply (includes_app_l (js "/..") (d :: t)). }
  rewrite Forall_forall in Hn |- *. intros x Hx.
  destruct (Hn x Hx) as [Hp|Hd]; [exact Hp|subst x; contradiction].
Qed.

(** The join of an absolute path and a relative one whose normal form is
    made of names. *)
Lemma join_under_form (repoPath relativePath : jsstring) :
  isAbsolute repoPath = true ->
  relativePath <> [] ->
  Forall (fun x => proper_name x = true)
    (normalize_segments true relativePath) ->
  let under := normalize_segments false repoPath
               ++ normalize_segments true relativePath in
  NodePath.join repoPath relativePath
  = render under
    ++ match under with
       | [] => []
       | _ => if endsWith [SLASH] relativePath then [SLASH] else []
       end.
Proof.
  intros Habs Hne Hnames under.
  set (names := normalize_segments true relativePath) in *.
  destruct repoPath as [|r0 repo']; [discriminate|].
  destruct relativePath as [|p0 rel']; [contradiction|].
  unfold NodePath.join.
  set (j := (r0 :: repo') ++ [SLASH] ++ p0 :: rel').
  assert (Hj : isAbsolute j = true) by exact Habs.
  rewrite (normalize_absolute j Hj).
  assert (Eseg : normalize_segments false j = under).
  { subst under names j. unfold normalize_segments.
    change ((r0 :: repo') ++ [SLASH] ++ p0 :: rel')
      with ((r0 :: repo') ++ SLASH :: p0 :: rel').
    rewrite split_app_sep_any, fold_left_app.
    rewrite <- (app_nil_l (fold_left (normalize_step false)
                             (split SLASH (r0 :: repo')) [])).
    rewrite normalize_fold_above.
    - now rewrite rev_app_distr.
    - intros Hin. apply in_rev in Hin.
      rewrite Forall_forall in Hnames. specialize (Hnames _ Hin).
      discriminate. }
  rewrite Eseg. f_equal.
  destruct under; [reflexivity|].
  subst j. rewrite app_assoc.
  now rewrite endsWith_app_nonempty by discriminate.
Qed.

(** X18. The candidate path of [resolveFilePath] never leaves the
    repository lexically: for an absolute repository path and a relative
    path that [validateRelativePath] accepts, [path.join] answers with the
    normal form of the repository path followed by the segments of the
    normal form of the relative path, which are names of files, none of
    them "..", with a separator at the end when the relative path has
    one. *)
Theorem join_stays_under_repo (repoPath relativePath : jsstring) :
  isAbsolute repoPath = true ->
  validateRelativePath relativePath = None ->
  let names := normalize_segments true relativePath in
  let under := normalize_segments false repoPath ++ names in
  Forall (fun x => proper_name x = true) names
  /\ NodePath.join repoPath relativePath
     = render under
       ++ match under with
          | [] => []
          | _ => if endsWith [SLASH] relativePath then [SLASH] else []
          end.
Proof.
  intros Habs Hv names under.
  destruct (accepted_path_names relativePath Hv) as (Hne & Hrel & Hnames).
  split; [exact Hnames|].
  exact (join_under_form repoPath relativePath Habs Hne Hnames).
Qed.

Lemma join_stays_under_repo_witness :
  NodePath.join (js "/r/demo/") (js "a/./b/../c.txt") = js "/r/demo/a/c.txt"
  /\ let names := normalize_segments true (js "a/./b/../c.txt") in
     let under := normalize_segments false (js "/r/demo/") ++ names in
     Forall (fun x => proper_name x = true) names
     /\ NodePath.join (js "/r/demo/") (js "a/./b/../c.txt")
        = render under
          ++ match under with
             | [] => []
             | _ => if endsWith [SLASH] (js "a/./b/../c.txt") then [SLASH]
                    else []
             end.
Proof.
  split; [reflexivity|].
  apply (join_stays_under_repo (js "/r/demo/") (js "a/./b/../c.txt"));
    reflexivity.
Defined.


(** An absolute path in normal form is its own normal form. *)
Lemma normalize_normal (l : list jsstring) (t : jsstring) :
  Forall (fun x => proper_name x = true) l ->
  t = [] \/ (t = [SLASH] /\ l <> []) ->
  normalize (render l ++ t) = render l ++ t.
Proof.
  intros Hp Ht.
  assert (Hok : Forall (fun x => name_ok x = true) l)
    by (now apply Forall_proper_ok).
  assert (Habs : isAbsolute (render l ++ t) = true) by reflexivity.
  rewrite (normalize_absolute _ Habs).
  assert (Eseg : normalize_segments false (render l ++ t) = l).
  { unfold normalize_segments. destruct l as [|x l'].
    - destruct Ht as [->|[_ H]]; [reflexivity|contradiction].
    - assert (Hs : split SLASH (render (x :: l') ++ t)
                   = ([] :: x :: l') ++ match t with [] => [] | _ => [[]] end).
      { destruct Ht as [->|[-> _]].
        - rewrite !app_nil_r. apply split_render; [exact Hok|discriminate].
        - rewrite split_snoc_sep. f_equal.
          apply split_render; [exact Hok|discriminate]. }
      rewrite Hs, normalize_fold_names.
      + rewrite app_nil_r, filter_app.
        assert (Hf1 : filter (fun s => negb (Js.eqb s [])) ([] :: x :: l')
                      = x :: l').
        { change (filter (fun s => negb (Js.eqb s [])) ([] :: x :: l'))
            with (filter (fun s => negb (Js.eqb s [])) (x :: l')).
          apply (filter_nonempty_names (x :: l') Hok). }
        assert (Hf2 : filter (fun s => negb (Js.eqb s []))
                        match t with [] => [] | _ => [[]] end = []).
        { now destruct t. }
        unfold jsstring in *.
        rewrite Hf1, Hf2, app_nil_r. apply rev_involutive.
      + apply Forall_app. split.
        * constructor; [now left|]. now apply proper_or_empty.
        * destruct t; constructor; [now left|constructor]. }
  rewrite Eseg. f_equal. destruct l as [|x l'].
  - destruct Ht as [->|[_ H]]; [reflexivity|contradiction].
  - destruct Ht as [->|[-> _]].
    + rewrite app_nil_r, (endsWith_render _ Hok) by discriminate.
      reflexivity.
    + now rewrite endsWith_app_nonempty by discriminate.
Qed.

Lemma render_app (a b : list jsstring) :
  b <> [] ->
  render (a ++ b)
  = match a with
    | [] => render b
    | _ => render a ++ SLASH :: Js.join [SLASH] b
    end.
Proof.
  intros Hb. destruct a as [|x a']; [reflexivity|].
  unfold render. f_equal. revert x.
  induction a' as [|y a'' IH]; intros x.
  - destruct b; [contradiction|]. cbn [app]. now rewrite join_cons2_char.
  - cbn [app]. rewrite !join_cons2_char.
    rewrite <- app_assoc. cbn [app]. f_equal. f_equal.
    change (y :: a'' ++ b) with ((y :: a'') ++ b). apply IH.
Qed.

(** X19. [resolveRepoPath] looks at no file and at no root but the
    first.  With an absolute first root, an id that [validateRelativePath]
    accepts resolves to its join with that root, whatever the other roots
    are and whether or not such a repository exists; the one exception is
    a root written with a separator at its end and an id that names the
    root itself, as "." does. *)
Theorem resolveRepoPath_first_root
    (root : jsstring) (rest : list jsstring) (repoId : jsstring) :
  isAbsolute root = true ->
  validateRelativePath repoId = None ->
  endsWith [SLASH] root = false
  \/ normalize_segments true repoId <> []
  \/ endsWith [SLASH] repoId = true ->
  resolveRepoPath (root :: rest) repoId
  = Return (NodePath.join root repoId).
Proof.
  intros Habs Hv Hedge. unfold resolveRepoPath. rewrite Hv.
  destruct (accepted_path_names repoId Hv) as (Hne0 & _ & Hnames).
  pose proof (join_under_form root repoId Habs Hne0 Hnames) as Hjoin.
  pose proof (normalize_segments_proper root) as HR.
  set (R := normalize_segments false root) in *.
  set (names := normalize_segments true repoId) in *.
  assert (Hall : Forall (fun x => proper_name x = true) (R ++ names))
    by (apply Forall_app; now split).
  assert (Hnorm : normalize (NodePath.join root repoId)
                  = NodePath.join root repoId).
  { rewrite Hjoin. apply normalize_normal; [exact Hall|].
    destruct (R ++ names) eqn:E; [now left|].
    destruct (endsWith [SLASH] repoId); [right|now left].
    split; [reflexivity|discriminate]. }
  rewrite Hnorm.
  assert (Hstart : startsWith (normalize root) (NodePath.join root repoId)
                   = true).
  { rewrite (normalize_absolute root Habs). fold R. rewrite Hjoin.
    destruct names as [|n0 names'] eqn:En.
    - rewrite app_nil_r. destruct R as [|x R'] eqn:ER.
      + apply startsWith_app.
      + destruct Hedge as [He|[He|He]].
        * rewrite He, app_nil_r. apply startsWith_app.
        * contradiction.
        * rewrite He. destruct (endsWith [SLASH] root).
          -- apply startsWith_spec. exists []. now rewrite app_nil_r.
          -- rewrite app_nil_r. apply startsWith_app.
    - rewrite render_app by discriminate. destruct R as [|x R'] eqn:ER.
      + rewrite app_nil_r. reflexivity.
      + rewrite <- app_assoc.
        destruct (endsWith [SLASH] root).
        * apply startsWith_spec. eexists.
          rewrite <- app_assoc. cbn [app]. reflexivity.
        * rewrite app_nil_r. apply startsWith_app. }
  now rewrite Hstart.
Qed.

Lemma resolveRepoPath_first_root_witness :
  resolveRepoPath [js "/srv/repos"; js "/srv/more"] (js "team/app")
  = Return (js "/srv/repos/team/app")
  /\ resolveRepoPath [js "/srv/repos"; js "/srv/more"] (js "team/app")
     = Return (NodePath.join (js "/srv/repos") (js "team/app")).
Proof.
  split; [reflexivity|].
  apply (resolveRepoPath_first_root (js "/srv/repos") [js "/srv/more"]
           (js "team/app")); try reflexivity.
  left. reflexivity.
Defined.

End LexicalSafety.

(** ** Existence and removal of files *)

Module FileOpsFacts.
Import NodePath NodeFs NodeFsUnlink FileService FileOps JsFacts.
Import FsInvariants FsFacts PathStrings RoundTrip Utf8Facts.

#[local] Opaque walk.

(** The two ways [resolveFilePath] returns: with the real path of the
    candidate, or, when the walk of the candidate ends at a missing name,
    with the real path of its parent and its last name, at which the walk
    from that parent ends at the same missing name. *)
Lemma resolveFilePath_cases (F : fs) (repo p fp : jsstring) :
  isAbsolute repo = true ->
  resolveFilePath F repo p = Return fp ->
  (exists R nd,
      resolve F (NodePath.join repo p) = Found R nd /\ fp = render R)
  \/ (exists Pd b P0 nm0 rest,
         fp = render (Pd ++ [b]) /\ dir_chain F Pd /\ proper_name b = true
         /\ walk MAXSYMLINKS F Pd [b] = Missing P0 nm0 rest
         /\ exists rest0, resolve F (NodePath.join repo p)
                          = Missing P0 nm0 rest0).
Proof.
  intros Habs Hres.
  unfold resolveFilePath in Hres.
  destruct (validateRelativePath p) eqn:Hval; [discriminate|].
  assert (Hp : p <> []) by (intros ->; discriminate Hval).
  destruct (join_absolute_form repo p Habs Hp) as [out [t [Hout [Hcand Ht]]]].
  pose proof (components_candidate out t Hout Ht) as Hnames.
  rewrite <- Hcand in Hnames.
  assert (Ht' : t = [] \/ t = [SLASH]) by tauto.
  set (cand := NodePath.join repo p) in *.
  unfold realpath in Hres.
  pose proof (resolve_sound F cand) as Hsound.
  destruct (resolve F cand) as [R nd | P0 nm0 rest0 | e] eqn:Hwalk.
  - destruct (startsWith _ _) in Hres; cbv beta iota delta [negb] in Hres;
      [|discriminate].
    injection Hres as <-. left. eauto.
  - right.
    simpl in Hsound. destruct Hsound as [HP0 [Hnm0 Hnone]].
    destruct out as [|b I _] using rev_ind.
    { exfalso. destruct Ht as [-> | [_ Hne]]; [|congruence].
      unfold resolve in Hwalk. rewrite Hnames in Hwalk. simpl in Hwalk.
      rewrite walk_nil in Hwalk. discriminate. }
    pose proof (Forall_proper_ok _ Hout) as Hok.
    apply Forall_app in Hout. destruct Hout as [HI Hb].
    inversion Hb as [|? ? Hb' _]; subst. clear Hb.
    rewrite Hcand in Hres.
    rewrite (dirname_render I b t Hok Ht') in Hres.
    rewrite (basename_render I b t Hok Ht') in Hres.
    pose proof (resolve_sound F (render I)) as HsI.
    assert (HwI : resolve F (render I) = walk MAXSYMLINKS F [] I).
    { unfold resolve. rewrite components_render; [reflexivity|].
      now apply Forall_proper_ok. }
    destruct (resolve F (render I)) as [Pd nd' | | ] eqn:HrI;
      [|discriminate|discriminate].
    destruct (startsWith _ _) in Hres; cbv beta iota delta [negb] in Hres;
      [|discriminate].
    assert (Hfp : NodePath.join (render Pd) b = fp) by congruence.
    clear Hres. subst fp.
    unfold resolve in Hwalk. rewrite Hnames, <- app_assoc in Hwalk.
    pose proof (walk_app MAXSYMLINKS F
                  ([b] ++ match t with [] => [] | _ => [js "."] end) I [])
      as Happ.
    rewrite <- HwI in Happ. rewrite Hwalk in Happ.
    destruct nd' as [x | | target]; simpl in HsI.
    { exfalso. simpl in Happ. discriminate. }
    2:{ destruct HsI. }
    destruct Happ as [m [Hm Happ]].
    assert (Hno : walk m F Pd ([b] ++ match t with
                                       | [] => []
                                       | _ => [js "."]
                                       end) <> Failed ELOOP)
      by (rewrite <- Happ; discriminate).
    rewrite <- (walk_more m MAXSYMLINKS F Pd _ Hm Hno) in Happ.
    assert (Hbase : exists rest',
               walk MAXSYMLINKS F Pd [b] = Missing P0 nm0 rest').
    { destruct Ht' as [-> | ->].
      - exists rest0. rewrite app_nil_r in *. now symmetry.
      - pose proof (walk_app MAXSYMLINKS F [js "."] [b] Pd) as Hdot.
        pose proof (walk_sound MAXSYMLINKS F [b] Pd HsI) as Hsb.
        destruct (walk MAXSYMLINKS F Pd [b]) as [q nd | P nm rest | e];
          cbv beta iota in Hdot, Happ.
        + exfalso. destruct nd as [x | | target].
          * rewrite Hdot in Happ. discriminate.
          * destruct Hdot as [m' [_ Hdot]]. rewrite Hdot in Happ.
            rewrite walk_cons, walk_nil in Happ. simpl in Happ. discriminate.
          * apply Hsb. repeat constructor. now apply proper_name_ok.
        + rewrite Hdot in Happ. injection Happ as -> -> ->.
          exists rest. reflexivity.
        + rewrite Hdot in Happ. discriminate. }
    destruct Hbase as [rest' Hbase].
    rewrite (join_render Pd b (proj1 HsI) Hb').
    exists Pd, b, P0, nm0, rest'. repeat split; try assumption.
    + apply HsI.
    + apply HsI.
    + eexists. reflexivity.
  - simpl in Hsound. destruct Hsound as [-> | ->]; discriminate.
Qed.

(** A path that [resolveFilePath] made from a parent and a missing name
    does not exist. *)
Lemma stat_missing (F : fs) (Pd : path) (b : jsstring) P0 nm0 rest :
  dir_chain F Pd -> proper_name b = true ->
  walk MAXSYMLINKS F Pd [b] = Missing P0 nm0 rest ->
  resolve F (render (Pd ++ [b])) = Missing P0 nm0 rest.
Proof.
  intros Hd Hb Hw. unfold resolve.
  rewrite components_render.
  - rewrite (walk_chain MAXSYMLINKS F Pd [] [b]) by exact Hd.
    exact Hw.
  - apply Forall_app. split; [apply Forall_proper_ok, Hd|].
    repeat constructor. now apply proper_name_ok.
Qed.


(** X20. After [writeFile] has returned, if the path still resolves inside
    the repository, [fileExists] is true for it and the file has exactly
    the size [writeFile] reported: the number of bytes of the UTF-8 form of
    the text, which is at most [MAX_FILE_SIZE_BYTES]. *)
Theorem fileExists_after_writeFile
    (cfg : Config) (F F' : fs) (repo p text q : jsstring)
    (written : FileWriteResponse) :
  isAbsolute repo = true ->
  writeFile cfg F repo p text = (Return written, F') ->
  resolveFilePath F' repo p = Return q ->
  fileExists F' repo p = true
  /\ stat F' q = inl (mkStats true false (Z.of_nat (Utf8.byteLength text)))
  /\ bytesWritten written = Z.of_nat (Utf8.byteLength text)
  /\ (bytesWritten written <= MAX_FILE_SIZE_BYTES cfg)%Z.
Proof.
  intros Habs Hw Hq.
  unfold writeFile in Hw.
  destruct (Z.gtb (Z.of_nat (Utf8.byteLength text)) (MAX_FILE_SIZE_BYTES cfg))
    eqn:Hsize; [discriminate|].
  destruct (resolveFilePath F repo p) as [fp|] eqn:Hres; [|discriminate].
  destruct (mkdir_recursive F (dirname fp)) as [F1|] eqn:Hmk; [|discriminate].
  destruct (NodeFs.writeFile F1 fp text) as [F2|] eqn:Hwr; [|discriminate].
  injection Hw as <- <-.
  pose proof (resolve_sound F2 (NodePath.join repo p)) as Hsound.
  unfold fileExists. rewrite Hq.
  unfold resolveFilePath, realpath in Hq.
  destruct (validateRelativePath p); [discriminate|].
  destruct (write_then_resolve F F1 F2 repo p fp text Habs Hres Hmk Hwr)
    as [[at_ Hat] | Hfail].
  - rewrite Hat in Hq, Hsound. simpl in Hsound.
    destruct Hsound as [Q [x [-> [HQ [Hx Hl]]]]].
    destruct (startsWith _ _) in Hq; cbv beta iota delta [negb] in Hq;
      [|discriminate].
    assert (Hq' : render (Q ++ [x]) = q) by congruence. subst q.
    unfold stat.
    rewrite (resolve_canonical_file F2 Q x _ HQ Hx Hl).
    cbn [isFile bytesWritten]. unfold Utf8.byteLength.
    repeat split. rewrite Z.gtb_ltb in Hsize. apply Z.ltb_ge in Hsize.
    exact Hsize.
  - rewrite Hfail in Hq. discriminate.
Qed.

Lemma fileExists_after_writeFile_witness :
  let F' := FsScenario.after_write FsScenario.plain_tree (js "notes/../a.txt")
              (js "hello") in
  fileExists F' (js "/r/demo") (js "notes/../a.txt") = true
  /\ stat F' (js "/r/demo/a.txt")
     = inl (mkStats true false (Z.of_nat (Utf8.byteLength (js "hello"))))
  /\ bytesWritten (mkFileWriteResponse true 5)
     = Z.of_nat (Utf8.byteLength (js "hello"))
  /\ (bytesWritten (mkFileWriteResponse true 5)
      <= MAX_FILE_SIZE_BYTES default_config)%Z.
Proof.
  apply (fileExists_after_writeFile default_config FsScenario.plain_tree
           _ (js "/r/demo") (js "notes/../a.txt") (js "hello")
           (js "/r/demo/a.txt") (mkFileWriteResponse true 5));
    vm_compute; reflexivity.
Defined.


Lemma lookup_remove_node (F : fs) (q p : path) :
  lookup (remove_node F q) p = if path_eqb p q then None else lookup F p.
Proof.
  unfold remove_node. induction F as [|[q0 n0] F IH]; cbn [filter lookup fst].
  - now destruct (path_eqb p q).
  - destruct (path_eqb q q0) eqn:E0; cbn [negb].
    + apply path_eqb_eq in E0. subst q0. rewrite IH.
      now destruct (path_eqb p q).
    + cbn [lookup]. rewrite IH.
      destruct (path_eqb p q0) eqn:E1; [|reflexivity].
      apply path_eqb_eq in E1. subst q0.
      destruct (path_eqb p q) eqn:E2; [|reflexivity].
      apply path_eqb_eq in E2. subst q. now rewrite path_eqb_refl in E0.
Qed.

(** A walk in a tree from which a file is removed. *)
Lemma walk_remove (F : fs) (q : path) (c0 : list N) :
  lookup F q = Some (File c0) ->
  forall (n : nat) (names : list jsstring) (cur : path),
    match walk n F cur names with
    | Found q' (File x) =>
        if path_eqb q' q then
          exists parent name,
            q = parent ++ [name]
            /\ walk n (remove_node F q) cur names = Missing parent name []
        else walk n (remove_node F q) cur names = Found q' (File x)
    | Failed ENOTDIR =>
        walk n (remove_node F q) cur names = Failed ENOTDIR
        \/ exists parent name rest,
             q = parent ++ [name]
             /\ walk n (remove_node F q) cur names = Missing parent name rest
    | r => walk n (remove_node F q) cur names = r
    end.
Proof.
  intros Hold.
  induction n as [|n IHn];
    (induction names as [|c rest IHr]; intros cur;
     [now rewrite !walk_nil|]);
    rewrite (walk_cons _ F), (walk_cons _ (remove_node _ _));
    (destruct (Js.eqb c (js ".")) eqn:E1; [now apply IHr|]);
    (destruct (Js.eqb c (js "..")) eqn:E2; [now apply IHr|]);
    rewrite lookup_remove_node;
    (destruct (path_eqb (cur ++ [c]) q) eqn:Eq;
     [ pose proof Eq as Eq'; apply path_eqb_eq in Eq';
       rewrite Eq', Hold;
       destruct rest;
       [ rewrite path_eqb_refl; exists cur, c; split;
         [now symmetry|reflexivity]
       | right; exists cur, c, (j :: rest); split;
         [now symmetry|reflexivity] ]
     | ]);
    (destruct (lookup F (cur ++ [c])) as [[content| |target]|] eqn:El;
     [ destruct rest; [now rewrite Eq|now left]
     | now apply IHr
     |
     | reflexivity ]).
  - reflexivity.
  - apply IHn.
Qed.


(** [fs.unlink] of the canonical path of a file. *)
Lemma unlink_canonical_file (F : fs) (Q : path) (x : jsstring)
    (content : list N) :
  dir_chain F Q -> proper_name x = true ->
  lookup F (Q ++ [x]) = Some (File content) ->
  unlink F (render (Q ++ [x])) = inl (remove_node F (Q ++ [x])).
Proof.
  intros HQ Hx Hl. unfold unlink.
  assert (Hok : Forall (fun y => name_ok y = true) (Q ++ [x])).
  { apply Forall_app. split; [apply Forall_proper_ok, HQ|].
    repeat constructor. now apply proper_name_ok. }
  rewrite (components_render _ Hok), rev_app_distr. cbn [rev app].
  destruct (proper_name_inv x Hx) as (_ & -> & ->). cbn [orb].
  rewrite rev_involutive.
  pose proof (resolve_canonical_dir F Q HQ) as Hd. unfold resolve in Hd.
  rewrite components_render in Hd by (apply Forall_proper_ok, HQ).
  now rewrite Hd, Hl.
Qed.

(** X21. [deleteFile] changes the tree only when it returns, and then it
    has removed exactly the regular file that the path resolved to, links
    followed: that file is gone, every other path holds what it held, and
    [fileExists] is false for the path.  A [deleteFile] that throws leaves
    the tree as it was. *)
Theorem deleteFile_removes_the_file (F : fs) (repo p : jsstring) :
  isAbsolute repo = true ->
  match deleteFile F repo p with
  | (Raise _, F') => F' = F
  | (Return _, F') =>
      exists Q x content,
        resolve F (NodePath.join repo p) = Found (Q ++ [x]) (File content)
        /\ resolveFilePath F repo p = Return (render (Q ++ [x]))
        /\ F' = remove_node F (Q ++ [x])
        /\ lookup F' (Q ++ [x]) = None
        /\ (forall q', q' <> Q ++ [x] -> lookup F' q' = lookup F q')
        /\ fileExists F' repo p = false
  end.
Proof.
  intros Habs. unfold deleteFile.
  destruct (resolveFilePath F repo p) as [fp|e] eqn:Hres; [|reflexivity].
  destruct (stat F fp) as [stats|code] eqn:Hstat;
    [|destruct code; reflexivity].
  destruct (isFile stats) eqn:Hfile; cbn [negb]; [|reflexivity].
  destruct (unlink F fp) as [F'|code] eqn:Hun;
    [|destruct code; reflexivity].
  destruct (resolveFilePath_cases F repo p fp Habs Hres)
    as [(R & nd & Hwalk & ->) | (Pd & b & P0 & nm0 & rest & -> & Hd & Hb & Hw & _)].
  2:{ exfalso. unfold stat in Hstat.
      rewrite (stat_missing F Pd b P0 nm0 rest Hd Hb Hw) in Hstat.
      discriminate. }
  pose proof (resolve_sound F (NodePath.join repo p)) as Hsound.
  rewrite Hwalk in Hsound. destruct nd as [content| |target];
    cbn [walk_result_ok] in Hsound.
  2:{ exfalso. unfold stat in Hstat.
      rewrite (resolve_canonical_dir F R Hsound) in Hstat.
      injection Hstat as <-. discriminate. }
  2:{ destruct Hsound. }
  destruct Hsound as (Q & x & -> & HQ & Hx & Hl).
  rewrite (unlink_canonical_file F Q x content HQ Hx Hl) in Hun.
  injection Hun as <-.
  exists Q, x, content.
  split; [exact Hwalk|]. split; [reflexivity|]. split; [reflexivity|].
  split; [now rewrite lookup_remove_node, path_eqb_refl|].
  split.
  { intros q' Hne. rewrite lookup_remove_node.
    destruct (path_eqb q' (Q ++ [x])) eqn:E; [|reflexivity].
    apply path_eqb_eq in E. contradiction. }
  set (F' := remove_node F (Q ++ [x])).
  unfold fileExists.
  destruct (resolveFilePath F' repo p) as [fp'|] eqn:Hres'; [|reflexivity].
  pose proof (walk_remove F (Q ++ [x]) content Hl MAXSYMLINKS
                (components (NodePath.join repo p)) []) as Hrm.
  fold (resolve F (NodePath.join repo p)) in Hrm.
  rewrite Hwalk, path_eqb_refl in Hrm.
  destruct Hrm as (parent & name & _ & Hrm).
  fold F' in Hrm. fold (resolve F' (NodePath.join repo p)) in Hrm.
  destruct (resolveFilePath_cases F' repo p fp' Habs Hres')
    as [(R' & nd' & Hwalk' & _)
       | (Pd & b & P0 & nm0 & rest & -> & Hd & Hb & Hw & _)].
  - rewrite Hrm in Hwalk'. discriminate.
  - unfold stat. now rewrite (stat_missing F' Pd b P0 nm0 rest Hd Hb Hw).
Qed.


Lemma deleteFile_removes_the_file_witness :
  fst (deleteFile FsCases.linked_tree (js "/r/demo") (js "ln")) = Return tt
  /\ match deleteFile FsCases.linked_tree (js "/r/demo") (js "ln") with
     | (Raise _, F') => F' = FsCases.linked_tree
     | (Return _, F') =>
         exists Q x content,
           resolve FsCases.linked_tree (NodePath.join (js "/r/demo") (js "ln"))
           = Found (Q ++ [x]) (File content)
           /\ resolveFilePath FsCases.linked_tree (js "/r/demo") (js "ln")
              = Return (render (Q ++ [x]))
           /\ F' = remove_node FsCases.linked_tree (Q ++ [x])
           /\ lookup F' (Q ++ [x]) = None
           /\ (forall q', q' <> Q ++ [x] ->
                 lookup F' q' = lookup FsCases.linked_tree q')
           /\ fileExists F' (js "/r/demo") (js "ln") = false
     end.
Proof.
  split; [reflexivity|].
  apply (deleteFile_removes_the_file FsCases.linked_tree (js "/r/demo")
           (js "ln")). reflexivity.
Defined.

End FileOpsFacts.

(** ** Repository ids *)

Module RepoFacts.
Import NodePath NodeFs RepoService JsFacts.
Import FsInvariants FsFacts PathStrings RoundTrip WorktreeFacts.

#[local] Opaque walk.

(** X22. [resolveRepoId] refuses every id without a separator.  When it
    answers with a path, that path is the real path of an existing
    directory, reached from a configured root whose base name is the first
    segment of the id by joining the rest of the id to it, and the real
    path of that root is a prefix of its characters. *)
Theorem resolveRepoId_answers (roots : list jsstring) (F : fs)
    (repoId : jsstring) :
  (existsb (N.eqb SLASH) repoId = false -> resolveRepoId roots F repoId = None)
  /\ forall q,
       resolveRepoId roots F repoId = Some q ->
       exists root nroot Q,
         In root roots
         /\ basename root = hd [] (split SLASH repoId)
         /\ resolve F (NodePath.join root
                         (Js.join [SLASH] (tl (split SLASH repoId))))
            = Found Q Dir
         /\ q = render Q
         /\ resolve F q = Found Q Dir
         /\ realpath F root = inl nroot
         /\ startsWith nroot q = true.
Proof.
  split.
  - intros Hno. unfold resolveRepoId. rewrite (split_none SLASH repoId).
    + reflexivity.
    + clear -Hno. induction repoId as [|c s IH]; constructor.
      * cbn in Hno. apply orb_false_elim in Hno. rewrite N.eqb_sym. tauto.
      * apply IH. cbn in Hno. now apply orb_false_elim in Hno.
  - intros q. unfold resolveRepoId.
    destruct (split SLASH repoId) as [|rootName [|first others]];
      [discriminate|discriminate|].
    cbn [hd tl].
    induction roots as [|root more IH]; [discriminate|].
    destruct (Js.eqb (basename root) rootName) eqn:Eb.
    2:{ intros H. destruct (IH H) as (r & n & Q & Hin & Hrest).
        exists r, n, Q. split; [now right|exact Hrest]. }
    apply eqb_eq in Eb.
    set (repoPath := NodePath.join root (Js.join [SLASH] (first :: others))).
    unfold realpath at 1.
    pose proof (resolve_sound F repoPath) as Hsound.
    destruct (resolve F repoPath) as [Q nd| |] eqn:Hwalk.
    2,3: (intros H; destruct (IH H) as (r & n & Q & Hin & Hrest);
          exists r, n, Q; split; [now right|exact Hrest]).
    destruct (realpath F root) as [nroot|] eqn:Hroot.
    2:{ intros H. destruct (IH H) as (r & n & Q' & Hin & Hrest).
        exists r, n, Q'. split; [now right|exact Hrest]. }
    destruct (startsWith nroot (render Q)) eqn:Hstart; cbn [negb];
      [|discriminate].
    destruct nd as [content| |target]; cbn [walk_result_ok] in Hsound.
    + destruct Hsound as (Q0 & x & -> & HQ & Hx & Hl).
      unfold stat. rewrite (resolve_canonical_file F Q0 x content HQ Hx Hl).
      cbn [isDirectory].
      intros H. destruct (IH H) as (r & n & Q' & Hin & Hrest).
      exists r, n, Q'. split; [now right|exact Hrest].
    + unfold stat. rewrite (resolve_canonical_dir F Q Hsound).
      cbn [isDirectory]. intros H. injection H as <-.
      exists root, nroot, Q. split; [now left|]. split; [exact Eb|].
      split; [exact Hwalk|]. split; [reflexivity|].
      split; [now apply resolve_canonical_dir|]. split; [exact Hroot|].
      exact Hstart.
    + destruct Hsound.
Qed.

Lemma resolveRepoId_answers_witness :
  resolveRepoId RepoCases.roots RepoCases.served_tree (js "repos") = None
  /\ exists root nroot Q,
       In root RepoCases.roots
       /\ basename root = hd [] (split SLASH (js "repos/app"))
       /\ resolve RepoCases.served_tree
            (NodePath.join root
               (Js.join [SLASH] (tl (split SLASH (js "repos/app")))))
          = Found Q Dir
       /\ js "/srv/repos/app" = render Q
       /\ resolve RepoCases.served_tree (js "/srv/repos/app") = Found Q Dir
       /\ realpath RepoCases.served_tree root = inl nroot
       /\ startsWith nroot (js "/srv/repos/app") = true.
Proof.
  split.
  - apply (proj1 (resolveRepoId_answers RepoCases.roots RepoCases.served_tree
                    (js "repos"))). reflexivity.
  - apply (proj2 (resolveRepoId_answers RepoCases.roots RepoCases.served_tree
                    (js "repos/app")) (js "/srv/repos/app")). reflexivity.
Defined.

(** Ids are not checked as relative paths are: with the root /srv/repos,
    the id "repos/../repos-private/vault" resolves to a directory beside
    the root, and the id "repos/" to the root itself. *)
Lemma resolveRepoId_beside_the_root :
  resolveRepoId RepoCases.roots RepoCases.served_tree
    (js "repos/../repos-private/vault")
  = Some (js "/srv/repos-private/vault")
  /\ resolveRepoId RepoCases.roots RepoCases.served_tree (js "repos/")
     = Some (js "/srv/repos")
  /\ resolveRepoId RepoCases.roots RepoCases.served_tree (js "repos/..")
     = None.
Proof. repeat split; reflexivity. Qed.

End RepoFacts.

(** ** The two indexes of the session manager *)

Module IndexFacts.
Import SessionManager Invariants SessionNotions JsFacts WorldFacts.
Import Capacity Lifecycle SessionFacts RouteFacts.

Lemma same_index_refl (w : World) : same_index w w.
Proof. split; [|split; [|split]]; reflexivity. Qed.

Lemma same_index_trans (w1 w2 w3 : World) :
  same_index w1 w2 -> same_index w2 w3 -> same_index w1 w3.
Proof.
  intros (Hs & Hu & Hl & Hi) (Hs' & Hu' & Hl' & Hi').
  split; [congruence|]. split; [congruence|]. split; [congruence|].
  intros r. now rewrite Hi', Hi.
Qed.

Lemma same_index_outside (w w1 w2 : World) :
  same_index w w1 ->
  sessions w2 = sessions w1 -> userRepoSessions w2 = userRepoSessions w1 ->
  heap w2 = heap w1 ->
  same_index w w2.
Proof.
  intros H Hs Hu Hh. apply (same_index_trans _ _ _ H).
  split; [exact Hs|]. split; [exact Hu|]. split.
  - now rewrite Hh.
  - intros r. now rewrite Hh.
Qed.

Lemma same_index_upd_entry (w w1 : World) (r : nat) f :
  keeps_identity f -> same_index w w1 -> same_index w (upd_entry r f w1).
Proof.
  intros Hf H. apply (same_index_trans _ _ _ H).
  split; [reflexivity|]. split; [reflexivity|]. split.
  - cbn. apply list_update_length.
  - intros r'. cbn. rewrite nth_error_list_update.
    destruct (Nat.eqb r r'); [|reflexivity].
    destruct (nth_error (heap w1) r'); cbn; [|reflexivity].
    now rewrite Hf.
Qed.

Lemma same_index_with_procs (w w1 : World) p :
  same_index w w1 -> same_index w (with_procs p w1).
Proof. intros H. now apply (same_index_outside w w1). Qed.

Lemma same_index_with_timers (w w1 : World) t :
  same_index w w1 -> same_index w (with_timers t w1).
Proof. intros H. now apply (same_index_outside w w1). Qed.

Lemma same_index_with_sent (w w1 : World) s :
  same_index w w1 -> same_index w (with_sent s w1).
Proof. intros H. now apply (same_index_outside w w1). Qed.

Lemma same_index_with_clock (w w1 : World) t :
  same_index w w1 -> same_index w (with_clock t w1).
Proof. intros H. now apply (same_index_outside w w1). Qed.

Create HintDb index.
#[local] Hint Extern 1 (keeps_identity _) => (intros ?; reflexivity) : index.
#[local] Hint Resolve same_index_refl same_index_upd_entry
  same_index_with_procs same_index_with_timers same_index_with_sent
  same_index_with_clock : index.
#[local] Hint Unfold broadcast pty_kill pty_write pty_resize pty_mark_exited
  clearTimeout upd_proc upd_timer : index.

Ltac index := autounfold with index; eauto 20 with index.

Lemma spawnClaude_same cfg spawn r cols rows (w0 w : World) :
  same_index w0 w -> same_index w0 (snd (spawnClaude cfg spawn r cols rows w)).
Proof.
  intros H. unfold spawnClaude.
  destruct (nth_error (heap w) r); [|exact H].
  destruct spawn; simpl; index.
Qed.

Lemma onData_same pid data (w0 w : World) :
  same_index w0 w -> same_index w0 (onData pid data w).
Proof.
  intros H. unfold onData.
  destruct (nth_error (procs w) pid); [|exact H].
  destruct (nth_error (heap w) _); [|exact H].
  index.
Qed.

Lemma onExit_same pid code signal (w0 w : World) :
  same_index w0 w -> same_index w0 (onExit pid code signal w).
Proof.
  intros H. unfold onExit.
  destruct (nth_error (procs w) pid); [|exact H].
  destruct (nth_error (heap w) _); [|exact H].
  index.
Qed.

Lemma attachClient_same sessionId client (w0 w : World) :
  same_index w0 w -> same_index w0 (snd (attachClient sessionId client w)).
Proof.
  intros H. unfold attachClient.
  destruct (getEntry sessionId w) as [[r entry]|]; [|exact H].
  simpl. destruct (cleanupTimeout entry); index.
Qed.

Lemma detachClient_same cfg sessionId clientId (w0 w : World) :
  same_index w0 w -> same_index w0 (detachClient cfg sessionId clientId w).
Proof.
  intros H. unfold detachClient.
  destruct (getEntry sessionId w) as [[r entry]|]; [|exact H].
  destruct (Nat.eqb _ 0); index.
Qed.

Lemma sendInput_same sessionId data (w0 w : World) :
  same_index w0 w -> same_index w0 (snd (sendInput sessionId data w)).
Proof.
  intros H. unfold sendInput.
  destruct (getEntry sessionId w) as [[r entry]|]; [|exact H].
  destruct (pty entry); simpl; index.
Qed.

Lemma resize_same sessionId cols rows (w0 w : World) :
  same_index w0 w -> same_index w0 (snd (resize sessionId cols rows w)).
Proof.
  intros H. unfold resize.
  destruct (getEntry sessionId w) as [[r entry]|]; [|exact H].
  destruct (pty entry); simpl; index.
Qed.

Lemma renameSession_same sessionId newName (w0 w : World) :
  same_index w0 w -> same_index w0 (snd (renameSession sessionId newName w)).
Proof.
  intros H. unfold renameSession.
  destruct (getEntry sessionId w) as [[r entry]|]; simpl; index.
Qed.

Lemma restartSession_same cfg spawn sessionId (w0 w : World) :
  same_index w0 w ->
  same_index w0 (snd (restartSession cfg spawn sessionId w)).
Proof.
  intros H. unfold restartSession.
  destruct (getEntry sessionId w) as [[r entry]|]; [|exact H].
  match goal with
  | |- context [spawnClaude ?c ?s ?r ?a ?b ?w'] =>
      pose proof (spawnClaude_same c s r a b w0 w') as Hs;
      destruct (spawnClaude c s r a b w') as [[u|m] w3]
  end; simpl in *; apply Hs; destruct (pty entry); index.
Qed.

(** Worlds with the same indexes find the same sessions. *)
Lemma same_index_getEntry (w w' : World) :
  same_index w w' ->
  forall sessionId r e',
    getEntry sessionId w' = Some (r, e') ->
    exists e, getEntry sessionId w = Some (r, e)
              /\ identity_of e' = identity_of e.
Proof.
  intros (Hs & _ & _ & Hi) sessionId r e' H.
  destruct (getEntry_inv _ _ _ _ H) as [Hm He]. rewrite Hs in Hm.
  specialize (Hi r). rewrite He in Hi. cbn in Hi.
  unfold getEntry. rewrite Hm.
  destruct (nth_error (heap w) r) as [e|]; [|discriminate].
  cbn in Hi. exists e. split; [reflexivity|]. congruence.
Qed.

Lemma same_index_sym (w w' : World) : same_index w w' -> same_index w' w.
Proof.
  intros (Hs & Hu & Hl & Hi).
  split; [congruence|]. split; [congruence|]. split; [congruence|].
  intros r. now rewrite Hi.
Qed.

Lemma identity_key (e e' : SessionEntry) :
  identity_of e' = identity_of e ->
  key_of e' = key_of e /\ session_id (session e') = session_id (session e).
Proof.
  unfold identity_of, key_of. intros H. injection H as H1 H2 H3.
  now rewrite H1, H2, H3.
Qed.

Lemma same_index_consistent (w w' : World) :
  same_index w w' -> index_consistent w -> index_consistent w'.
Proof.
  intros Hsame (Hv & H1 & H2).
  pose proof (same_index_sym _ _ Hsame) as Hsym.
  destruct Hsame as (Hs & Hu & Hl & Hi).
  split; [|split].
  - unfold refs_valid in *. now rewrite Hs, Hl.
  - intros key ids sid Hk Hin. rewrite Hu in Hk.
    destruct (H1 key ids sid Hk Hin) as (r & e & Hg & Hkey).
    destruct (same_index_getEntry _ _ Hsym sid r e Hg) as (e' & Hg' & Hid).
    exists r, e'. split; [exact Hg'|].
    destruct (identity_key _ _ Hid) as [Hk' _]. congruence.
  - intros sid r e' Hg.
    destruct (same_index_getEntry w w' (conj Hs (conj Hu (conj Hl Hi)))
                sid r e' Hg) as (e & Hg0 & Hid).
    destruct (identity_key _ _ Hid) as [Hk' Hid'].
    destruct (H2 sid r e Hg0) as (Hsid & ids & Hm & Hin).
    split; [congruence|]. exists ids. rewrite Hu, Hk'. now split.
Qed.

Lemma map_get_map_set {V} (k k' : jsstring) (v : V) (m : list (jsstring * V)) :
  map_get k (map_set k' v m) = if Js.eqb k k' then Some v else map_get k m.
Proof.
  induction m as [|[k0 v0] m IH]; simpl; [reflexivity|].
  destruct (Js.eqb k' k0) eqn:E0; simpl.
  - apply eqb_eq in E0; subst k0. now destruct (Js.eqb k k').
  - rewrite IH. destruct (Js.eqb k k0) eqn:E1; [|reflexivity].
    apply eqb_eq in E1; subst k0. rewrite eqb_sym in E0. now rewrite E0.
Qed.

Lemma set_delete_In (x y : jsstring) (s : list jsstring) :
  In y (set_delete x s) <-> In y s /\ y <> x.
Proof.
  unfold set_delete. rewrite filter_In. split; intros [H1 H2]; split; auto.
  - intros ->. now rewrite eqb_refl in H2.
  - apply Bool.negb_true_iff, eqb_neq. congruence.
Qed.

Lemma set_add_In_iff (x y : jsstring) (s : list jsstring) :
  In y (set_add x s) <-> y = x \/ In y s.
Proof.
  unfold set_add, set_has. destruct (existsb (Js.eqb x) s) eqn:E.
  - split; [auto|]. intros [->|H]; [|exact H].
    apply existsb_exists in E. destruct E as (z & Hz & Hxz).
    apply eqb_eq in Hxz. now subst z.
  - rewrite in_app_iff. simpl. intuition.
Qed.

(** What [cleanupSession] leaves of the three stores of the index. *)
Lemma cleanupSession_index (sessionId : jsstring) (w : World) r entry :
  getEntry sessionId w = Some (r, entry) ->
  let w' := snd (cleanupSession sessionId w) in
  heap w' = heap w
  /\ sessions w' = map_delete sessionId (sessions w)
  /\ userRepoSessions w' =
     match map_get (key_of entry) (userRepoSessions w) with
     | None => userRepoSessions w
     | Some ids =>
         if Nat.eqb (length (set_delete sessionId ids)) 0
         then map_delete (key_of entry) (userRepoSessions w)
         else map_set (key_of entry) (set_delete sessionId ids)
                (userRepoSessions w)
     end.
Proof.
  intros H. unfold cleanupSession. rewrite H. unfold key_of.
  destruct (pty entry), (cleanupTimeout entry); cbn;
    match goal with
    | |- context [map_get ?k ?m] => destruct (map_get k m)
    end; cbn;
    try match goal with
    | |- context [Nat.eqb ?a ?b] => destruct (Nat.eqb a b)
    end; cbn; repeat split; reflexivity.
Qed.

Lemma cleanupSession_consistent (sessionId : jsstring) (w : World) :
  index_consistent w -> index_consistent (snd (cleanupSession sessionId w)).
Proof.
  intros Hc. destruct (getEntry sessionId w) as [[r0 e0]|] eqn:Hg0.
  2:{ now rewrite (cleanupSession_missing _ _ Hg0). }
  pose proof (getEntry_after_cleanup sessionId) as Hget.
  specialize (fun k => Hget k w r0 e0 Hg0).
  destruct (cleanupSession_index _ _ _ _ Hg0) as (Hh & Hs & Hu).
  set (w' := snd (cleanupSession sessionId w)) in *.
  destruct Hc as (Hv & Hb & Hcc).
  destruct (Hcc _ _ _ Hg0) as (Hid0 & ids0 & Hm0 & Hin0).
  rewrite Hm0 in Hu.
  split; [|split].
  - unfold refs_valid in *. rewrite Hs, Hh. unfold map_delete.
    apply Forall_forall. intros kv Hkv. apply filter_In in Hkv.
    rewrite Forall_forall in Hv. now apply Hv.
  - intros key ids sid Hk Hin.
    assert (Hold : exists ids1,
               map_get key (userRepoSessions w) = Some ids1 /\ In sid ids1
               /\ (sid <> sessionId \/ key <> key_of e0)).
    { rewrite Hu in Hk.
      destruct (Nat.eqb (length (set_delete sessionId ids0)) 0) eqn:El.
      - rewrite map_get_map_delete in Hk.
        destruct (Js.eqb (key_of e0) key) eqn:Ek; [discriminate|].
        apply eqb_neq in Ek. exists ids.
        split; [exact Hk|]. split; [exact Hin|]. right. congruence.
      - rewrite map_get_map_set in Hk.
        destruct (Js.eqb key (key_of e0)) eqn:Ek.
        + apply eqb_eq in Ek. injection Hk as <-.
          apply set_delete_In in Hin. exists ids0.
          rewrite Ek. tauto.
        + apply eqb_neq in Ek. exists ids. tauto. }
    destruct Hold as (ids1 & Hm1 & Hin1 & Hor).
    destruct (Hb _ _ _ Hm1 Hin1) as (r & e & Hg & Hkey).
    assert (Hne : sid <> sessionId).
    { destruct Hor as [?|Hk']; [assumption|].
      intros ->. rewrite Hg0 in Hg. injection Hg as <- <-. congruence. }
    exists r, e. split; [|exact Hkey].
    rewrite Hget. destruct (Js.eqb sessionId sid) eqn:E; [|exact Hg].
    apply eqb_eq in E. congruence.
  - intros sid r e Hg. rewrite Hget in Hg.
    destruct (Js.eqb sessionId sid) eqn:E; [discriminate|].
    apply eqb_neq in E.
    destruct (Hcc _ _ _ Hg) as (Hid & ids & Hm & Hin).
    split; [exact Hid|]. rewrite Hu.
    assert (Hin' : In sid (set_delete sessionId ids)).
    { apply set_delete_In. split; [exact Hin|congruence]. }
    destruct (Js.eqb (key_of e) (key_of e0)) eqn:Ek.
    + apply eqb_eq in Ek. rewrite Ek in Hm. rewrite Hm0 in Hm.
      injection Hm as ->.
      destruct (set_delete sessionId ids) as [|x l] eqn:Ed; [contradiction|].
      cbn [length Nat.eqb]. rewrite map_get_map_set, Ek, eqb_refl.
      eexists. split; [reflexivity|exact Hin'].
    + exists ids. split; [|exact Hin].
      destruct (Nat.eqb (length (set_delete sessionId ids0)) 0).
      * rewrite map_get_map_delete. rewrite eqb_sym, Ek. exact Hm.
      * rewrite map_get_map_set, Ek. exact Hm.
Qed.

Lemma createSession_consistent cfg sessionId spawn email repo path name
    cols rows (w : World) :
  map_get sessionId (sessions w) = None ->
  index_consistent w ->
  index_consistent
    (snd (createSession cfg sessionId spawn email repo path name cols rows w)).
Proof.
  intros Hfresh Hc. unfold createSession.
  destruct (count_geb _ (MAX_SESSIONS_PER_USER cfg)); [exact Hc|].
  destruct (count_geb _ (MAX_TOTAL_SESSIONS cfg)); [exact Hc|].
  cbv zeta.
  set (key := getUserRepoKey email repo).
  set (existing := match map_get key (userRepoSessions w) with
                   | Some ids => ids
                   | None => []
                   end).
  match goal with
  | |- context [spawnClaude cfg spawn ?r cols rows ?w3] =>
      set (w3' := w3);
      pose proof (spawnClaude_same cfg spawn r cols rows w3' w3'
                    (same_index_refl w3')) as Hsame;
      assert (H3 : index_consistent w3');
      [|destruct (spawnClaude cfg spawn r cols rows w3') as [[u|m] w4];
        exact (same_index_consistent _ _ Hsame H3)]
  end.
  match goal with
  | w3' := with_userRepoSessions _ (with_sessions _ (with_heap (_ ++ [?e]) _))
      |- _ => set (entry := e) in *
  end.
  destruct Hc as (Hv & Hb & Hcc).
  assert (Hh3 : heap w3' = heap w ++ [entry]) by reflexivity.
  assert (Hs3 : sessions w3' = sessions w ++ [(sessionId, length (heap w))]).
  { unfold w3'. cbn. now apply map_set_fresh. }
  assert (Hu3 : userRepoSessions w3'
                = map_set key (set_add sessionId existing)
                    (userRepoSessions w)) by reflexivity.
  assert (Hkey : key_of entry = key) by reflexivity.
  assert (Hnew : getEntry sessionId w3'
                 = Some (length (heap w), entry)).
  { unfold getEntry. rewrite Hs3, Hh3, (map_get_snoc _ _ _ Hfresh).
    now rewrite nth_error_snoc. }
  assert (Hold : forall sid, sid <> sessionId ->
                             getEntry sid w3' = getEntry sid w).
  { intros sid Hne. unfold getEntry. rewrite Hs3, Hh3.
    assert (Hm : map_get sid (sessions w ++ [(sessionId, length (heap w))])
                 = map_get sid (sessions w)).
    { clear -Hne. induction (sessions w) as [|[k0 v0] l IH]; simpl.
      - apply eqb_neq in Hne. now rewrite Hne.
      - now rewrite IH. }
    rewrite Hm. destruct (map_get sid (sessions w)) as [r|] eqn:Er;
      [|reflexivity].
    assert (Hr : r < length (heap w)).
    { unfold refs_valid in Hv. rewrite Forall_forall in Hv.
      clear -Er Hv. induction (sessions w) as [|[k0 v0] l IH];
        simpl in *; [discriminate|].
      destruct (Js.eqb sid k0).
      - injection Er as <-. apply (Hv (k0, v0)). now left.
      - apply IH; [|exact Er]. intros kv Hkv. apply Hv. now right. }
    now rewrite nth_error_app1. }
  assert (Hdead : getEntry sessionId w = None).
  { unfold getEntry. now rewrite Hfresh. }
  split; [|split].
  - unfold refs_valid. rewrite Hs3, Hh3. rewrite length_app. simpl.
    apply Forall_app. split.
    + unfold refs_valid in Hv. eapply Forall_impl; [|exact Hv].
      intros kv Hkv. simpl in *. lia.
    + constructor; [simpl; lia|constructor].
  - intros k ids sid Hk Hin. rewrite Hu3, map_get_map_set in Hk.
    destruct (Js.eqb sid sessionId) eqn:Es.
    + apply eqb_eq in Es. subst sid.
      destruct (Js.eqb k key) eqn:Ek.
      * apply eqb_eq in Ek. subst k. eauto.
      * destruct (Hb _ _ _ Hk Hin) as (r & e & Hg & _). congruence.
    + apply eqb_neq in Es. rewrite (Hold _ Es).
      destruct (Js.eqb k key) eqn:Ek.
      * apply eqb_eq in Ek. subst k. injection Hk as <-.
        apply set_add_In_iff in Hin. destruct Hin as [?|Hin]; [contradiction|].
        unfold existing in Hin.
        destruct (map_get key (userRepoSessions w)) as [ids|] eqn:Em;
          [|contradiction].
        exact (Hb _ _ _ Em Hin).
      * exact (Hb _ _ _ Hk Hin).
  - intros sid r e Hg.
    destruct (Js.eqb sid sessionId) eqn:Es.
    + apply eqb_eq in Es. subst sid. rewrite Hnew in Hg.
      injection Hg as <- <-. split; [reflexivity|].
      rewrite Hkey, Hu3, map_get_map_set, eqb_refl.
      eexists. split; [reflexivity|]. apply set_add_In_iff. now left.
    + apply eqb_neq in Es. rewrite (Hold _ Es) in Hg.
      destruct (Hcc _ _ _ Hg) as (Hid & ids & Hm & Hin).
      split; [exact Hid|]. rewrite Hu3, map_get_map_set.
      destruct (Js.eqb (key_of e) key) eqn:Ek.
      * apply eqb_eq in Ek. eexists. split; [reflexivity|].
        apply set_add_In_iff. right. unfold existing.
        rewrite <- Ek, Hm. exact Hin.
      * eauto.
Qed.

Lemma sweep_consistent cfg (w : World) :
  index_consistent w -> index_consistent (cleanupExpiredSessions cfg w).
Proof.
  intros Hc. unfold cleanupExpiredSessions.
  generalize (clock w). intros now. generalize (sessions w). intros l.
  revert w Hc. induction l as [|kv l IH]; intros w Hc; simpl; [exact Hc|].
  apply IH.
  destruct (getEntry (fst kv) w) as [[r e]|]; [|exact Hc].
  destruct (disconnectedAt e); [|exact Hc].
  destruct (Z.gtb _ _); [|exact Hc].
  now apply cleanupSession_consistent.
Qed.

Lemma apply_event_consistent cfg ev (w : World) :
  match ev with
  | EvCreateSession sessionId _ _ _ _ _ _ _ =>
      map_get sessionId (sessions w) = None
  | _ => True
  end ->
  index_consistent w -> index_consistent (apply_event cfg ev w).
Proof.
  intros Hf Hc. destruct ev; simpl.
  - now apply createSession_consistent.
  - exact (same_index_consistent _ _
             (attachClient_same _ _ _ _ (same_index_refl w)) Hc).
  - exact (same_index_consistent _ _
             (detachClient_same _ _ _ _ _ (same_index_refl w)) Hc).
  - exact (same_index_consistent _ _
             (sendInput_same _ _ _ _ (same_index_refl w)) Hc).
  - exact (same_index_consistent _ _
             (resize_same _ _ _ _ _ (same_index_refl w)) Hc).
  - exact (same_index_consistent _ _
             (restartSession_same _ _ _ _ _ (same_index_refl w)) Hc).
  - now apply cleanupSession_consistent.
  - exact (same_index_consistent _ _
             (renameSession_same _ _ _ _ (same_index_refl w)) Hc).
  - destruct (nth_error (procs w) pid) as [p|]; [|exact Hc].
    destruct (pty_exited p); [exact Hc|].
    exact (same_index_consistent _ _
             (onData_same _ _ _ _ (same_index_refl w)) Hc).
  - destruct (nth_error (procs w) pid) as [p|]; [|exact Hc].
    destruct (pty_exited p); [exact Hc|].
    refine (same_index_consistent _ _ (onExit_same _ _ _ _ _ _) Hc).
    index.
  - destruct (nth_error (timers w) t) as [x|]; [|exact Hc].
    destruct (_ && _); [|exact Hc].
    apply cleanupSession_consistent.
    refine (same_index_consistent _ _ _ Hc). index.
  - now apply sweep_consistent.
  - refine (same_index_consistent _ _ _ Hc). index.
Qed.

Lemma empty_world_consistent : index_consistent empty_world.
Proof.
  split; [|split].
  - constructor.
  - intros key ids sid H. discriminate.
  - intros sid r e H. discriminate.
Qed.

Lemma run_consistent cfg evs (w : World) :
  fresh_ids cfg evs w -> index_consistent w ->
  index_consistent (run cfg evs w).
Proof.
  revert w. induction evs as [|ev evs IH]; intros w Hf Hc; [exact Hc|].
  destruct Hf as [Hf Hrest]. apply IH; [exact Hrest|].
  now apply apply_event_consistent.
Qed.

Lemma insert_tab_In (t x : TabInfo) (l : list TabInfo) :
  In x (insert_tab t l) <-> x = t \/ In x l.
Proof.
  induction l as [|y l IH]; simpl.
  - intuition.
  - destruct (Z.leb _ _); simpl; [intuition|]. rewrite IH. intuition.
Qed.

Lemma sort_tabs_In (x : TabInfo) (l : list TabInfo) :
  In x (sort_tabs l) <-> In x l.
Proof.
  unfold sort_tabs. induction l as [|y l IH]; simpl; [tauto|].
  rewrite insert_tab_In, IH. intuition.
Qed.

Lemma listSessions_consistent (w : World) (email repo : jsstring)
    (tab : TabInfo) :
  index_consistent w ->
  In tab (listSessions email repo w) <->
  exists r e, getEntry (tab_id tab) w = Some (r, e)
              /\ key_of e = getUserRepoKey email repo
              /\ tab = tab_of e.
Proof.
  intros (Hv & Hb & Hcc). unfold listSessions.
  destruct (map_get (getUserRepoKey email repo) (userRepoSessions w))
    as [ids|] eqn:Em.
  - rewrite sort_tabs_In, in_flat_map. split.
    + intros (sid & Hin & Ht).
      destruct (Hb _ _ _ Em Hin) as (r & e & Hg & Hk).
      rewrite Hg in Ht. destruct Ht as [<-|[]].
      destruct (Hcc _ _ _ Hg) as (Hid & _).
      exists r, e. cbn. rewrite Hid.
      split; [exact Hg|]. split; [exact Hk|].
      unfold tab_of. now rewrite Hid.
    + intros (r & e & Hg & Hk & ->).
      destruct (Hcc _ _ _ Hg) as (Hid & ids' & Hm & Hin).
      rewrite Hk, Em in Hm. injection Hm as <-.
      exists (tab_id (tab_of e)). split; [exact Hin|].
      rewrite Hg. now left.
  - split; [intros []|].
    intros (r & e & Hg & Hk & _).
    destruct (Hcc _ _ _ Hg) as (_ & ids' & Hm & _). congruence.
Qed.

Lemma key_split (a a' b b' : jsstring) :
  ~ In COLON a -> ~ In COLON a' ->
  a ++ COLON :: b = a' ++ COLON :: b' -> a = a' /\ b = b'.
Proof.
  revert a'. induction a as [|c a IH]; intros [|c' a'] Ha Ha' H; simpl in *.
  - injection H as <-. auto.
  - injection H as H _. subst c'. tauto.
  - injection H as H _. subst c. tauto.
  - injection H as <- H.
    destruct (IH a') as [<- <-]; try tauto.
Qed.

Lemma key_of_owner (e : SessionEntry) (email repo : jsstring) :
  ~ In COLON email -> ~ In COLON (userEmail (session e)) ->
  key_of e = getUserRepoKey email repo <->
  userEmail (session e) = email /\ repoId (session e) = repo.
Proof.
  intros He Hu. unfold key_of, getUserRepoKey. split.
  - intros H. now apply key_split.
  - now intros [-> ->].
Qed.

(** X23. The manager keeps its two indexes in step.  After any sequence of
    events from the empty manager in which every created session gets an id
    that is not in use, each reference of the session map denotes an entry,
    each id filed under a user-and-repository key is a session of the map
    whose entry has that key, and each session of the map is filed under the
    key of its entry and carries its own id.  So [listSessions] for a user
    and repository lists the sessions of the map with that key, and only
    them; when neither e-mail address has a colon, the sessions with that key
    are the sessions of that user for that repository. *)
Theorem listSessions_lists_the_live_sessions (cfg : Config)
    (evs : list event) :
  fresh_ids cfg evs empty_world ->
  let w := run cfg evs empty_world in
  index_consistent w
  /\ (forall email repo tab,
        In tab (listSessions email repo w) <->
        exists r e, getEntry (tab_id tab) w = Some (r, e)
                    /\ key_of e = getUserRepoKey email repo
                    /\ tab = tab_of e)
  /\ (forall e email repo,
        ~ In COLON email -> ~ In COLON (userEmail (session e)) ->
        key_of e = getUserRepoKey email repo <->
        userEmail (session e) = email /\ repoId (session e) = repo).
Proof.
  intros Hf w.
  assert (Hc : index_consistent w).
  { apply run_consistent; [exact Hf|apply empty_world_consistent]. }
  split; [exact Hc|]. split.
  - intros email repo tab. now apply listSessions_consistent.
  - intros e email repo. apply key_of_owner.
Qed.

Lemma listSessions_lists_the_live_sessions_witness :
  fresh_ids default_config tabs_history empty_world
  /\ index_consistent (run default_config tabs_history empty_world)
  /\ map tab_id
       (listSessions (js "u@x") (js "r/demo")
          (run default_config tabs_history empty_world)) = [js "s2"].
Proof.
  assert (Hf : fresh_ids default_config tabs_history empty_world).
  { cbn. repeat split; reflexivity. }
  split; [exact Hf|]. split.
  - exact (proj1 (listSessions_lists_the_live_sessions default_config
                    tabs_history Hf)).
  - reflexivity.
Defined.

End IndexFacts.

(** ** The path check of the git service against the one of the file
    service *)

Module GitFacts.
Import NodePath NodeFs FileService PathSafety GitService GitNotions JsFacts.
Import FsInvariants FsFacts PathStrings PathSafetyProps WorktreeFacts.
Import LexicalSafety.

Lemma split_In_substring (sep : N) (seg s : jsstring) :
  In seg (split sep s) -> exists a b, s = a ++ seg ++ b.
Proof.
  intros H. destruct (split_In_cases _ _ _ H) as [H1|H1].
  - apply startsWith_spec in H1. destruct H1 as [t ->]. now exists [], t.
  - apply includes_spec in H1. destruct H1 as (a & b & ->).
    exists (a ++ [sep]), b. now rewrite <- app_assoc.
Qed.

Lemma plain_substring (a s b : jsstring) : plain (a ++ s ++ b) -> plain s.
Proof.
  intros [H1 H2]. split.
  - apply includes_false_app_r in H1. now apply includes_false_app_l in H1.
  - rewrite !existsb_app in H2. apply orb_false_iff in H2.
    destruct H2 as [_ H2]. now apply orb_false_iff in H2.
Qed.

Lemma plain_segments (p : jsstring) :
  plain p -> Forall plain (split SLASH p).
Proof.
  intros H. apply Forall_forall. intros seg Hin.
  destruct (split_In_substring _ _ _ Hin) as (a & b & E).
  rewrite E in H. now apply plain_substring in H.
Qed.

Lemma plain_not_dotdot (s : jsstring) : plain s -> Js.eqb s (js "..") = false.
Proof.
  intros [H _]. apply eqb_neq. intros ->. discriminate.
Qed.

Lemma normalize_fold_plain (above : bool) (segs acc : list jsstring) :
  Forall plain segs ->
  fold_left (normalize_step above) segs acc = rev (filter kept segs) ++ acc.
Proof.
  revert acc. induction segs as [|x segs IH]; intros acc H; [reflexivity|].
  inversion H as [|? ? Hx Hs]; subst. simpl. rewrite (IH _ Hs).
  unfold normalize_step, kept.
  destruct (Js.eqb x [] || Js.eqb x (js ".")); simpl; [reflexivity|].
  rewrite (plain_not_dotdot _ Hx). now rewrite <- app_assoc.
Qed.

Lemma plain_join (l : list jsstring) :
  Forall plain l -> plain (Js.join [SLASH] l).
Proof.
  induction l as [|x l IH]; intros H.
  - split; reflexivity.
  - inversion H as [|? ? Hx Hl]; subst. destruct l as [|y l]; [exact Hx|].
    specialize (IH Hl). destruct IH as [I1 I2]. destruct Hx as [X1 X2].
    change (Js.join [SLASH] (x :: y :: l))
      with (x ++ SLASH :: Js.join [SLASH] (y :: l)).
    split.
    + change (js "..") with [DOT; DOT]. rewrite includes_two_app.
      change [DOT; DOT] with (js "..") at 1. rewrite X1.
      rewrite includes_two. change [DOT; DOT] with (js "..").
      rewrite I1. simpl. now rewrite andb_false_r.
    + rewrite existsb_app, X2. simpl. exact I2.
Qed.

Lemma plain_snoc_slash (s : jsstring) : plain s -> plain (s ++ [SLASH]).
Proof.
  intros [H1 H2]. split.
  - change (js "..") with [DOT; DOT]. rewrite includes_two_app.
    change [DOT; DOT] with (js "..") at 1. rewrite H1. simpl.
    now rewrite andb_false_r.
  - rewrite existsb_app, H2. reflexivity.
Qed.

Lemma kept_first_char (l : list jsstring) :
  Forall (fun seg => existsb (N.eqb SLASH) seg = false) l ->
  isAbsolute (Js.join [SLASH] (filter kept l)) = false.
Proof.
  induction l as [|x l IH]; intros H; [reflexivity|].
  inversion H as [|? ? Hx Hl]; subst. cbn [filter].
  destruct (kept x) eqn:Ek; [|now apply IH].
  destruct x as [|c x]; [discriminate|].
  assert (Hc : is_slash c = false).
  { simpl in Hx. apply orb_false_iff in Hx. destruct Hx as [Hx _].
    unfold is_slash. now rewrite N.eqb_sym. }
  destruct (filter kept l); simpl; exact Hc.
Qed.

(** The normal form of a relative path with no two dots in a row and no
    backslash. *)
Lemma normalize_plain (p : jsstring) :
  plain p -> isAbsolute p = false ->
  plain (normalize p) /\ isAbsolute (normalize p) = false.
Proof.
  intros Hp Habs. unfold normalize. destruct p as [|c p].
  { split; [split|]; reflexivity. }
  rewrite Habs. cbn [negb]. unfold normalizeString, normalize_segments.
  rewrite (normalize_fold_plain _ _ _ (plain_segments _ Hp)).
  rewrite app_nil_r, rev_involutive.
  pose proof (plain_join (filter kept (split SLASH (c :: p)))) as Hj.
  pose proof (kept_first_char _ (split_no_sep SLASH (c :: p))) as Hf.
  assert (Hall : Forall plain (filter kept (split SLASH (c :: p)))).
  { apply Forall_forall. intros x Hx. apply filter_In in Hx.
    pose proof (plain_segments _ Hp) as Hs. rewrite Forall_forall in Hs.
    now apply Hs. }
  specialize (Hj Hall).
  destruct (Js.join [SLASH] (filter kept (split SLASH (c :: p))))
    as [|d q] eqn:E.
  - destruct (endsWith [SLASH] (c :: p)); split; try split; reflexivity.
  - cbn [app]. destruct (endsWith [SLASH] (c :: p)).
    + split; [exact (plain_snoc_slash (d :: q) Hj)|exact Hf].
    + rewrite app_nil_r. split; [exact Hj|exact Hf].
Qed.

Lemma includes_tail (c : N) (q s : jsstring) :
  includes (c :: q) s = true -> includes q s = true.
Proof.
  intros H. apply includes_spec in H. destruct H as (a & b & ->).
  apply includes_spec. exists (a ++ [c]), b. now rewrite <- app_assoc.
Qed.

Lemma startsWith_includes (q s : jsstring) :
  startsWith q s = true -> includes q s = true.
Proof.
  intros H. apply startsWith_spec in H. destruct H as [t ->].
  apply includes_prefix.
Qed.

Lemma plain_accepted (p : jsstring) :
  p <> [] -> plain p -> startsWith (js "/") p = false ->
  validateRelativePath p = None.
Proof.
  intros Hne Hp Hs.
  assert (Habs : isAbsolute p = false).
  { change (js "/") with [SLASH] in Hs. rewrite startsWith_one in Hs.
    destruct p as [|c p]; [reflexivity|]. cbn [isAbsolute].
    unfold is_slash. now rewrite N.eqb_sym. }
  destruct (normalize_plain p Hp Habs) as [[N1 N2] N3].
  unfold validateRelativePath. destruct p as [|c p]; [congruence|].
  rewrite Habs. cbv zeta.
  set (n := normalize (c :: p)) in *.
  assert (H1 : startsWith (js "..") n = false).
  { destruct (startsWith (js "..") n) eqn:E; [|reflexivity].
    apply startsWith_includes in E.
    change (includes (js "..") n = true) in E.
    rewrite N1 in E. discriminate. }
  assert (H2 : includes (js "/..") n = false).
  { destruct (includes (js "/..") n) eqn:E; [|reflexivity].
    apply includes_tail in E.
    change (includes (js "..") n = true) in E.
    rewrite N1 in E. discriminate. }
  assert (H3 : includes (BACKSLASH :: js "..") n = false).
  { destruct (includes (BACKSLASH :: js "..") n) eqn:E; [|reflexivity].
    apply includes_tail in E.
    change (includes (js "..") n = true) in E.
    rewrite N1 in E. discriminate. }
  assert (H4 : startsWith (js "/") n = false).
  { change (js "/") with [SLASH]. rewrite startsWith_one.
    destruct n as [|d n']; [reflexivity|]. cbn [isAbsolute] in N3.
    unfold is_slash in N3. now rewrite N.eqb_sym. }
  assert (H5 : startsWith [BACKSLASH] n = false).
  { rewrite startsWith_one.
    destruct n as [|d n']; [reflexivity|]. cbn [existsb] in N2.
    apply orb_false_iff in N2. now destruct N2 as [N2 _]. }
  rewrite H1, H2, H3, H4, H5. reflexivity.
Qed.

Lemma unchecked_path_plain (filePath : jsstring) :
  existsb (N.eqb BACKSLASH) filePath = false ->
  includes (js "..") filePath || startsWith (js "/") filePath = false ->
  plain filePath /\ startsWith (js "/") filePath = false.
Proof.
  intros Hb H. apply orb_false_iff in H. destruct H as [H1 H2].
  split; [split|]; assumption.
Qed.

(** X24. The path check of [getDiff] and [getFileAtCommit] is at least as
    strict as the one of the file service: a path they let through that is
    not empty and has no backslash is a path that [validateRelativePath]
    accepts, and it is handed to git as it is, after the separator [--] or
    after the commit hash and a colon.  The argument that begins with the
    hash begins with a hexadecimal digit, so it cannot be read as an
    option. *)
Theorem git_file_paths_pass_the_file_check (filePath : jsstring) :
  filePath <> [] ->
  existsb (N.eqb BACKSLASH) filePath = false ->
  (forall args,
      getDiff (Some filePath) = Ok args ->
      args = [js "--"; filePath] /\ validateRelativePath filePath = None)
  /\ (forall commitHash args,
         getFileAtCommit commitHash filePath = Ok args ->
         args = [commitHash ++ js ":" ++ filePath]
         /\ startsWith (js "-") (commitHash ++ js ":" ++ filePath) = false
         /\ validateRelativePath filePath = None).
Proof.
  intros Hne Hb. split.
  - intros args H. unfold getDiff in H.
    destruct filePath as [|c p]; [congruence|].
    destruct (includes (js "..") (c :: p) || startsWith (js "/") (c :: p))
      eqn:E; [discriminate|].
    injection H as <-. split; [reflexivity|].
    destruct (unchecked_path_plain _ Hb E) as [Hp Hs].
    now apply plain_accepted.
  - intros commitHash args H. unfold getFileAtCommit in H.
    destruct (is_commit_hash commitHash) eqn:Eh; [|discriminate].
    cbn [negb] in H.
    destruct (includes (js "..") filePath || startsWith (js "/") filePath)
      eqn:E; [discriminate|].
    injection H as <-. split; [reflexivity|].
    destruct (unchecked_path_plain _ Hb E) as [Hp Hs].
    split; [|now apply plain_accepted].
    unfold is_commit_hash in Eh. apply andb_true_iff in Eh.
    destruct Eh as [Eh Hx]. apply andb_true_iff in Eh. destruct Eh as [Hl _].
    destruct commitHash as [|d h]; [discriminate|].
    cbn [forallb] in Hx. apply andb_true_iff in Hx. destruct Hx as [Hd _].
    change (js "-") with [45%N]. rewrite startsWith_one. cbn [app].
    apply N.eqb_neq. intros <-. discriminate.
Qed.

Lemma git_file_paths_pass_the_file_check_witness :
  getDiff (Some (js "src/a.ts")) = Ok [js "--"; js "src/a.ts"]
  /\ getFileAtCommit (js "abcdef1") (js "src/a.ts")
     = Ok [js "abcdef1:src/a.ts"]
  /\ validateRelativePath (js "src/a.ts") = None.
Proof.
  split; [reflexivity|]. split; [reflexivity|].
  exact (proj2 (proj1 (git_file_paths_pass_the_file_check (js "src/a.ts")
                         ltac:(discriminate) eq_refl)
                  [js "--"; js "src/a.ts"] eq_refl)).
Defined.

End GitFacts.
